(** * Image validation of the secure bootloader (bl2/ext/mcuboot/bootutil)

    A shallow embedding of [bootutil/src/image_validate.c]: the digest
    computation [bootutil_img_hash], the key lookup [bootutil_find_key] and
    the TLV trailer walk of [bootutil_img_validate].

    The C code talks to the flash driver, to the SHA-256 primitive, to the
    signature primitive and to the key table.  The calls are recorded, in
    program order, in a trace carried by the monad [M] (a key lookup is
    recorded as one call); the values the C code computes do not depend on
    the trace. *)

From Stdlib Require Import ZArith List Bool Lia Sorted.
Import ListNotations.
Local Open Scope Z_scope.

(** ** Machine integers *)

(** [uint32_t] arithmetic: every sum and difference is taken modulo 2^32. *)
Definition wrap32 (x : Z) : Z := x mod 2 ^ 32.

(** [uint8_t] parameter conversion. *)
Definition wrap8 (x : Z) : Z := x mod 2 ^ 8.

(** ** Data *)

(** [struct image_header], the fields this file reads. *)
Record image_header := {
  ih_load_addr : Z;
  ih_hdr_size : Z;
  ih_img_size : Z
}.

(** [struct image_tlv_info]. *)
Record image_tlv_info := {
  it_magic : Z;
  it_tlv_tot : Z
}.

(** [struct image_tlv]. *)
Record image_tlv := {
  it_type : Z;
  it_len : Z
}.

(** Modelled from the spec: [struct flash_area] and [flash_area_read] are
    declared in flash_map/flash_map.h, which is not part of the sources at
    hand.  A flash area holds bytes ([fa_data], by offset) and a read of [len]
    bytes at [off] answers with a status ([fa_status off len], zero when the
    read succeeded, the driver's error code when the range is outside the area
    or the device failed). *)
Record flash_area := {
  fa_data : Z -> Z;
  fa_status : Z -> Z -> Z
}.

(** The constants and structure layouts of bootutil/image.h (not part of the
    sources at hand) are parameters of the development. *)
Record image_format := {
  sizeof_info : Z;                        (* sizeof(struct image_tlv_info) *)
  sizeof_tlv : Z;                         (* sizeof(struct image_tlv) *)
  IMAGE_TLV_INFO_MAGIC : Z;
  IMAGE_TLV_KEYHASH : Z;
  IMAGE_TLV_SHA256 : Z;
  IMAGE_TLV_RSA2048_PSS : Z;
  load_info : list Z -> image_tlv_info;   (* the bytes read, seen as the struct *)
  load_tlv : list Z -> image_tlv
}.

(** The primitives of bootutil/sha256.h, the signature check of image_rsa.c
    and the key table of sign_key.h are parameters as well.  A key is the
    list of its [*key->len] bytes. *)
Record crypto := {
  sha256_context : Type;
  sha256_init : sha256_context;
  sha256_update : sha256_context -> list Z -> sha256_context;
  sha256_finish : sha256_context -> list Z;
  verify_sig : list Z -> Z -> list Z -> Z -> Z -> Z;
  bootutil_keys : list (list Z)
}.

(** [bootutil_key_cnt]: the number of entries of [bootutil_keys]. *)
Definition bootutil_key_cnt (K : crypto) : Z := Z.of_nat (length (bootutil_keys K)).

(** ** Calls to the outside, and the monad that records them *)

(** The places of the file that call [flash_area_read]. *)
Inductive read_site :=
| ImageBlock        (* bootutil_img_hash: a block of the image *)
| TlvInfo           (* struct image_tlv_info, after the image *)
| TlvHeader         (* struct image_tlv, at the head of a record *)
| DigestPayload     (* payload of an IMAGE_TLV_SHA256 record *)
| KeyHashPayload    (* payload of an IMAGE_TLV_KEYHASH record *)
| SigPayload.       (* payload of an EXPECTED_SIG_TLV record *)

Inductive call :=
| FlashRead (s : read_site) (off len rc : Z)  (* flash_area_read(fap, off, _, len) = rc *)
| MemCopy (addr len : Z)            (* memcpy(tmp_buf, addr, len) from SRAM *)
| Sha256Update (data : list Z)      (* bootutil_sha256_update(ctx, data, |data|) *)
| OutHash (hash : list Z)           (* memcpy(out_hash, hash, 32) *)
| FindKey (keyhash : list Z) (keyhash_len ret : Z)
| VerifySig (hash : list Z) (hlen : Z) (sig : list Z) (slen key_id ret : Z).

(** A computation either goes on with a value, leaves the C function with
    [return rc], or is cut because the loop budget is spent. *)
Inductive outcome (A : Type) :=
| Val (a : A)
| Return (rc : Z)
| Fuel.
Arguments Val {A} a.
Arguments Return {A} rc.
Arguments Fuel {A}.

Definition M (A : Type) : Type := list call -> outcome A * list call.

Definition ret {A} (a : A) : M A := fun t => (Val a, t).

Definition c_return {A} (rc : Z) : M A := fun t => (Return rc, t).

Definition out_of_fuel {A} : M A := fun t => (Fuel, t).

Definition bind {A B} (m : M A) (k : A -> M B) : M B :=
  fun t =>
    match m t with
    | (Val a, t') => k a t'
    | (Return rc, t') => (Return rc, t')
    | (Fuel, t') => (Fuel, t')
    end.

Definition emit (c : call) : M unit := fun t => (Val tt, t ++ [c]).

(** The boundary of a C function call: the callee's [return rc] is a value
    for the caller. *)
Definition returned {A} (m : M A) : M (A + Z) :=
  fun t =>
    match m t with
    | (Val a, t') => (Val (inl a), t')
    | (Return rc, t') => (Val (inr rc), t')
    | (Fuel, t') => (Fuel, t')
    end.

Notation "x <- m ;; k" := (bind m (fun x => k))
  (at level 61, m at next level, right associativity).
Notation "' p <- m ;; k" := (bind m (fun x => match x with p => k end))
  (at level 61, p pattern, m at next level, right associativity).

(** ** Reading bytes *)

(** [len] consecutive bytes of [f] from [off] on. *)
Definition read_bytes (f : Z -> Z) (off len : Z) : list Z :=
  map (fun i => f (off + Z.of_nat i)) (seq 0 (Z.to_nat len)).

Definition flash_area_read (s : read_site) (fap : flash_area) (off len : Z)
  : M (Z * list Z) :=
  let rc := fa_status fap off len in
  _ <- emit (FlashRead s off len rc) ;;
  ret (rc, read_bytes (fa_data fap) off len).

(** [memcmp(a, b, n)]: zero when the first [n] bytes agree, else the
    difference of the first two bytes that differ.  An array shorter than [n]
    continues with zeroes ([hash] is declared [= {0}]). *)
Fixpoint memcmp (a b : list Z) (n : nat) : Z :=
  match n with
  | O => 0
  | S n' =>
      let x := hd 0 a in
      let y := hd 0 b in
      if x =? y then memcmp (tl a) (tl b) n' else x - y
  end.

Section Model.

Variable F : image_format.
Variable K : crypto.

(** [MCUBOOT_SIGN_RSA]: when set, [EXPECTED_SIG_TLV] is defined as
    [IMAGE_TLV_RSA2048_PSS]. *)
Variable MCUBOOT_SIGN_RSA : bool.

(** The SRAM an image is loaded to when [MCUBOOT_RAM_LOADING] is set, by
    address. *)
Variable sram : Z -> Z.

Definition EXPECTED_SIG_TLV : Z := IMAGE_TLV_RSA2048_PSS F.

Definition EXPECTED_SIG_LEN (x : Z) : bool := x =? 256.

Definition bootutil_sha256_update (ctx : sha256_context K) (data : list Z)
  : M (sha256_context K) :=
  _ <- emit (Sha256Update data) ;;
  ret (sha256_update K ctx data).

Definition bootutil_verify_sig (hash : list Z) (hlen : Z) (sig : list Z)
    (slen : Z) (key_id : Z) : M Z :=
  let rc := verify_sig K hash hlen sig slen key_id in
  _ <- emit (VerifySig hash hlen sig slen key_id rc) ;;
  ret rc.

(** ** bootutil_img_hash *)

(** The image bytes by offset: in flash, or (with [fap == NULL], RAM loading)
    in SRAM from [ih_load_addr] on.  A NULL [fap] without
    [MCUBOOT_RAM_LOADING] is passed on to the flash driver and is outside the
    model. *)
Definition image_byte (hdr : image_header) (fap : option flash_area) (o : Z) : Z :=
  match fap with
  | Some fa => fa_data fa o
  | None => sram (wrap32 (ih_load_addr hdr + o))
  end.

(** One block into [tmp_buf]. *)
Definition read_block (hdr : image_header) (fap : option flash_area)
    (off blk_sz : Z) : M (list Z) :=
  match fap with
  | None =>
      let addr := wrap32 (ih_load_addr hdr + off) in
      _ <- emit (MemCopy addr blk_sz) ;;
      ret (read_bytes (fun a => sram (wrap32 a)) addr blk_sz)
  | Some fa =>
      '(rc, tmp_buf) <- flash_area_read ImageBlock fa off blk_sz ;;
      if rc =? 0 then ret tmp_buf else c_return (-1)
  end.

(** [for (off = 0; off < size; off += blk_sz)], entered at [off]. *)
Fixpoint img_hash_loop (fuel : nat) (hdr : image_header)
    (fap : option flash_area) (tmp_buf_sz size off : Z)
    (sha256_ctx : sha256_context K) : M (sha256_context K) :=
  match fuel with
  | O => out_of_fuel
  | S fuel' =>
      if off <? size then
        let blk_sz := wrap32 (size - off) in
        let blk_sz := if blk_sz >? tmp_buf_sz then tmp_buf_sz else blk_sz in
        tmp_buf <- read_block hdr fap off blk_sz ;;
        sha256_ctx <- bootutil_sha256_update sha256_ctx tmp_buf ;;
        img_hash_loop fuel' hdr fap tmp_buf_sz size (wrap32 (off + blk_sz)) sha256_ctx
      else ret sha256_ctx
  end.

(** The seed is [None] for a NULL pointer; [hash_result] is the caller's
    array, left as it is when the function fails. *)
Definition bootutil_img_hash (fuel : nat) (hdr : image_header)
    (fap : option flash_area) (tmp_buf_sz : Z) (hash_result : list Z)
    (seed : option (list Z)) (seed_len : Z) : M (Z * list Z) :=
  r <- returned (
    sha256_ctx <-
      match seed with
      | Some s =>
          if seed_len >? 0
          then bootutil_sha256_update (sha256_init K) (firstn (Z.to_nat seed_len) s)
          else ret (sha256_init K)
      | None => ret (sha256_init K)
      end ;;
    let size := wrap32 (ih_img_size hdr + ih_hdr_size hdr) in
    img_hash_loop fuel hdr fap tmp_buf_sz size 0 sha256_ctx) ;;
  match r with
  | inl sha256_ctx => ret (0, sha256_finish K sha256_ctx)
  | inr rc => ret (rc, hash_result)
  end.

(** ** bootutil_find_key *)

(** [for (i = 0; i < bootutil_key_cnt; i++)] over the keys from index [i] on;
    [keys] is the rest of the table.  The [assert(keyhash_len <= 32)] of the
    C function holds at its only call, which is made after the check
    [tlv.it_len > 32]. *)
Fixpoint find_key_from (keys : list (list Z)) (i : Z) (keyhash : list Z)
    (keyhash_len : Z) : Z :=
  match keys with
  | [] => -1
  | key :: keys' =>
      let hash := sha256_finish K (sha256_update K (sha256_init K) key) in
      if memcmp hash keyhash (Z.to_nat keyhash_len) =? 0 then i
      else find_key_from keys' (i + 1) keyhash keyhash_len
  end.

Definition bootutil_find_key (keyhash : list Z) (keyhash_len : Z) : M Z :=
  let keyhash_len := wrap8 keyhash_len in
  let i := find_key_from (bootutil_keys K) 0 keyhash keyhash_len in
  _ <- emit (FindKey keyhash keyhash_len i) ;;
  ret i.

(** ** bootutil_img_validate *)

(** The locals the TLV loop carries from one record to the next. *)
Record vstate := {
  off : Z;
  sha256_valid : Z;
  valid_signature : Z;
  key_id : Z
}.

Definition set_off (st : vstate) (o : Z) : vstate :=
  {| off := o; sha256_valid := sha256_valid st;
     valid_signature := valid_signature st; key_id := key_id st |}.

Definition set_sha256_valid (st : vstate) (v : Z) : vstate :=
  {| off := off st; sha256_valid := v;
     valid_signature := valid_signature st; key_id := key_id st |}.

Definition set_valid_signature (st : vstate) (v : Z) : vstate :=
  {| off := off st; sha256_valid := sha256_valid st;
     valid_signature := v; key_id := key_id st |}.

Definition set_key_id (st : vstate) (k : Z) : vstate :=
  {| off := off st; sha256_valid := sha256_valid st;
     valid_signature := valid_signature st; key_id := k |}.

(** The body of the loop once the record header [tlv] is read; [continue]
    and the end of the body both lead to the increment in [tlv_iteration]. *)
Definition tlv_record (hash : list Z) (fap : flash_area) (st : vstate)
    (tlv : image_tlv) : M vstate :=
  if it_type tlv =? IMAGE_TLV_SHA256 F then
    if negb (it_len tlv =? 32) then c_return (-1) else
    '(rc, buf) <- flash_area_read DigestPayload fap
                    (wrap32 (off st + sizeof_tlv F)) 32 ;;
    if negb (rc =? 0) then c_return rc else
    if negb (memcmp hash buf 32 =? 0) then c_return (-1) else
    ret (set_sha256_valid st 1)
  else if MCUBOOT_SIGN_RSA then
    if it_type tlv =? IMAGE_TLV_KEYHASH F then
      if it_len tlv >? 32 then c_return (-1) else
      '(rc, buf) <- flash_area_read KeyHashPayload fap
                      (wrap32 (off st + sizeof_tlv F)) (it_len tlv) ;;
      if negb (rc =? 0) then c_return rc else
      k <- bootutil_find_key buf (it_len tlv) ;;
      ret (set_key_id st k)
    else if it_type tlv =? EXPECTED_SIG_TLV then
      if (key_id st <? 0) || (key_id st >=? bootutil_key_cnt K) then
        ret (set_key_id st (-1))
      else
      if negb (EXPECTED_SIG_LEN (it_len tlv)) || (it_len tlv >? 256) then
        c_return (-1)
      else
      '(rc, buf) <- flash_area_read SigPayload fap
                      (wrap32 (off st + sizeof_tlv F)) (it_len tlv) ;;
      if negb (rc =? 0) then c_return (-1) else
      rc <- bootutil_verify_sig hash 32 buf (it_len tlv) (key_id st) ;;
      let st := if rc =? 0 then set_valid_signature st 1 else st in
      ret (set_key_id st (-1))
    else ret st
  else ret st.

(** One turn of the loop: the header read, the body, then
    [off += sizeof(tlv) + tlv.it_len]. *)
Definition tlv_iteration (hash : list Z) (fap : flash_area) (st : vstate)
  : M vstate :=
  '(rc, bytes) <- flash_area_read TlvHeader fap (off st) (sizeof_tlv F) ;;
  if negb (rc =? 0) then c_return rc else
  let tlv := load_tlv F bytes in
  st' <- tlv_record hash fap st tlv ;;
  ret (set_off st' (wrap32 (off st + (sizeof_tlv F + it_len tlv)))).

(** [for (; off < end; off += sizeof(tlv) + tlv.it_len)]. *)
Fixpoint tlv_loop (fuel : nat) (hash : list Z) (fap : flash_area) (end_ : Z)
    (st : vstate) : M vstate :=
  match fuel with
  | O => out_of_fuel
  | S fuel' =>
      if off st <? end_ then
        st' <- tlv_iteration hash fap st ;;
        tlv_loop fuel' hash fap end_ st'
      else ret st
  end.

(** The function up to the end of the TLV loop: the digest, the trailer
    info, the traversal.  It yields the digest and the locals at loop exit. *)
Definition img_validate_scan (fuel : nat) (hdr : image_header)
    (fap : flash_area) (tmp_buf_sz : Z) (seed : option (list Z))
    (seed_len : Z) (out_hash : bool) : M (list Z * vstate) :=
  '(rc, hash) <- bootutil_img_hash fuel hdr (Some fap) tmp_buf_sz
                   (repeat 0 32) seed seed_len ;;
  if negb (rc =? 0) then c_return rc else
  _ <- (if out_hash then emit (OutHash hash) else ret tt) ;;
  let off := wrap32 (ih_img_size hdr + ih_hdr_size hdr) in
  '(rc, bytes) <- flash_area_read TlvInfo fap off (sizeof_info F) ;;
  if negb (rc =? 0) then c_return rc else
  let info := load_info F bytes in
  if negb (it_magic info =? IMAGE_TLV_INFO_MAGIC F) then c_return (-1) else
  let end_ := wrap32 (off + it_tlv_tot info) in
  let off := wrap32 (off + sizeof_info F) in
  st <- tlv_loop fuel hash fap end_
          {| off := off; sha256_valid := 0; valid_signature := 0;
             key_id := -1 |} ;;
  ret (hash, st).

(** [out_hash] tells whether the caller passed a buffer for the digest. *)
Definition bootutil_img_validate (fuel : nat) (hdr : image_header)
    (fap : flash_area) (tmp_buf_sz : Z) (seed : option (list Z))
    (seed_len : Z) (out_hash : bool) : M Z :=
  '(_, st) <- img_validate_scan fuel hdr fap tmp_buf_sz seed seed_len out_hash ;;
  if sha256_valid st =? 0 then c_return (-1) else
  if MCUBOOT_SIGN_RSA && (valid_signature st =? 0) then c_return (-1) else
  c_return 0.

End Model.

(** ** What the block loop is expected to do *)

(** The blocks [(offset, length)] that cover [off .. size) with blocks of
    [cap] bytes and a shorter last one. *)
Inductive blocks (cap size : Z) : Z -> list (Z * Z) -> Prop :=
| blocks_done : forall off, size <= off -> blocks cap size off []
| blocks_step : forall off bl,
    off < size ->
    0 < Z.min (size - off) cap ->
    blocks cap size (off + Z.min (size - off) cap) bl ->
    blocks cap size off ((off, Z.min (size - off) cap) :: bl).

(** [ceil (a / b)]. *)
Definition ceil_div (a b : Z) : Z := (a + b - 1) / b.

(** The calls one block of the image gives rise to. *)
Definition block_calls (sram : Z -> Z) (hdr : image_header)
    (fap : option flash_area) (b : Z * Z) : list call :=
  let data := read_bytes (image_byte sram hdr fap) (fst b) (snd b) in
  match fap with
  | Some _ => [FlashRead ImageBlock (fst b) (snd b) 0; Sha256Update data]
  | None => [MemCopy (wrap32 (ih_load_addr hdr + fst b)) (snd b); Sha256Update data]
  end.

(** The seed bytes the digest starts with. *)
Definition seed_bytes (seed : option (list Z)) (seed_len : Z) : list Z :=
  match seed with
  | Some s => if seed_len >? 0 then firstn (Z.to_nat seed_len) s else []
  | None => []
  end.

Definition seed_calls (seed : option (list Z)) (seed_len : Z) : list call :=
  match seed with
  | Some s => if seed_len >? 0 then [Sha256Update (firstn (Z.to_nat seed_len) s)] else []
  | None => []
  end.

(** The number of image blocks a trace reads. *)
Fixpoint block_reads (t : list call) : nat :=
  match t with
  | [] => O
  | FlashRead ImageBlock _ _ _ :: t' => S (block_reads t')
  | MemCopy _ _ :: t' => S (block_reads t')
  | _ :: t' => block_reads t'
  end.

(** The streaming laws of the SHA-256 primitive: feeding data in pieces is
    feeding the concatenation. *)
Record sha256_streams (K : crypto) : Prop := {
  update_nil : forall c, sha256_update K c [] = c;
  update_app : forall c a b,
    sha256_update K (sha256_update K c a) b = sha256_update K c (a ++ b)
}.

(** The digest of a message, in one piece. *)
Definition sha256 (K : crypto) (msg : list Z) : list Z :=
  sha256_finish K (sha256_update K (sha256_init K) msg).

(** The digest context once the seed is in. *)
Definition seeded (K : crypto) (seed : option (list Z)) (seed_len : Z)
  : sha256_context K :=
  match seed with
  | Some s =>
      if seed_len >? 0
      then sha256_update K (sha256_init K) (firstn (Z.to_nat seed_len) s)
      else sha256_init K
  | None => sha256_init K
  end.

(** The data the digest is fed for a list of blocks. *)
Definition blocks_data (sram : Z -> Z) (hdr : image_header)
    (fap : option flash_area) (bl : list (Z * Z)) : list (list Z) :=
  map (fun b => read_bytes (image_byte sram hdr fap) (fst b) (snd b)) bl.

(** ** What the trailer walk is expected to establish *)

(** The record header the flash holds at [o], and the offset of the record
    after it. *)
Definition tlv_at (F : image_format) (fap : flash_area) (o : Z) : image_tlv :=
  load_tlv F (read_bytes (fa_data fap) o (sizeof_tlv F)).

Definition payload_off (F : image_format) (o : Z) : Z :=
  wrap32 (o + sizeof_tlv F).

Definition next_off (F : image_format) (fap : flash_area) (o : Z) : Z :=
  wrap32 (o + (sizeof_tlv F + it_len (tlv_at F fap o))).

Definition is_digest_read (c : call) : bool :=
  match c with
  | FlashRead DigestPayload _ _ _ => true
  | _ => false
  end.

Definition is_verified (c : call) : bool :=
  match c with
  | VerifySig _ _ _ _ _ ret => ret =? 0
  | _ => false
  end.

Definition is_verify (c : call) : bool :=
  match c with
  | VerifySig _ _ _ _ _ _ => true
  | _ => false
  end.

(** A digest record whose 32 byte payload is the digest [hash] was read. *)
Definition digest_confirmed (fap : flash_area) (hash : list Z) (t : list call)
  : Prop :=
  exists o,
    In (FlashRead DigestPayload o 32 0) t /\
    forall i, (i < 32)%nat ->
      nth i hash 0 = nth i (read_bytes (fa_data fap) o 32) 0.

(** A signature was verified (the primitive answered 0) with a key of the
    table that an earlier key lookup had found. *)
Definition signature_confirmed (K : crypto) (t : list call) : Prop :=
  exists t1 t2 hash hlen sig slen k keyhash keyhash_len,
    t = t1 ++ VerifySig hash hlen sig slen k 0 :: t2 /\
    In (FindKey keyhash keyhash_len k) t1 /\
    0 <= k < bootutil_key_cnt K.

(** The key index of every call of the signature primitive is an index of
    the key table. *)
Definition verify_in_range (K : crypto) (c : call) : Prop :=
  match c with
  | VerifySig _ _ _ _ key_id _ => 0 <= key_id < bootutil_key_cnt K
  | _ => True
  end.

(** Walks a trace with the key a lookup has left for the next signature:
    a lookup leaves its answer, a signature check must find the key it uses
    and takes it away.  [None] when some check uses a key that is not there. *)
Fixpoint consume_keys (t : list call) (pending : option Z) : option (option Z) :=
  match t with
  | [] => Some pending
  | FindKey _ _ k :: t' => consume_keys t' (Some k)
  | VerifySig _ _ _ _ k _ :: t' =>
      match pending with
      | Some k' => if k =? k' then consume_keys t' None else None
      | None => None
      end
  | _ :: t' => consume_keys t' pending
  end.

(** Every header read of a trace is below [end_]. *)
Definition header_below (end_ : Z) (c : call) : Prop :=
  match c with
  | FlashRead TlvHeader o _ _ => o < end_
  | _ => True
  end.

(** The calls made before the TLV loop starts. *)
Definition is_prologue (c : call) : bool :=
  match c with
  | FlashRead ImageBlock _ _ _ | FlashRead TlvInfo _ _ _
  | MemCopy _ _ | Sha256Update _ | OutHash _ => true
  | _ => false
  end.

(** The function accepts: the traversal reached the end of the trailer, a
    digest record carried the computed digest, and (when signatures are
    configured) a signature was verified. *)
Definition accepts (F : image_format) (K : crypto) (MCUBOOT_SIGN_RSA : bool)
    (sram : Z -> Z) (fuel : nat) (hdr : image_header) (fap : flash_area)
    (tmp_buf_sz : Z) (seed : option (list Z)) (seed_len : Z) (out_hash : bool)
  : Prop :=
  exists hash st t t0,
    bootutil_img_hash K sram fuel hdr (Some fap) tmp_buf_sz (repeat 0 32)
      seed seed_len [] = (Val (0, hash), t0) /\
    img_validate_scan F K MCUBOOT_SIGN_RSA sram fuel hdr fap tmp_buf_sz
      seed seed_len out_hash [] = (Val (hash, st), t) /\
    digest_confirmed fap hash t /\
    (MCUBOOT_SIGN_RSA = true -> signature_confirmed K t).

(** ** The invariant of the TLV loop *)

(** A digest payload read of a traversal that goes on: 32 bytes, read without
    error, equal to the digest. *)
Definition digest_read_matches (fap : flash_area) (hash : list Z) (c : call)
  : Prop :=
  match c with
  | FlashRead DigestPayload o len rc =>
      len = 32 /\ rc = 0 /\
      forall i, (i < 32)%nat ->
        nth i hash 0 = nth i (read_bytes (fa_data fap) o 32) 0
  | _ => True
  end.

(** What holds of the calls so far, whether the traversal goes on or not. *)
Definition trace_ok (K : crypto) (t : list call) : Prop :=
  consume_keys t None <> None /\ Forall (verify_in_range K) t.

(** What holds between the locals and the calls so far at the head of each
    turn of the loop. *)
Record scan_inv (K : crypto) (fap : flash_area) (hash : list Z)
    (st : vstate) (t : list call) : Prop := {
  inv_digest_reads : Forall (digest_read_matches fap hash) t;
  inv_sha256_valid :
    (sha256_valid st = 0 /\ existsb is_digest_read t = false) \/
    (sha256_valid st = 1 /\ existsb is_digest_read t = true);
  inv_valid_signature :
    (valid_signature st = 0 /\ existsb is_verified t = false) \/
    (valid_signature st = 1 /\ signature_confirmed K t);
  inv_key_id :
    key_id st = -1 \/
    (0 <= key_id st < bootutil_key_cnt K /\
     consume_keys t None = Some (Some (key_id st)) /\
     exists keyhash keyhash_len, In (FindKey keyhash keyhash_len (key_id st)) t);
  inv_trace : trace_ok K t
}.

(** ** Records of a trailer, as the flash holds them *)

(** No key of the table has a digest that starts with the [len] bytes of
    [keyhash]. *)
Definition no_key_matches (K : crypto) (keyhash : list Z) (len : Z) : Prop :=
  Forall (fun key => memcmp (sha256 K key) keyhash (Z.to_nat len) <> 0)
         (bootutil_keys K).

(** The payload of the record at [o]. *)
Definition payload_at (F : image_format) (fap : flash_area) (o : Z) : list Z :=
  read_bytes (fa_data fap) (payload_off F o) (it_len (tlv_at F fap o)).

(** At [o] the flash holds a readable key-identifier record of at most 32
    bytes. *)
Definition keyhash_record_at (F : image_format) (fap : flash_area) (o : Z)
  : Prop :=
  fa_status fap o (sizeof_tlv F) = 0 /\
  it_type (tlv_at F fap o) <> IMAGE_TLV_SHA256 F /\
  it_type (tlv_at F fap o) = IMAGE_TLV_KEYHASH F /\
  it_len (tlv_at F fap o) <= 32 /\
  fa_status fap (payload_off F o) (it_len (tlv_at F fap o)) = 0.

(** At [o] the flash holds a record of the configured signature type whose
    header can be read. *)
Definition sig_record_at (F : image_format) (fap : flash_area) (o : Z) : Prop :=
  fa_status fap o (sizeof_tlv F) = 0 /\
  it_type (tlv_at F fap o) <> IMAGE_TLV_SHA256 F /\
  it_type (tlv_at F fap o) <> IMAGE_TLV_KEYHASH F /\
  it_type (tlv_at F fap o) = EXPECTED_SIG_TLV F.

(** At [o] the flash holds a digest record whose header can be read. *)
Definition digest_record_at (F : image_format) (fap : flash_area) (o : Z)
  : Prop :=
  fa_status fap o (sizeof_tlv F) = 0 /\
  it_type (tlv_at F fap o) = IMAGE_TLV_SHA256 F.

Definition header_read (F : image_format) (o : Z) : call :=
  FlashRead TlvHeader o (sizeof_tlv F) 0.

Definition is_header_read (c : call) : bool :=
  match c with
  | FlashRead TlvHeader _ _ _ => true
  | _ => false
  end.

(** ** A small platform to run the code on *)

Module Sample.

Definition le16 (lo hi : Z) : Z := lo mod 256 + 256 * (hi mod 256).

(** The layout of bootutil/image.h in the tree the file is taken from:
    [{uint16_t it_magic; uint16_t it_tlv_tot;}] and
    [{uint8_t it_type; uint8_t _pad; uint16_t it_len;}], little endian. *)
Definition format : image_format := {|
  sizeof_info := 4;
  sizeof_tlv := 4;
  IMAGE_TLV_INFO_MAGIC := 0x6907;
  IMAGE_TLV_KEYHASH := 0x01;
  IMAGE_TLV_SHA256 := 0x10;
  IMAGE_TLV_RSA2048_PSS := 0x20;
  load_info := fun b =>
    {| it_magic := le16 (nth 0 b 0) (nth 1 b 0);
       it_tlv_tot := le16 (nth 2 b 0) (nth 3 b 0) |};
  load_tlv := fun b =>
    {| it_type := nth 0 b 0; it_len := le16 (nth 2 b 0) (nth 3 b 0) |}
|}.

(** A stand-in for SHA-256 with the same interface: the context is the
    message so far, the 32 bytes of the digest are a checksum of it. *)
Definition checksum (msg : list Z) : list Z :=
  map (fun i => (fold_right Z.add 0 msg + Z.of_nat i) mod 256) (seq 0 32).

(** A stand-in for the signature check: a signature for key [k] starts with
    the byte [k + 1] followed by the first byte of the digest. *)
Definition check_sig (hash : list Z) (hlen : Z) (sig : list Z) (slen : Z)
    (key_id : Z) : Z :=
  if (nth 0 sig 0 =? key_id + 1) && (nth 1 sig 0 =? nth 0 hash 0) then 0 else -1.

Definition key0 : list Z := [10; 20; 30].
Definition key1 : list Z := [40; 50; 60].

Definition primitives : crypto := {|
  sha256_context := list Z;
  sha256_init := [];
  sha256_update := fun c d => c ++ d;
  sha256_finish := checksum;
  verify_sig := check_sig;
  bootutil_keys := [key0; key1]
|}.

(** A flash area with the bytes [bytes]; reads outside fail with [-5], reads
    inside answer [status off len]. *)
Definition flash_of (bytes : list Z) (status : Z -> Z -> Z) : flash_area := {|
  fa_data := fun o => nth (Z.to_nat o) bytes 0;
  fa_status := fun off len =>
    if (0 <=? off) && (off + len <=? Z.of_nat (length bytes))
    then status off len else -5
|}.

Definition healthy (off len : Z) : Z := 0.

(** An image of a four byte header and a four byte body. *)
Definition hdr : image_header :=
  {| ih_load_addr := 0; ih_hdr_size := 4; ih_img_size := 4 |}.

Definition image : list Z := [1; 2; 3; 4; 5; 6; 7; 8].

Definition digest : list Z := checksum image.

Definition tlv (type : Z) (payload : list Z) : list Z :=
  let len := Z.of_nat (length payload) in
  [type; 0; len mod 256; len / 256] ++ payload.

Definition trailer (records : list (list Z)) : list Z :=
  let tot := 4 + Z.of_nat (length (concat records)) in
  [0x07; 0x69; tot mod 256; tot / 256] ++ concat records.

Definition signature (key_id : Z) : list Z :=
  [key_id + 1; nth 0 digest 0] ++ repeat 0 254.

Definition digest_tlv : list Z := tlv 0x10 digest.

(** Digest, key 0, a signature by key 0. *)
Definition signed_image : list Z :=
  image ++ trailer [digest_tlv; tlv 0x01 (checksum key0); tlv 0x20 (signature 0)].

(** Digest, an unknown key with its signature, then key 1 with its
    signature. *)
Definition two_signers_image : list Z :=
  image ++ trailer [digest_tlv;
                    tlv 0x01 (repeat 7 32); tlv 0x20 (signature 5);
                    tlv 0x01 (checksum key1); tlv 0x20 (signature 1)].

(** Digest, key 0, and a signature record of 255 bytes. *)
Definition short_sig_image : list Z :=
  image ++ trailer [digest_tlv; tlv 0x01 (checksum key0); tlv 0x20 (repeat 0 255)].

(** The flash fails, with the driver's [-5], when offset [o] is read.  In
    [signed_image] the digest payload is at offset 16 and the signature
    payload at offset 88. *)
Definition fails_at (o : Z) (off len : Z) : Z :=
  if off =? o then -5 else 0.

(** SRAM for the RAM-loading path: the image bytes from address 0 on. *)
Definition sram (a : Z) : Z := nth (Z.to_nat a) image 0.

(** Digest, then a key-identifier record with an empty payload, then a
    signature by key 0. *)
Definition empty_keyhash_image : list Z :=
  image ++ trailer [digest_tlv; tlv 0x01 []; tlv 0x20 (signature 0)].

(** Digest, a key-identifier record of 33 bytes. *)
Definition long_keyhash_image : list Z :=
  image ++ trailer [digest_tlv; tlv 0x01 (repeat 7 33)].

(** A record of a type the loop does not know, then the digest. *)
Definition unknown_record_image : list Z :=
  image ++ trailer [tlv 0x55 [9; 9; 9]; digest_tlv].

(** The image with a trailer of the wrong magic. *)
Definition bad_magic_image : list Z :=
  image ++ [0x08; 0x69; 40; 0] ++ digest_tlv.

(** The image with a trailer that holds no record. *)
Definition empty_trailer_image : list Z := image ++ trailer [].

(** An image loaded to SRAM at address 0x100, trailer included, and its
    header. *)
Definition loaded_hdr : image_header :=
  {| ih_load_addr := 0x100; ih_hdr_size := 4; ih_img_size := 4 |}.

Definition loaded (bytes : list Z) (a : Z) : Z :=
  if a <? 0x100 then 0 else nth (Z.to_nat (a - 0x100)) bytes 0.

(** The flash area that holds what the SRAM holds from [load] on, and whose
    reads all succeed. *)
Definition mirror (mem : Z -> Z) (load : Z) : flash_area :=
  {| fa_data := fun o => mem (wrap32 (load + o)); fa_status := fun _ _ => 0 |}.

(** A flash area whose only non-zero byte makes the record at offset
    [2^32 - 8] one of an unknown type with a payload of 100 bytes; every read
    succeeds. *)
Definition wrapping_flash : flash_area :=
  {| fa_data := fun o => if o =? 2 ^ 32 - 6 then 100 else 0;
     fa_status := fun _ _ => 0 |}.

(** An image that ends eight bytes below 2^32, and a flash area that holds
    after it a trailer info with the magic and a total length of 7, which
    puts the end of the trailer at [2^32 - 1], and elsewhere records of an
    unknown type with a payload of four bytes at every offset that is 4
    modulo 8; every read succeeds. *)
Definition cycling_hdr : image_header :=
  {| ih_load_addr := 0; ih_hdr_size := 8; ih_img_size := 2 ^ 32 - 16 |}.

Definition cycling_flash : flash_area :=
  {| fa_data := fun o =>
       if o =? 2 ^ 32 - 8 then 0x07
       else if o =? 2 ^ 32 - 7 then 0x69
       else if o =? 2 ^ 32 - 6 then 7
       else if o mod 8 =? 6 then 4
       else 0;
     fa_status := fun _ _ => 0 |}.

End Sample.

(** ** bootutil_check_hash_after_loading *)

Section RamLoading.

Variable F : image_format.
Variable K : crypto.
Variable sram : Z -> Z.

(** [BOOT_TMPBUF_SZ] of bootutil_priv.h (not part of the sources at hand). *)
Variable BOOT_TMPBUF_SZ : Z.

(** [len] bytes of SRAM from the 32 bit address [addr] on: what the load of
    a structure through a pointer to [addr] and [memcmp(_, addr, len)] read. *)
Definition sram_load (addr len : Z) : list Z :=
  read_bytes (fun a => sram (wrap32 a)) addr len.

(** The body of the loop once [tlv] is loaded; it yields [sha256_valid]. *)
Definition loaded_tlv_record (hash : list Z) (load_address off : Z)
    (sha256_valid : Z) (tlv : image_tlv) : M Z :=
  let tlv_sz := sizeof_tlv F in
  if it_type tlv =? IMAGE_TLV_SHA256 F then
    if negb (it_len tlv =? 32) then c_return (-1) else
    if negb (memcmp hash (sram_load (wrap32 (load_address + off + tlv_sz)) 32) 32
             =? 0)
    then c_return (-1)
    else ret 1
  else ret sha256_valid.

(** [for (; off < end; off += sizeof(tlv) + tlv.it_len)] of the RAM check,
    entered at [off]; it yields [sha256_valid] at loop exit. *)
Fixpoint loaded_tlv_loop (fuel : nat) (hash : list Z) (load_address end_ : Z)
    (off sha256_valid : Z) : M Z :=
  match fuel with
  | O => out_of_fuel
  | S fuel' =>
      if off <? end_ then
        let tlv := load_tlv F (sram_load (wrap32 (load_address + off)) (sizeof_tlv F)) in
        sha256_valid <- loaded_tlv_record hash load_address off sha256_valid tlv ;;
        loaded_tlv_loop fuel' hash load_address end_
          (wrap32 (off + (sizeof_tlv F + it_len tlv))) sha256_valid
      else ret sha256_valid
  end.

Definition bootutil_check_hash_after_loading (fuel : nat) (hdr : image_header)
  : M Z :=
  '(rc, hash) <- bootutil_img_hash K sram fuel hdr None BOOT_TMPBUF_SZ
                   (repeat 0 32) None 0 ;;
  if negb (rc =? 0) then c_return rc else
  let load_address := wrap32 (ih_load_addr hdr) in
  let off := wrap32 (ih_img_size hdr + ih_hdr_size hdr) in
  let info := load_info F (sram_load (wrap32 (load_address + off)) (sizeof_info F)) in
  if negb (it_magic info =? IMAGE_TLV_INFO_MAGIC F) then c_return (-1) else
  let end_ := wrap32 (off + it_tlv_tot info) in
  let off := wrap32 (off + sizeof_info F) in
  sha256_valid <- loaded_tlv_loop fuel hash load_address end_ off 0 ;;
  if sha256_valid =? 0 then c_return (-1) else c_return 0.

End RamLoading.

(** ** What the two walks are expected to visit *)

(** The offsets of the records a walk from [off] visits before it reaches
    [end_], each record telling where the next one starts; [None] when the
    budget does not suffice. *)
Fixpoint record_offsets (fuel : nat) (next : Z -> Z) (end_ off : Z)
  : option (list Z) :=
  match fuel with
  | O => None
  | S fuel' =>
      if off <? end_ then
        match record_offsets fuel' next end_ (next off) with
        | Some l => Some (off :: l)
        | None => None
        end
      else Some []
  end.

(** The record header the SRAM holds at offset [o] of the image loaded at
    [load], and the start of the record after it. *)
Definition loaded_tlv_at (F : image_format) (sram : Z -> Z) (load o : Z)
  : image_tlv :=
  load_tlv F (sram_load sram (wrap32 (load + o)) (sizeof_tlv F)).

Definition loaded_next_off (F : image_format) (sram : Z -> Z) (load o : Z) : Z :=
  wrap32 (o + (sizeof_tlv F + it_len (loaded_tlv_at F sram load o))).

(** The record at [o] is a digest record of 32 bytes that are those of
    [hash]. *)
Definition loaded_digest_ok (F : image_format) (sram : Z -> Z) (hash : list Z)
    (load o : Z) : bool :=
  (it_len (loaded_tlv_at F sram load o) =? 32) &&
  (memcmp hash (sram_load sram (wrap32 (load + o + sizeof_tlv F)) 32) 32 =? 0).

Definition loaded_is_digest (F : image_format) (sram : Z -> Z) (load o : Z)
  : bool :=
  it_type (loaded_tlv_at F sram load o) =? IMAGE_TLV_SHA256 F.

Definition is_flash_read (c : call) : bool :=
  match c with
  | FlashRead _ _ _ _ => true
  | _ => false
  end.

Definition is_key_call (c : call) : bool :=
  match c with
  | FindKey _ _ _ | VerifySig _ _ _ _ _ _ => true
  | _ => false
  end.

(** The calls the TLV loop makes. *)
Definition is_record_call (c : call) : bool :=
  match c with
  | FlashRead TlvHeader _ _ _ | FlashRead DigestPayload _ _ _
  | FlashRead KeyHashPayload _ _ _ | FlashRead SigPayload _ _ _
  | FindKey _ _ _ | VerifySig _ _ _ _ _ _ => true
  | _ => false
  end.

(** The calls the TLV loop makes when no signature is configured. *)
Definition is_digest_walk_call (c : call) : bool :=
  match c with
  | FlashRead TlvHeader _ _ _ | FlashRead DigestPayload _ _ _ => true
  | _ => false
  end.

Definition is_out_hash (c : call) : bool :=
  match c with
  | OutHash _ => true
  | _ => false
  end.

(** The calls made up to and including the read of the trailer info, when
    the digest came out as [hash] after the calls [th]. *)
Definition prologue_calls (F : image_format) (hdr : image_header)
    (fap : flash_area) (out_hash : bool) (hash : list Z) (th : list call)
  : list call :=
  let off := wrap32 (ih_img_size hdr + ih_hdr_size hdr) in
  (if out_hash then th ++ [OutHash hash] else th)
  ++ [FlashRead TlvInfo off (sizeof_info F) (fa_status fap off (sizeof_info F))].

(** The trailer info the flash holds after the image. *)
Definition info_at (F : image_format) (hdr : image_header) (fap : flash_area)
  : image_tlv_info :=
  load_info F (read_bytes (fa_data fap)
                 (wrap32 (ih_img_size hdr + ih_hdr_size hdr)) (sizeof_info F)).

(** The function returned [rc] right after a flash read of the trailer that
    failed with [rc]. *)
Definition returned_read_failure (rc : Z) (t : list call) : Prop :=
  exists pre s o l,
    t = pre ++ [FlashRead s o l rc] /\ rc <> 0 /\
    (s = TlvInfo \/ s = TlvHeader \/ s = DigestPayload \/ s = KeyHashPayload).

(** ** What acceptance rests on, record by record *)

(** Key [k] is the first key of the table whose SHA-256 digest starts with
    the [len] bytes of [keyhash]. *)
Definition first_match (K : crypto) (keyhash : list Z) (len k : Z) : Prop :=
  0 <= k < bootutil_key_cnt K /\
  memcmp (sha256 K (nth (Z.to_nat k) (bootutil_keys K) [])) keyhash
         (Z.to_nat len) = 0 /\
  forall j, 0 <= j < k ->
    memcmp (sha256 K (nth (Z.to_nat j) (bootutil_keys K) [])) keyhash
           (Z.to_nat len) <> 0.

(** The calls made for the digest record at [o] whose payload is read. *)
Definition digest_calls (F : image_format) (o : Z) : list call :=
  [header_read F o; FlashRead DigestPayload (payload_off F o) 32 0].

(** The calls made for the key-identifier record at [o] when the lookup of
    its payload answers [k]. *)
Definition keyhash_calls (F : image_format) (fap : flash_area) (o k : Z)
  : list call :=
  [header_read F o;
   FlashRead KeyHashPayload (payload_off F o) (it_len (tlv_at F fap o)) 0;
   FindKey (payload_at F fap o) (wrap8 (it_len (tlv_at F fap o))) k].

(** The calls made for the signature record at [o] when its 256 bytes are
    accepted as a signature of [hash] by key [k]. *)
Definition sig_calls (F : image_format) (fap : flash_area) (hash : list Z)
    (o k : Z) : list call :=
  [header_read F o;
   FlashRead SigPayload (payload_off F o) 256 0;
   VerifySig hash 32 (payload_at F fap o) 256 k 0].

(** A digest record was seen whose 32 byte payload is [hash]. *)
Definition digest_record_seen (F : image_format) (fap : flash_area)
    (hash : list Z) (t : list call) : Prop :=
  exists o t1 t2,
    t = t1 ++ digest_calls F o ++ t2 /\
    it_type (tlv_at F fap o) = IMAGE_TLV_SHA256 F /\
    it_len (tlv_at F fap o) = 32 /\
    forall i, (i < 32)%nat -> nth i hash 0 = nth i (payload_at F fap o) 0.

(** The key-identifier record at [o] matched key [k], its first match in the
    table, and no key was looked up and no signature checked since. *)
Definition key_matched (F : image_format) (K : crypto) (fap : flash_area)
    (o k : Z) (t : list call) : Prop :=
  it_type (tlv_at F fap o) <> IMAGE_TLV_SHA256 F /\
  it_type (tlv_at F fap o) = IMAGE_TLV_KEYHASH F /\
  it_len (tlv_at F fap o) <= 32 /\
  first_match K (payload_at F fap o) (wrap8 (it_len (tlv_at F fap o))) k /\
  exists t1 t2,
    t = t1 ++ keyhash_calls F fap o k ++ t2 /\
    existsb is_key_call t2 = false.

(** A signature record of 256 bytes was seen that the signature primitive
    accepts as a signature of [hash] by the key matched before it. *)
Definition signature_verified (F : image_format) (K : crypto)
    (fap : flash_area) (hash : list Z) (t : list call) : Prop :=
  exists o_key o_sig k t1 t2,
    t = t1 ++ sig_calls F fap hash o_sig k ++ t2 /\
    key_matched F K fap o_key k t1 /\
    it_type (tlv_at F fap o_sig) <> IMAGE_TLV_SHA256 F /\
    it_type (tlv_at F fap o_sig) <> IMAGE_TLV_KEYHASH F /\
    it_type (tlv_at F fap o_sig) = EXPECTED_SIG_TLV F /\
    it_len (tlv_at F fap o_sig) = 256 /\
    verify_sig K hash 32 (payload_at F fap o_sig) 256 k = 0.

(** The conditions of acceptance: the digest was computed as [hash], the
    traversal of the trailer reached its end, a digest record carried [hash]
    and, when signatures are configured, a signature record was verified
    against a matched key. *)
Definition accepted (F : image_format) (K : crypto) (MCUBOOT_SIGN_RSA : bool)
    (sram : Z -> Z) (fuel : nat) (hdr : image_header) (fap : flash_area)
    (tmp_buf_sz : Z) (seed : option (list Z)) (seed_len : Z) (out_hash : bool)
  : Prop :=
  exists hash st t t0,
    bootutil_img_hash K sram fuel hdr (Some fap) tmp_buf_sz (repeat 0 32)
      seed seed_len [] = (Val (0, hash), t0) /\
    img_validate_scan F K MCUBOOT_SIGN_RSA sram fuel hdr fap tmp_buf_sz
      seed seed_len out_hash [] = (Val (hash, st), t) /\
    digest_record_seen F fap hash t /\
    (MCUBOOT_SIGN_RSA = true -> signature_verified F K fap hash t).

(** What the flags and the pending key stand for at the head of each turn of
    the loop. *)
Record scan_faithful (F : image_format) (K : crypto) (fap : flash_area)
    (hash : list Z) (st : vstate) (t : list call) : Prop := {
  sf_digest : sha256_valid st = 0 \/ digest_record_seen F fap hash t;
  sf_signature : valid_signature st = 0 \/ signature_verified F K fap hash t;
  sf_key : key_id st = -1 \/ exists o, key_matched F K fap o (key_id st) t
}.
(** * Proofs *)

(** ** Arithmetic and byte ranges *)

Lemma wrap32_small : forall x, 0 <= x < 2 ^ 32 -> wrap32 x = x.
Proof. intros x H. unfold wrap32. apply Z.mod_small. exact H. Qed.

Lemma wrap32_range : forall x, 0 <= wrap32 x < 2 ^ 32.
Proof. intros x. unfold wrap32. apply Z.mod_pos_bound. lia. Qed.

Lemma wrap32_add_l : forall a b, wrap32 (wrap32 a + b) = wrap32 (a + b).
Proof. intros a b. unfold wrap32. apply Z.add_mod_idemp_l. lia. Qed.

Lemma read_bytes_length : forall f off len,
  length (read_bytes f off len) = Z.to_nat len.
Proof. intros. unfold read_bytes. rewrite length_map, length_seq. reflexivity. Qed.

Lemma read_bytes_nil : forall f off len, len <= 0 -> read_bytes f off len = [].
Proof.
  intros f off len H. unfold read_bytes.
  replace (Z.to_nat len) with O by lia. reflexivity.
Qed.

Lemma map_seq_from : forall (g : nat -> Z) n a k,
  map g (seq (a + k) n) = map (fun i => g (i + k)%nat) (seq a n).
Proof.
  intros g n. induction n as [|n IH]; intros a k; simpl.
  - reflexivity.
  - f_equal. apply (IH (S a) k).
Qed.

Lemma read_bytes_app : forall f off n m,
  0 <= n -> 0 <= m ->
  read_bytes f off (n + m) = read_bytes f off n ++ read_bytes f (off + n) m.
Proof.
  intros f off n m Hn Hm. unfold read_bytes.
  rewrite Z2Nat.inj_add by assumption.
  rewrite seq_app, map_app. f_equal.
  rewrite (map_seq_from _ (Z.to_nat m) 0%nat (Z.to_nat n)).
  apply map_ext. intros i. f_equal. lia.
Qed.

Lemma read_bytes_ext : forall f g off len,
  (forall o, f o = g o) -> read_bytes f off len = read_bytes g off len.
Proof. intros. unfold read_bytes. apply map_ext. intros. apply H. Qed.

(** One block less to go is one turn less. *)
Lemma ceil_div_step : forall n cap,
  1 <= cap -> 0 < n ->
  ceil_div (n - Z.min n cap) cap + 1 = ceil_div n cap.
Proof.
  intros n cap Hcap Hn. unfold ceil_div.
  destruct (Z_le_gt_dec cap n) as [Hbig|Hsmall].
  - rewrite Z.min_r by lia.
    replace (n + cap - 1) with (n - cap + cap - 1 + 1 * cap) by lia.
    rewrite Z.div_add by lia. reflexivity.
  - rewrite Z.min_l by lia.
    replace (n - n + cap - 1) with (cap - 1) by lia.
    rewrite (Z.div_small (cap - 1)) by lia.
    rewrite <- (Z.div_unique (n + cap - 1) cap 1 (n - 1)); lia.
Qed.

(** ** The monad *)

Ltac munfold :=
  unfold bind, ret, c_return, out_of_fuel, emit, returned.

(** ** bootutil_img_hash *)

Section HashProofs.

Variable K : crypto.
Variable sram : Z -> Z.
Variable hdr : image_header.
Variable fap : option flash_area.
Variable tmp_buf_sz size : Z.

Local Abbreviation hash_loop fuel :=
  (img_hash_loop K sram fuel hdr fap tmp_buf_sz size).
Local Abbreviation src := (image_byte sram hdr fap).

Local Abbreviation blocks_data := (blocks_data sram hdr fap).

(** What a block read answers. *)
Lemma read_block_eq : forall off blk t,
  read_block sram hdr fap off blk t =
  match fap with
  | None => (Val (read_bytes src off blk),
             t ++ [MemCopy (wrap32 (ih_load_addr hdr + off)) blk])
  | Some fa =>
      if fa_status fa off blk =? 0
      then (Val (read_bytes src off blk), t ++ [FlashRead ImageBlock off blk 0])
      else (Return (-1), t ++ [FlashRead ImageBlock off blk (fa_status fa off blk)])
  end.
Proof.
  intros off blk t. unfold read_block, flash_area_read. munfold.
  destruct fap as [fa|]; simpl.
  - destruct (fa_status fa off blk =? 0) eqn:E; [|reflexivity].
    apply Z.eqb_eq in E. rewrite E. reflexivity.
  - f_equal. f_equal. unfold read_bytes. apply map_ext. intros i.
    simpl. rewrite wrap32_add_l, Z.add_assoc. reflexivity.
Qed.

(** The block size the loop picks at [off]. *)
Lemma blk_sz_eq : forall off,
  0 <= off < size -> size < 2 ^ 32 ->
  (if wrap32 (size - off) >? tmp_buf_sz then tmp_buf_sz else wrap32 (size - off))
  = Z.min (size - off) tmp_buf_sz.
Proof.
  intros off H1 H2. rewrite wrap32_small by lia.
  destruct (size - off >? tmp_buf_sz) eqn:E; lia.
Qed.

Lemma block_reads_app : forall t1 t2,
  block_reads (t1 ++ t2) = (block_reads t1 + block_reads t2)%nat.
Proof.
  induction t1 as [|c t1 IH]; intros t2; simpl.
  - reflexivity.
  - destruct c as [s ? ? ?| | | | |]; try apply IH.
    + destruct s; simpl; rewrite ?IH; reflexivity.
    + rewrite IH. reflexivity.
Qed.

(** A block read either delivers the bytes of the block, or is a flash read
    that failed. *)
Lemma read_block_cases : forall off blk t,
  (exists c,
     read_block sram hdr fap off blk t = (Val (read_bytes src off blk), t ++ [c]) /\
     block_calls sram hdr fap (off, blk) = [c; Sha256Update (read_bytes src off blk)] /\
     block_reads [c] = 1%nat /\
     (forall fa, fap = Some fa -> fa_status fa off blk = 0))
  \/
  (exists fa c,
     fap = Some fa /\ fa_status fa off blk <> 0 /\
     read_block sram hdr fap off blk t = (Return (-1), t ++ [c]) /\
     block_reads [c] = 1%nat).
Proof.
  intros off blk t. rewrite read_block_eq. unfold block_calls. simpl fst. simpl snd.
  destruct fap as [fa|].
  - destruct (fa_status fa off blk =? 0) eqn:E.
    + left. eexists. repeat split.
      intros fa' Hfa. inversion Hfa; subst. apply Z.eqb_eq. exact E.
    + right. exists fa. eexists. repeat split.
      apply Z.eqb_neq. exact E.
  - left. eexists. repeat split. intros fa Hfa. discriminate.
Qed.

(** Whenever the loop runs to its end, it has read the blocks of the extent,
    in order, and fed each one to the digest. *)
Lemma img_hash_loop_val : forall fuel off ctx t ctx' t',
  0 <= tmp_buf_sz -> 0 <= off -> size < 2 ^ 32 ->
  hash_loop fuel off ctx t = (Val ctx', t') ->
  exists bl,
    blocks tmp_buf_sz size off bl /\
    ctx' = fold_left (sha256_update K) (blocks_data bl) ctx /\
    t' = t ++ flat_map (block_calls sram hdr fap) bl.
Proof.
  induction fuel as [|fuel IH]; intros off ctx t ctx' t' Hcap Hoff Hsz Hrun.
  - discriminate.
  - simpl in Hrun. destruct (off <? size) eqn:Elt.
    + apply Z.ltb_lt in Elt.
      rewrite blk_sz_eq in Hrun by lia.
      set (blk := Z.min (size - off) tmp_buf_sz) in *.
      assert (Hblk : 0 <= blk <= size - off) by (unfold blk; lia).
      unfold bind at 1 in Hrun.
      destruct (read_block_cases off blk t)
        as [[c [Hrd [Hcalls _]]] | [fa [c [_ [_ [Hrd _]]]]]];
        rewrite Hrd in Hrun; [|discriminate].
      unfold bootutil_sha256_update, bind, emit, ret in Hrun.
      rewrite wrap32_small in Hrun by lia.
      apply IH in Hrun; try lia.
      destruct Hrun as [bl [Hbl [Hctx Ht]]].
      destruct (Z.eq_dec blk 0) as [Hz|Hnz].
      * (* the offset did not move: the loop is where it was *)
        exfalso. rewrite Hz, Z.add_0_r in Hbl. clear - Hbl Hz Elt. unfold blk in Hz.
        inversion Hbl; subst; lia.
      * exists ((off, blk) :: bl). split; [|split].
        -- apply blocks_step; [lia | unfold blk in *; lia | exact Hbl].
        -- exact Hctx.
        -- rewrite Ht. simpl flat_map. rewrite Hcalls.
           rewrite <- !app_assoc. reflexivity.
    + apply Z.ltb_ge in Elt. unfold ret in Hrun. inversion Hrun; subst.
      exists []. split; [|split].
      * apply blocks_done. exact Elt.
      * reflexivity.
      * simpl. rewrite app_nil_r. reflexivity.
Qed.

(** The blocks of an extent, put end to end, are the extent. *)
Lemma blocks_concat : forall off bl,
  blocks tmp_buf_sz size off bl ->
  concat (blocks_data bl) = read_bytes src off (size - off).
Proof.
  intros off bl H. induction H as [off Hge | off bl Hlt Hpos Hbl IH].
  - simpl. symmetry. apply read_bytes_nil. lia.
  - simpl. rewrite IH.
    rewrite <- read_bytes_app by lia. f_equal. lia.
Qed.

(** Offsets go up strictly, and no block is empty or larger than the buffer. *)
Lemma blocks_sorted : forall off bl,
  blocks tmp_buf_sz size off bl ->
  Forall (fun b => off <= fst b /\ 0 < snd b <= tmp_buf_sz /\ fst b + snd b <= size) bl
  /\ StronglySorted Z.lt (map fst bl).
Proof.
  intros off bl H. induction H as [off Hge | off bl Hlt Hpos Hbl [IH1 IH2]].
  - split; constructor.
  - set (n := Z.min (size - off) tmp_buf_sz) in *. split.
    + constructor.
      * simpl. unfold n. lia.
      * eapply Forall_impl; [|exact IH1]. simpl. intros b Hb. lia.
    + simpl. constructor; [exact IH2|].
      apply Forall_map. eapply Forall_impl; [|exact IH1].
      simpl. intros b Hb. lia.
Qed.

(** There are [ceil (extent / buffer)] of them. *)
Lemma blocks_length : forall off bl,
  1 <= tmp_buf_sz -> off <= size ->
  blocks tmp_buf_sz size off bl ->
  Z.of_nat (length bl) = ceil_div (size - off) tmp_buf_sz.
Proof.
  intros off bl Hcap Hle H. induction H as [off Hge | off bl Hlt Hpos Hbl IH].
  - simpl. unfold ceil_div. symmetry. apply Z.div_small. lia.
  - simpl length. rewrite Nat2Z.inj_succ, IH by lia.
    rewrite <- (ceil_div_step (size - off) tmp_buf_sz) by lia.
    unfold Z.succ. f_equal. f_equal. lia.
Qed.

(** With a buffer of at least one byte the loop ends within
    [ceil (extent / buffer)] turns, by a failed read or at the end of the
    extent; when the reads succeed, at the end of the extent. *)
Lemma img_hash_loop_terminates : forall fuel off ctx t,
  1 <= tmp_buf_sz -> 0 <= off <= size -> size < 2 ^ 32 ->
  size - off <= Z.of_nat fuel * tmp_buf_sz ->
  exists o t',
    hash_loop (S fuel) off ctx t = (o, t ++ t') /\
    o <> Fuel /\
    Z.of_nat (block_reads t') <= ceil_div (size - off) tmp_buf_sz /\
    ((forall fa o l, fap = Some fa -> off <= o -> 0 < l -> o + l <= size ->
        fa_status fa o l = 0) ->
     exists ctx', o = Val ctx').
Proof.
  induction fuel as [|fuel IH]; intros off ctx t Hcap Hoff Hsz Hfuel.
  - assert (off = size) by lia. subst off. simpl.
    rewrite Z.ltb_irrefl. exists (Val ctx), []. rewrite app_nil_r.
    split; [reflexivity|]. split; [discriminate|]. split.
    + simpl. unfold ceil_div. apply Z.div_pos; lia.
    + intros _. eexists. reflexivity.
  - remember (S fuel) as n eqn:En. simpl. destruct (off <? size) eqn:Elt.
    + apply Z.ltb_lt in Elt. rewrite blk_sz_eq by lia.
      set (blk := Z.min (size - off) tmp_buf_sz).
      assert (Hblk : 0 < blk <= size - off) by (unfold blk; lia).
      assert (Hceil : ceil_div (size - (off + blk)) tmp_buf_sz + 1
                      = ceil_div (size - off) tmp_buf_sz).
      { rewrite <- (ceil_div_step (size - off) tmp_buf_sz) by lia.
        unfold blk. f_equal. f_equal. lia. }
      assert (Hnext : size - (off + blk) <= Z.of_nat fuel * tmp_buf_sz).
      { unfold blk. subst n. rewrite Nat2Z.inj_succ in Hfuel.
        destruct (Z_le_gt_dec tmp_buf_sz (size - off)); nia. }
      assert (Hnn : 0 <= ceil_div (size - (off + blk)) tmp_buf_sz).
      { unfold ceil_div. apply Z.div_pos; lia. }
      unfold bind at 1.
      destruct (read_block_cases off blk t)
        as [[c [Hrd [_ [Hc Hst]]]] | [fa [c [Hfa [Hst [Hrd Hc]]]]]];
        rewrite Hrd.
      * unfold bootutil_sha256_update, bind, emit, ret. cbv beta iota.
        rewrite wrap32_small by lia.
        destruct (IH (off + blk)
                    (sha256_update K ctx (read_bytes src off blk))
                    ((t ++ [c]) ++ [Sha256Update (read_bytes src off blk)]))
          as [o [t' [Hrun [Hne [Hcnt Hok]]]]]; try lia.
        subst n. rewrite Hrun.
        exists o, ([c] ++ [Sha256Update (read_bytes src off blk)] ++ t').
        split; [rewrite <- !app_assoc; reflexivity|].
        split; [exact Hne|]. split.
        -- rewrite block_reads_app, Hc. simpl block_reads.
           rewrite Nat2Z.inj_succ. simpl. lia.
        -- intros Hreads. apply Hok. intros fa' o' l' Hfa Ho Hl Hend.
           apply (Hreads fa' o' l' Hfa); lia.
      * exists (Return (-1)), [c]. split; [reflexivity|].
        split; [discriminate|]. split.
        -- rewrite Hc. lia.
        -- intros Hreads. exfalso. apply Hst.
           apply (Hreads fa off blk Hfa); lia.
    + exists (Val ctx), []. rewrite app_nil_r.
      split; [reflexivity|]. split; [discriminate|]. split.
      * simpl. unfold ceil_div. apply Z.div_pos; lia.
      * intros _. eexists. reflexivity.
Qed.

(** With an empty buffer and something left to hash, the loop reads zero
    bytes at the same offset, turn after turn. *)
Lemma img_hash_loop_stuck : forall fuel off ctx t,
  tmp_buf_sz = 0 -> 0 <= off < size -> size < 2 ^ 32 ->
  (forall fa, fap = Some fa -> fa_status fa off 0 = 0) ->
  hash_loop fuel off ctx t
    = (Fuel, t ++ flat_map (block_calls sram hdr fap) (repeat (off, 0) fuel)).
Proof.
  induction fuel as [|fuel IH]; intros off ctx t Hcap Hoff Hsz Hread.
  - simpl. rewrite app_nil_r. reflexivity.
  - simpl img_hash_loop. destruct (off <? size) eqn:Elt; [|apply Z.ltb_ge in Elt; lia].
    rewrite blk_sz_eq by lia.
    replace (Z.min (size - off) tmp_buf_sz) with 0 by lia.
    rewrite Z.add_0_r, wrap32_small by lia.
    unfold bind at 1.
    destruct (read_block_cases off 0 t)
      as [[c [Hrd [Hcalls _]]] | [fa [c [Hfa [Hst _]]]]].
    + rewrite Hrd. unfold bootutil_sha256_update, bind, emit, ret. cbv beta iota.
      rewrite (IH off _ _ Hcap Hoff Hsz Hread).
      simpl repeat. simpl flat_map.
      rewrite Hcalls. rewrite <- !app_assoc. reflexivity.
    + exfalso. apply Hst. apply Hread. exact Hfa.
Qed.

(** The loop leaves the function early with [-1] only. *)
Lemma img_hash_loop_return : forall fuel off ctx t rc t',
  hash_loop fuel off ctx t = (Return rc, t') -> rc = -1.
Proof.
  induction fuel as [|fuel IH]; intros off ctx t rc t' Hrun; [discriminate|].
  simpl in Hrun. destruct (off <? size); [|discriminate].
  unfold bind at 1 in Hrun.
  match type of Hrun with context [read_block ?m ?h ?p ?o ?b ?t] =>
    destruct (read_block_cases o b t)
      as [[c [Hrd _]] | [fa [c [_ [_ [Hrd _]]]]]]; rewrite Hrd in Hrun
  end.
  - unfold bootutil_sha256_update, bind, emit, ret in Hrun.
    apply IH in Hrun. exact Hrun.
  - inversion Hrun. reflexivity.
Qed.

End HashProofs.

(** The function, as one run of the block loop after the seed. *)
Lemma bootutil_img_hash_eq :
  forall K sram fuel hdr fap tmp_buf_sz hash_result seed seed_len t,
  bootutil_img_hash K sram fuel hdr fap tmp_buf_sz hash_result seed seed_len t =
  match img_hash_loop K sram fuel hdr fap tmp_buf_sz
          (wrap32 (ih_img_size hdr + ih_hdr_size hdr)) 0
          (seeded K seed seed_len) (t ++ seed_calls seed seed_len) with
  | (Val ctx, t') => (Val (0, sha256_finish K ctx), t')
  | (Return rc, t') => (Val (rc, hash_result), t')
  | (Fuel, t') => (Fuel, t')
  end.
Proof.
  intros. unfold bootutil_img_hash, seeded, seed_calls, bootutil_sha256_update.
  unfold bind, returned, ret, emit.
  destruct seed as [s|]; [destruct (seed_len >? 0)|]; rewrite ?app_nil_r;
    match goal with
    | |- context [img_hash_loop ?K ?m ?f ?h ?p ?b ?s ?o ?c ?t] =>
        destruct (img_hash_loop K m f h p b s o c t) as [[ctx|rc|] t']
    end; reflexivity.
Qed.

(** Under the streaming laws, feeding pieces one after the other amounts to
    one update with their concatenation. *)
Lemma fold_update_concat : forall K, sha256_streams K ->
  forall data ctx,
  fold_left (sha256_update K) data ctx = sha256_update K ctx (concat data).
Proof.
  intros K HK data. induction data as [|d data IH]; intros ctx; simpl.
  - symmetry. apply (update_nil K HK).
  - rewrite IH. apply (update_app K HK).
Qed.

Lemma seeded_eq : forall K, sha256_streams K ->
  forall seed seed_len,
  seeded K seed seed_len = sha256_update K (sha256_init K) (seed_bytes seed seed_len).
Proof.
  intros K HK seed seed_len. unfold seeded, seed_bytes.
  destruct seed as [s|]; [destruct (seed_len >? 0)|];
    rewrite ?(update_nil K HK); reflexivity.
Qed.

Lemma ceil_div_covers : forall n cap, 1 <= cap -> n <= ceil_div n cap * cap.
Proof.
  intros n cap Hcap. unfold ceil_div.
  pose proof (Z.div_mod (n + cap - 1) cap ltac:(lia)) as Hd.
  pose proof (Z.mod_pos_bound (n + cap - 1) cap ltac:(lia)) as Hm.
  nia.
Qed.

Lemma ceil_div_nonneg : forall n cap, 1 <= cap -> 0 <= n -> 0 <= ceil_div n cap.
Proof. intros n cap Hcap Hn. unfold ceil_div. apply Z.div_pos; lia. Qed.

(** Whatever the buffer size, a digest that comes out is the
    digest of the seed followed by the extent, read block after block. *)
Lemma bootutil_img_hash_value :
  forall K sram hdr fap hash_result seed seed_len tmp_buf_sz fuel hash t,
  sha256_streams K ->
  0 <= tmp_buf_sz ->
  bootutil_img_hash K sram fuel hdr fap tmp_buf_sz hash_result seed seed_len []
    = (Val (0, hash), t) ->
  let size := wrap32 (ih_img_size hdr + ih_hdr_size hdr) in
  hash = sha256 K (seed_bytes seed seed_len
                   ++ read_bytes (image_byte sram hdr fap) 0 size) /\
  exists bl,
    blocks tmp_buf_sz size 0 bl /\
    t = seed_calls seed seed_len ++ flat_map (block_calls sram hdr fap) bl /\
    StronglySorted Z.lt (map fst bl) /\
    Forall (fun b => 0 < snd b <= tmp_buf_sz) bl.
Proof.
  intros K sram hdr fap hash_result seed seed_len tmp_buf_sz fuel hash t
         HK Hcap Hrun size.
  rewrite bootutil_img_hash_eq in Hrun. fold size in Hrun. simpl app in Hrun.
  destruct (img_hash_loop K sram fuel hdr fap tmp_buf_sz size 0
              (seeded K seed seed_len) (seed_calls seed seed_len))
    as [[ctx|rc|] t'] eqn:Eloop; [| |discriminate].
  - inversion Hrun; subst hash t'. clear Hrun.
    pose proof (wrap32_range (ih_img_size hdr + ih_hdr_size hdr)) as Hsz.
    fold size in Hsz.
    apply img_hash_loop_val in Eloop; try lia.
    destruct Eloop as [bl [Hbl [Hctx Ht]]].
    split.
    + subst ctx. rewrite (fold_update_concat K HK), (blocks_concat sram hdr fap _ _ _ _ Hbl).
      rewrite (seeded_eq K HK), (update_app K HK), Z.sub_0_r. reflexivity.
    + exists bl. destruct (blocks_sorted _ _ _ _ Hbl) as [Hall Hsorted].
      repeat split; try assumption.
      eapply Forall_impl; [|exact Hall]. simpl. intros b Hb. lia.
  - (* a failed read answers -1, not 0 *)
    apply img_hash_loop_return in Eloop. subst rc. discriminate.
Qed.

(** With a buffer of one byte or more and reads that
    succeed over the extent, the digest does come out. *)
Lemma bootutil_img_hash_succeeds :
  forall K sram hdr fap hash_result seed seed_len tmp_buf_sz,
  sha256_streams K ->
  1 <= tmp_buf_sz ->
  let size := wrap32 (ih_img_size hdr + ih_hdr_size hdr) in
  (forall fa o l, fap = Some fa -> 0 <= o -> 0 < l -> o + l <= size ->
     fa_status fa o l = 0) ->
  forall fuel, (Z.to_nat (ceil_div size tmp_buf_sz) < fuel)%nat ->
  exists t,
    bootutil_img_hash K sram fuel hdr fap tmp_buf_sz hash_result seed seed_len []
    = (Val (0, sha256 K (seed_bytes seed seed_len
                         ++ read_bytes (image_byte sram hdr fap) 0 size)), t).
Proof.
  intros K sram hdr fap hash_result seed seed_len tmp_buf_sz HK Hcap size
         Hreads fuel Hfuel.
  pose proof (wrap32_range (ih_img_size hdr + ih_hdr_size hdr)) as Hsz.
  fold size in Hsz.
  destruct fuel as [|fuel]; [lia|].
  destruct (img_hash_loop_terminates K sram hdr fap tmp_buf_sz size fuel 0
              (seeded K seed seed_len) (seed_calls seed seed_len))
    as [o [t' [Hrun [_ [_ Hok]]]]]; try lia.
  { pose proof (ceil_div_covers size tmp_buf_sz Hcap).
    pose proof (ceil_div_nonneg size tmp_buf_sz Hcap). nia. }
  destruct Hok as [ctx Hctx]; [exact Hreads|]. subst o.
  assert (Hwhole :
    bootutil_img_hash K sram (S fuel) hdr fap tmp_buf_sz hash_result seed seed_len []
    = (Val (0, sha256_finish K ctx), seed_calls seed seed_len ++ t')).
  { rewrite bootutil_img_hash_eq. fold size. simpl app. rewrite Hrun. reflexivity. }
  destruct (bootutil_img_hash_value K sram hdr fap hash_result seed seed_len
              tmp_buf_sz (S fuel) _ _ HK ltac:(lia) Hwhole) as [Hhash _].
  fold size in Hhash. rewrite <- Hhash. eexists. exact Hwhole.
Qed.

(** With an empty buffer and a non-empty extent the function never returns:
    whatever the budget, it is spent reading zero bytes at offset 0. *)
Lemma bootutil_img_hash_stuck :
  forall K sram hdr fap hash_result seed seed_len fuel t,
  0 < wrap32 (ih_img_size hdr + ih_hdr_size hdr) ->
  (forall fa, fap = Some fa -> fa_status fa 0 0 = 0) ->
  bootutil_img_hash K sram fuel hdr fap 0 hash_result seed seed_len t
  = (Fuel, t ++ seed_calls seed seed_len
           ++ flat_map (block_calls sram hdr fap) (repeat (0, 0) fuel)).
Proof.
  intros K sram hdr fap hash_result seed seed_len fuel t Hpos Hread.
  pose proof (wrap32_range (ih_img_size hdr + ih_hdr_size hdr)) as Hsz.
  rewrite bootutil_img_hash_eq.
  rewrite (img_hash_loop_stuck K sram hdr fap 0
             (wrap32 (ih_img_size hdr + ih_hdr_size hdr)) fuel 0
             (seeded K seed seed_len) (t ++ seed_calls seed seed_len)
             eq_refl ltac:(lia) ltac:(lia) Hread).
  rewrite <- app_assoc. reflexivity.
Qed.

(** C2, as the code has it.  With a buffer of one byte or more and reads
    that succeed over the extent, [bootutil_img_hash] returns 0 with the
    SHA-256 digest of the seed bytes (a non-null seed of positive length
    only) followed by the [ih_img_size + ih_hdr_size] bytes (a [uint32_t]
    sum) of the image from offset 0 on, read in blocks of at most
    [tmp_buf_sz] bytes at strictly increasing offsets, each fed to the digest
    before the next read, the last block being the shorter remainder; the
    digest is the same for every buffer size. *)
Theorem bootutil_img_hash_digest :
  forall K sram hdr fap hash_result seed seed_len,
  sha256_streams K ->
  let size := wrap32 (ih_img_size hdr + ih_hdr_size hdr) in
  let digest := sha256 K (seed_bytes seed seed_len
                          ++ read_bytes (image_byte sram hdr fap) 0 size) in
  (forall tmp_buf_sz,
     1 <= tmp_buf_sz ->
     (forall fa o l, fap = Some fa -> 0 <= o -> 0 < l -> o + l <= size ->
        fa_status fa o l = 0) ->
     forall fuel, (Z.to_nat (ceil_div size tmp_buf_sz) < fuel)%nat ->
     exists bl,
       bootutil_img_hash K sram fuel hdr fap tmp_buf_sz hash_result seed seed_len []
       = (Val (0, digest),
          seed_calls seed seed_len ++ flat_map (block_calls sram hdr fap) bl) /\
       blocks tmp_buf_sz size 0 bl /\
       StronglySorted Z.lt (map fst bl) /\
       Forall (fun b => 0 < snd b <= tmp_buf_sz) bl) /\
  (forall sz1 sz2 fuel1 fuel2 hash1 hash2 t1 t2,
     0 <= sz1 -> 0 <= sz2 ->
     bootutil_img_hash K sram fuel1 hdr fap sz1 hash_result seed seed_len []
       = (Val (0, hash1), t1) ->
     bootutil_img_hash K sram fuel2 hdr fap sz2 hash_result seed seed_len []
       = (Val (0, hash2), t2) ->
     hash1 = hash2).
Proof.
  intros K sram hdr fap hash_result seed seed_len HK size digest.
  split.
  - intros tmp_buf_sz Hcap Hreads fuel Hfuel.
    destruct (bootutil_img_hash_succeeds K sram hdr fap hash_result seed seed_len
                tmp_buf_sz HK Hcap Hreads fuel Hfuel) as [t Hrun].
    destruct (bootutil_img_hash_value K sram hdr fap hash_result seed seed_len
                tmp_buf_sz fuel _ t HK ltac:(lia) Hrun)
      as [_ [bl [Hbl [Ht [Hsorted Hlen]]]]].
    exists bl. subst t. repeat split; assumption.
  - intros sz1 sz2 fuel1 fuel2 hash1 hash2 t1 t2 H1 H2 Hrun1 Hrun2.
    destruct (bootutil_img_hash_value K sram hdr fap hash_result seed seed_len
                sz1 fuel1 hash1 t1 HK H1 Hrun1) as [E1 _].
    destruct (bootutil_img_hash_value K sram hdr fap hash_result seed seed_len
                sz2 fuel2 hash2 t2 HK H2 Hrun2) as [E2 _].
    rewrite E1, E2. reflexivity.
Qed.

Lemma sample_streams : sha256_streams Sample.primitives.
Proof.
  split; simpl; intros.
  - apply app_nil_r.
  - symmetry. apply app_assoc.
Qed.

(** Reads inside a healthy sample flash succeed. *)
Lemma sample_reads_ok : forall bytes o l,
  0 <= o -> o + l <= Z.of_nat (length bytes) ->
  fa_status (Sample.flash_of bytes Sample.healthy) o l = 0.
Proof.
  intros bytes o l Ho Hl. simpl.
  destruct (0 <=? o) eqn:E1; [|apply Z.leb_gt in E1; lia].
  destruct (o + l <=? Z.of_nat (length bytes)) eqn:E2; [|apply Z.leb_gt in E2; lia].
  reflexivity.
Qed.

Lemma bootutil_img_hash_digest_witness :
  let fap := Some (Sample.flash_of Sample.signed_image Sample.healthy) in
  sha256_streams Sample.primitives /\
  (exists bl,
     bootutil_img_hash Sample.primitives Sample.sram 4 Sample.hdr fap 3 [] None 0 []
     = (Val (0, sha256 Sample.primitives Sample.image),
        flat_map (block_calls Sample.sram Sample.hdr fap) bl) /\
     blocks 3 8 0 bl) /\
  forall hash1 t1,
    bootutil_img_hash Sample.primitives Sample.sram 9 Sample.hdr fap 1 [] None 0 []
      = (Val (0, hash1), t1) ->
    hash1 = Sample.digest.
Proof.
  intros fap.
  destruct (bootutil_img_hash_digest Sample.primitives Sample.sram Sample.hdr
              fap [] None 0 sample_streams) as [Hdigest Hsame].
  split; [exact sample_streams|]. split.
  - destruct (Hdigest 3 ltac:(lia)) with (fuel := 4%nat)
      as [bl [Hrun [Hbl _]]].
    + intros fa o l Hfa Ho Hl Hend. inversion Hfa; subst fa.
      assert (Hsize : wrap32 (ih_img_size Sample.hdr + ih_hdr_size Sample.hdr) = 8)
        by reflexivity.
      assert (Hlen : Z.of_nat (length Sample.signed_image) = 344)
        by (vm_compute; reflexivity).
      rewrite Hsize in Hend. apply sample_reads_ok; [lia|]. rewrite Hlen. lia.
    + vm_compute. lia.
    + exists bl. split; [exact Hrun|exact Hbl].
  - intros hash1 t1 Hrun1.
    apply (Hsame 1 3 9%nat 4%nat hash1 Sample.digest t1
             [FlashRead ImageBlock 0 3 0; Sha256Update [1; 2; 3];
              FlashRead ImageBlock 3 3 0; Sha256Update [4; 5; 6];
              FlashRead ImageBlock 6 2 0; Sha256Update [7; 8]]
             ltac:(lia) ltac:(lia) Hrun1).
    vm_compute. reflexivity.
Defined.

(** C2 as stated fails for the buffer size 0: on the sample image, whose
    extent is 8 bytes, no budget makes [bootutil_img_hash] produce a digest. *)
Lemma bootutil_img_hash_empty_buffer :
  ~ exists fuel hash t,
      bootutil_img_hash Sample.primitives Sample.sram fuel Sample.hdr
        (Some (Sample.flash_of Sample.signed_image Sample.healthy)) 0
        (repeat 0 32) None 0 [] = (Val (0, hash), t).
Proof.
  intros [fuel [hash [t Hrun]]].
  rewrite bootutil_img_hash_stuck in Hrun.
  - discriminate.
  - vm_compute. reflexivity.
  - intros fa Hfa. inversion Hfa. reflexivity.
Qed.

(** With a buffer of one byte or more the function returns, within
    [ceil (extent / buffer)] turns of the loop. *)
Lemma bootutil_img_hash_returns :
  forall K sram hdr fap tmp_buf_sz hash_result seed seed_len fuel t,
  let size := wrap32 (ih_img_size hdr + ih_hdr_size hdr) in
  1 <= tmp_buf_sz ->
  (Z.to_nat (ceil_div size tmp_buf_sz) < fuel)%nat ->
  exists r t',
    bootutil_img_hash K sram fuel hdr fap tmp_buf_sz hash_result seed seed_len t
    = (Val r, t ++ seed_calls seed seed_len ++ t') /\
    Z.of_nat (block_reads t') <= ceil_div size tmp_buf_sz.
Proof.
  intros K sram hdr fap tmp_buf_sz hash_result seed seed_len fuel t size Hcap Hfuel.
  pose proof (wrap32_range (ih_img_size hdr + ih_hdr_size hdr)) as Hsz.
  fold size in Hsz. destruct fuel as [|fuel]; [lia|].
  destruct (img_hash_loop_terminates K sram hdr fap tmp_buf_sz size fuel 0
              (seeded K seed seed_len) (t ++ seed_calls seed seed_len))
    as [o [t' [Hrun [Hne [Hcnt _]]]]]; try lia.
  { pose proof (ceil_div_covers size tmp_buf_sz Hcap).
    pose proof (ceil_div_nonneg size tmp_buf_sz Hcap). nia. }
  rewrite bootutil_img_hash_eq. fold size. rewrite Hrun.
  rewrite Z.sub_0_r in Hcnt. rewrite <- app_assoc.
  destruct o as [ctx|rc|]; [| |congruence]; eexists; exists t'; split;
    try reflexivity; exact Hcnt.
Qed.

(** C9.  With [tmp_buf_sz >= 1] the block loop of [bootutil_img_hash] ends
    after at most [ceil ((ih_hdr_size + ih_img_size) / tmp_buf_sz)] turns and
    the function returns.  The bound on the buffer is needed: with
    [tmp_buf_sz = 0] and a non-empty extent every turn reads zero bytes at
    offset 0 and the function never returns. *)
Theorem bootutil_img_hash_terminates :
  forall K sram hdr fap tmp_buf_sz hash_result seed seed_len,
  let size := wrap32 (ih_img_size hdr + ih_hdr_size hdr) in
  (1 <= tmp_buf_sz ->
   forall fuel t, (Z.to_nat (ceil_div size tmp_buf_sz) < fuel)%nat ->
   exists r t',
     bootutil_img_hash K sram fuel hdr fap tmp_buf_sz hash_result seed seed_len t
     = (Val r, t ++ seed_calls seed seed_len ++ t') /\
     Z.of_nat (block_reads t') <= ceil_div size tmp_buf_sz) /\
  (tmp_buf_sz = 0 -> 0 < size ->
   (forall fa, fap = Some fa -> fa_status fa 0 0 = 0) ->
   forall fuel t,
     bootutil_img_hash K sram fuel hdr fap tmp_buf_sz hash_result seed seed_len t
     = (Fuel, t ++ seed_calls seed seed_len
              ++ flat_map (block_calls sram hdr fap) (repeat (0, 0) fuel))).
Proof.
  intros K sram hdr fap tmp_buf_sz hash_result seed seed_len size.
  pose proof (wrap32_range (ih_img_size hdr + ih_hdr_size hdr)) as Hsz.
  fold size in Hsz. split.
  - intros Hcap fuel t Hfuel.
    exact (bootutil_img_hash_returns K sram hdr fap tmp_buf_sz hash_result
             seed seed_len fuel t Hcap Hfuel).
  - intros Hcap Hpos Hread fuel t. subst tmp_buf_sz.
    exact (bootutil_img_hash_stuck K sram hdr fap hash_result seed seed_len
             fuel t Hpos Hread).
Qed.

Lemma bootutil_img_hash_terminates_witness :
  let fap := Some (Sample.flash_of Sample.signed_image Sample.healthy) in
  (exists r t',
     bootutil_img_hash Sample.primitives Sample.sram 4 Sample.hdr fap 3 [] None 0 []
     = (Val r, t') /\ Z.of_nat (block_reads t') <= 3) /\
  (forall fuel,
     fst (bootutil_img_hash Sample.primitives Sample.sram fuel Sample.hdr fap 0
            [] None 0 []) = Fuel).
Proof.
  intros fap.
  destruct (bootutil_img_hash_terminates Sample.primitives Sample.sram Sample.hdr
              fap 3 [] None 0) as [Hends _].
  destruct (bootutil_img_hash_terminates Sample.primitives Sample.sram Sample.hdr
              fap 0 [] None 0) as [_ Hstuck].
  split.
  - destruct (Hends ltac:(lia) 4%nat [] ltac:(vm_compute; lia))
      as [r [t' [Hrun Hcnt]]].
    exists r, t'. split; [exact Hrun|]. exact Hcnt.
  - intros fuel. rewrite (Hstuck eq_refl).
    + reflexivity.
    + vm_compute. reflexivity.
    + intros fa Hfa. inversion Hfa. reflexivity.
Defined.

(** ** bootutil_img_validate *)

Arguments wrap32 : simpl never.
Arguments memcmp : simpl never.
Arguments read_bytes : simpl never.

Lemma memcmp_zero_iff : forall n a b,
  memcmp a b n = 0 <-> forall i, (i < n)%nat -> nth i a 0 = nth i b 0.
Proof.
  induction n as [|n IH]; intros a b; unfold memcmp; fold memcmp.
  - split; [intros _ i Hi; lia | reflexivity].
  - assert (Hhd : forall l : list Z, hd 0 l = nth 0 l 0) by (intros [|? ?]; reflexivity).
    assert (Htl : forall (l : list Z) i, nth i (tl l) 0 = nth (S i) l 0).
    { intros [|? ?] i; [destruct i|]; reflexivity. }
    cbv zeta. destruct (hd 0 a =? hd 0 b) eqn:E.
    + apply Z.eqb_eq in E. rewrite IH. split.
      * intros H [|i] Hi; [rewrite <- !Hhd; exact E|].
        rewrite <- !Htl. apply H. lia.
      * intros H i Hi. rewrite !Htl. apply H. lia.
    + apply Z.eqb_neq in E. split.
      * intros H. lia.
      * intros H. exfalso. apply E. rewrite !Hhd. apply H. lia.
Qed.

Lemma find_key_from_range : forall K keys i keyhash keyhash_len,
  let r := find_key_from K keys i keyhash keyhash_len in
  r = -1 \/ i <= r < i + Z.of_nat (length keys).
Proof.
  intros K keys. induction keys as [|key keys IH]; intros i keyhash keyhash_len; simpl.
  - left. reflexivity.
  - destruct (memcmp _ keyhash _ =? 0).
    + right. lia.
    + destruct (IH (i + 1) keyhash keyhash_len) as [H|H]; [left; exact H|right; lia].
Qed.

Lemma consume_keys_app : forall t1 t2 p,
  consume_keys (t1 ++ t2) p =
  match consume_keys t1 p with
  | Some p' => consume_keys t2 p'
  | None => None
  end.
Proof.
  induction t1 as [|c t1 IH]; intros t2 p; simpl.
  - reflexivity.
  - destruct c as [| | | | |h hl sg sl k r]; try apply IH.
    destruct p as [k'|]; [|reflexivity].
    destruct (k =? k'); [apply IH|reflexivity].
Qed.

Section ValidateProofs.

Variable F : image_format.
Variable K : crypto.
Variable MCUBOOT_SIGN_RSA : bool.
Variable hash : list Z.
Variable fap : flash_area.

Local Abbreviation record := (tlv_record F K MCUBOOT_SIGN_RSA hash fap).
Local Abbreviation iteration := (tlv_iteration F K MCUBOOT_SIGN_RSA hash fap).
Local Abbreviation loop fuel := (tlv_loop F K MCUBOOT_SIGN_RSA fuel hash fap).

(** One turn of the loop: the header read, then the record. *)
Lemma tlv_iteration_eq : forall st t,
  iteration st t =
  let rc := fa_status fap (off st) (sizeof_tlv F) in
  let t1 := t ++ [FlashRead TlvHeader (off st) (sizeof_tlv F) rc] in
  if rc =? 0 then
    match record st (tlv_at F fap (off st)) t1 with
    | (Val st', t') => (Val (set_off st' (next_off F fap (off st))), t')
    | (Return rc', t') => (Return rc', t')
    | (Fuel, t') => (Fuel, t')
    end
  else (Return rc, t1).
Proof.
  intros st t. unfold tlv_iteration, flash_area_read, bind, emit, ret, c_return.
  cbv zeta. destruct (fa_status fap (off st) (sizeof_tlv F) =? 0); reflexivity.
Qed.

(** The loop, one turn at a time. *)
Lemma tlv_loop_eq : forall fuel end_ st t,
  loop (S fuel) end_ st t =
  if off st <? end_ then
    match iteration st t with
    | (Val st', t') => loop fuel end_ st' t'
    | (Return rc, t') => (Return rc, t')
    | (Fuel, t') => (Fuel, t')
    end
  else (Val st, t).
Proof.
  intros. simpl. unfold bind, ret. destruct (off st <? end_); reflexivity.
Qed.

(** *** The invariant, call by call *)

Lemma signature_confirmed_app : forall t t',
  signature_confirmed K t -> signature_confirmed K (t ++ t').
Proof.
  intros t t' [t1 [t2 [h [hl [sg [sl [k [kh [kl [Ht [Hin Hk]]]]]]]]]]].
  exists t1, (t2 ++ t'), h, hl, sg, sl, k, kh, kl. subst t.
  rewrite <- app_assoc. simpl. auto.
Qed.

Lemma signature_confirmed_verified : forall t,
  signature_confirmed K t -> existsb is_verified t = true.
Proof.
  intros t [t1 [t2 [h [hl [sg [sl [k [kh [kl [Ht _]]]]]]]]]]. subst t.
  rewrite existsb_app. simpl. apply orb_true_r.
Qed.

Lemma trace_ok_quiet : forall t c,
  trace_ok K t -> is_verify c = false ->
  trace_ok K (t ++ [c]).
Proof.
  intros t c [Hc Hv] Hq. split.
  - rewrite consume_keys_app. destruct (consume_keys t None) as [p|]; [|congruence].
    destruct c; simpl; discriminate.
  - apply Forall_app. split; [exact Hv|]. constructor; [|constructor].
    destruct c; simpl; try exact I. discriminate.
Qed.

(** A flash read other than the read of a digest payload. *)
Lemma scan_inv_read : forall st t s o l rc,
  scan_inv K fap hash st t -> s <> DigestPayload ->
  scan_inv K fap hash st (t ++ [FlashRead s o l rc]).
Proof.
  intros st t s o l rc [H1 H2 H3 H4 H5] Hs. split.
  - apply Forall_app. split; [exact H1|]. constructor; [|constructor].
    destruct s; simpl; try exact I. congruence.
  - rewrite existsb_app. simpl. destruct s; try congruence;
      rewrite orb_false_r; exact H2.
  - destruct H3 as [[Hv He]|[Hv Hc]].
    + left. split; [exact Hv|]. rewrite existsb_app, He. reflexivity.
    + right. split; [exact Hv|]. apply signature_confirmed_app. exact Hc.
  - destruct H4 as [Hk|[Hk [Hc [kh [kl Hin]]]]]; [left; exact Hk|right].
    split; [exact Hk|]. split.
    + rewrite consume_keys_app, Hc. reflexivity.
    + exists kh, kl. apply in_or_app. left. exact Hin.
  - apply trace_ok_quiet; [exact H5|reflexivity].
Qed.

(** The read of a digest payload that equals the digest. *)
Lemma scan_inv_digest : forall st t o,
  scan_inv K fap hash st t ->
  memcmp hash (read_bytes (fa_data fap) o 32) 32 = 0 ->
  scan_inv K fap hash (set_sha256_valid st 1)
    (t ++ [FlashRead DigestPayload o 32 0]).
Proof.
  intros st t o [H1 H2 H3 H4 H5] Hm. split; simpl.
  - apply Forall_app. split; [exact H1|]. constructor; [|constructor].
    simpl. split; [reflexivity|]. split; [reflexivity|].
    apply (proj1 (memcmp_zero_iff 32 hash (read_bytes (fa_data fap) o 32))).
    exact Hm.
  - right. split; [reflexivity|]. rewrite existsb_app. simpl. apply orb_true_r.
  - destruct H3 as [[Hv He]|[Hv Hc]].
    + left. split; [exact Hv|]. rewrite existsb_app, He. reflexivity.
    + right. split; [exact Hv|]. apply signature_confirmed_app. exact Hc.
  - destruct H4 as [Hk|[Hk [Hc [kh [kl Hin]]]]]; [left; exact Hk|right].
    split; [exact Hk|]. split.
    + rewrite consume_keys_app, Hc. reflexivity.
    + exists kh, kl. apply in_or_app. left. exact Hin.
  - apply trace_ok_quiet; [exact H5|reflexivity].
Qed.

(** A key lookup. *)
Lemma scan_inv_find_key : forall st t keyhash keyhash_len,
  scan_inv K fap hash st t ->
  let k := find_key_from K (bootutil_keys K) 0 keyhash keyhash_len in
  scan_inv K fap hash (set_key_id st k) (t ++ [FindKey keyhash keyhash_len k]).
Proof.
  intros st t keyhash keyhash_len [H1 H2 H3 H4 [H5 H6]] k. split; simpl.
  - apply Forall_app. split; [exact H1|]. constructor; [exact I|constructor].
  - rewrite existsb_app. simpl. rewrite orb_false_r. exact H2.
  - destruct H3 as [[Hv He]|[Hv Hc]].
    + left. split; [exact Hv|]. rewrite existsb_app, He. reflexivity.
    + right. split; [exact Hv|]. apply signature_confirmed_app. exact Hc.
  - destruct (find_key_from_range K (bootutil_keys K) 0 keyhash keyhash_len)
      as [Hr|Hr]; fold k in Hr; [left; exact Hr|right].
    split; [unfold bootutil_key_cnt; lia|]. split.
    + rewrite consume_keys_app.
      destruct (consume_keys t None) as [p|]; [reflexivity|congruence].
    + exists keyhash, keyhash_len. apply in_or_app. right. left. reflexivity.
  - apply trace_ok_quiet; [split; assumption|reflexivity].
Qed.

(** A signature record that is skipped. *)
Lemma scan_inv_skip : forall st t,
  scan_inv K fap hash st t -> scan_inv K fap hash (set_key_id st (-1)) t.
Proof.
  intros st t [H1 H2 H3 H4 H5]. split; simpl; try assumption.
  left. reflexivity.
Qed.

(** A call of the signature primitive with the pending key. *)
Lemma scan_inv_verify : forall st t h hl sg sl rc,
  scan_inv K fap hash st t ->
  0 <= key_id st < bootutil_key_cnt K ->
  scan_inv K fap hash
    (set_key_id (if rc =? 0 then set_valid_signature st 1 else st) (-1))
    (t ++ [VerifySig h hl sg sl (key_id st) rc]).
Proof.
  intros st t h hl sg sl rc [H1 H2 H3 H4 [H5 H6]] Hk.
  destruct H4 as [Hno|[_ [Hc [kh [kl Hin]]]]]; [lia|].
  split.
  - apply Forall_app. split; [exact H1|]. constructor; [exact I|constructor].
  - rewrite existsb_app. simpl existsb. rewrite orb_false_r.
    destruct (rc =? 0); exact H2.
  - destruct (rc =? 0) eqn:Erc.
    + right. split; [reflexivity|]. apply Z.eqb_eq in Erc. subst rc.
      exists t, [], h, hl, sg, sl, (key_id st), kh, kl. auto.
    + destruct H3 as [[Hv He]|[Hv Hcf]].
      * left. split; [exact Hv|]. rewrite existsb_app, He. simpl.
        rewrite Erc. reflexivity.
      * right. split; [exact Hv|]. apply signature_confirmed_app. exact Hcf.
  - left. reflexivity.
  - split.
    + rewrite consume_keys_app, Hc. simpl. rewrite Z.eqb_refl. discriminate.
    + apply Forall_app. split; [exact H6|]. constructor; [exact Hk|constructor].
Qed.

Lemma scan_inv_verify_ok : forall st t h hl sg sl rc,
  scan_inv K fap hash st t ->
  0 <= key_id st < bootutil_key_cnt K -> rc = 0 ->
  scan_inv K fap hash (set_key_id (set_valid_signature st 1) (-1))
    (t ++ [VerifySig h hl sg sl (key_id st) rc]).
Proof.
  intros st t h hl sg sl rc Hinv Hk Hrc.
  pose proof (scan_inv_verify st t h hl sg sl rc Hinv Hk) as Hv.
  destruct (Z.eqb_spec rc 0); [exact Hv|contradiction].
Qed.

Lemma scan_inv_verify_bad : forall st t h hl sg sl rc,
  scan_inv K fap hash st t ->
  0 <= key_id st < bootutil_key_cnt K -> rc <> 0 ->
  scan_inv K fap hash (set_key_id st (-1))
    (t ++ [VerifySig h hl sg sl (key_id st) rc]).
Proof.
  intros st t h hl sg sl rc Hinv Hk Hrc.
  pose proof (scan_inv_verify st t h hl sg sl rc Hinv Hk) as Hv.
  destruct (Z.eqb_spec rc 0); [contradiction|exact Hv].
Qed.

Lemma scan_inv_set_off : forall st t o,
  scan_inv K fap hash st t -> scan_inv K fap hash (set_off st o) t.
Proof. intros st t o [H1 H2 H3 H4 H5]. split; assumption. Qed.

(** *** The invariant, record by record *)

Ltac split_record H :=
  unfold tlv_record, flash_area_read, bootutil_find_key, bootutil_verify_sig,
    bind, emit, ret, c_return in H;
  cbv beta iota zeta in H;
  repeat match type of H with
         | context [if ?c then _ else _] =>
             let E := fresh "E" in destruct c eqn:E; cbv beta iota zeta in H
         end;
  inversion H; subst; clear H.

Lemma tlv_record_inv : forall st tlv t o t',
  scan_inv K fap hash st t ->
  record st tlv t = (o, t') ->
  trace_ok K t' /\
  (forall st', o = Val st' -> scan_inv K fap hash st' t') /\
  (forall rc, o = Return rc -> rc <> 0) /\
  o <> Fuel.
Proof.
  intros st tlv t o t' Hinv Hrun.
  assert (Hread : forall s o l rc, s <> DigestPayload ->
            scan_inv K fap hash st (t ++ [FlashRead s o l rc]))
    by (intros; apply scan_inv_read; assumption).
  assert (Hquiet : forall s o l rc, trace_ok K (t ++ [FlashRead s o l rc]))
    by (intros; apply trace_ok_quiet; [apply Hinv|reflexivity]).
  pose proof (inv_trace _ _ _ _ _ Hinv) as Htr.
  split_record Hrun;
    (split; [|split; [|split]]);
    try discriminate;
    try (intros ? Heq; inversion Heq; subst; clear Heq);
    try exact Htr; try apply Hquiet; try exact Hinv; try lia.
  all: repeat match goal with
       | H : negb _ = true |- _ => apply negb_true_iff in H
       | H : negb _ = false |- _ => apply negb_false_iff in H
       | H : (_ =? _) = true |- _ => apply Z.eqb_eq in H
       | H : (_ =? _) = false |- _ => apply Z.eqb_neq in H
       | H : _ || _ = false |- _ => apply orb_false_iff in H; destruct H
       | H : (_ <? _) = false |- _ => apply Z.ltb_ge in H
       | H : (_ >=? _) = false |- _ => rewrite Z.geb_leb in H; apply Z.leb_gt in H
       end.
  all: try assumption.
  - (* the digest payload is the digest *)
    match goal with H : fa_status _ _ _ = 0 |- _ => rewrite H end.
    apply scan_inv_digest; assumption.
  - (* a key lookup *)
    eapply inv_trace. apply scan_inv_find_key. apply Hread. discriminate.
  - apply scan_inv_find_key. apply Hread. discriminate.
  - (* a signature without a pending key *)
    apply scan_inv_skip. exact Hinv.
  - (* a signature checked, accepted or not *)
    eapply inv_trace. apply scan_inv_verify_ok;
      [apply Hread; discriminate | lia | assumption].
  - apply scan_inv_verify_ok; [apply Hread; discriminate | lia | assumption].
  - eapply inv_trace. apply scan_inv_verify_bad;
      [apply Hread; discriminate | lia | assumption].
  - apply scan_inv_verify_bad; [apply Hread; discriminate | lia | assumption].
Qed.

(** *** Progress of the loop *)

(** A turn of the loop never runs out of budget; it starts with the header
    read, the only one it makes; and when it goes on it goes on at the offset
    after the record. *)
Lemma tlv_record_trace : forall st tlv t o t',
  record st tlv t = (o, t') ->
  o <> Fuel /\
  (forall st', o = Val st' -> off st' = off st) /\
  exists tail, t' = t ++ tail /\ existsb is_header_read tail = false.
Proof.
  intros st tlv t o t' Hrun.
  split_record Hrun;
    (split; [discriminate|split;
       [intros ? Heq; inversion Heq; subst; try reflexivity|]]);
    try (exists []; rewrite app_nil_r; split; reflexivity);
    try (rewrite <- app_assoc; eexists; split; reflexivity);
    try (eexists; split; reflexivity).
Qed.

Lemma tlv_iteration_next : forall st t o t',
  iteration st t = (o, t') ->
  o <> Fuel /\
  (forall st', o = Val st' ->
     off st' = next_off F fap (off st) /\
     fa_status fap (off st) (sizeof_tlv F) = 0) /\
  exists tail, t' = t ++ FlashRead TlvHeader (off st) (sizeof_tlv F)
                          (fa_status fap (off st) (sizeof_tlv F)) :: tail /\
               existsb is_header_read tail = false.
Proof.
  intros st t o t' Hrun. rewrite tlv_iteration_eq in Hrun. cbv zeta in Hrun.
  destruct (fa_status fap (off st) (sizeof_tlv F) =? 0) eqn:Est.
  - apply Z.eqb_eq in Est.
    destruct (record st (tlv_at F fap (off st)) _) as [o1 t1] eqn:Erec.
    destruct (tlv_record_trace _ _ _ _ _ Erec) as [Hne [Hoff [tail [Ht Htail]]]].
    assert (Htl : exists tail0,
              t1 = t ++ FlashRead TlvHeader (off st) (sizeof_tlv F)
                          (fa_status fap (off st) (sizeof_tlv F)) :: tail0 /\
              existsb is_header_read tail0 = false).
    { exists tail. rewrite Ht, <- app_assoc. split; [reflexivity|exact Htail]. }
    destruct o1 as [st1|rc|]; inversion Hrun; subst; clear Hrun.
    + split; [discriminate|]. split; [|exact Htl].
      intros st' Heq. inversion Heq; subst. split; [reflexivity|exact Est].
    + split; [discriminate|]. split; [discriminate|exact Htl].
    + congruence.
  - inversion Hrun; subst. split; [discriminate|]. split; [discriminate|].
    exists []. split; reflexivity.
Qed.

(** When the record lengths are those of a 16 bit field and the trailer ends
    far enough below 2^32, every turn moves the offset up and the loop ends. *)
Lemma tlv_loop_terminates : forall fuel end_ st t,
  0 < sizeof_tlv F ->
  (forall bytes, 0 <= it_len (load_tlv F bytes) < 2 ^ 16) ->
  end_ + sizeof_tlv F + 2 ^ 16 <= 2 ^ 32 ->
  0 <= off st ->
  end_ - off st <= Z.of_nat fuel ->
  exists o t', loop (S fuel) end_ st t = (o, t') /\ o <> Fuel.
Proof.
  induction fuel as [|fuel IH]; intros end_ st t Hsz Hlen Hend Hoff Hfuel;
    rewrite tlv_loop_eq; destruct (off st <? end_) eqn:Elt;
    try (eexists; eexists; split; [reflexivity|discriminate]).
  - apply Z.ltb_lt in Elt. simpl in Hfuel. lia.
  - apply Z.ltb_lt in Elt.
    destruct (iteration st t) as [o1 t1] eqn:Eit.
    destruct (tlv_iteration_next _ _ _ _ Eit) as [Hne [Hnext _]].
    destruct o1 as [st1|rc|]; [| eexists; eexists; split; [reflexivity|discriminate]
                               | congruence].
    destruct (Hnext st1 eq_refl) as [Hnext1 _]. rename Hnext1 into Hnext'.
    clear Hnext. rename Hnext' into Hnext.
    assert (Hadv : off st1 = off st + (sizeof_tlv F + it_len (tlv_at F fap (off st)))).
    { rewrite Hnext. unfold next_off. apply wrap32_small.
      pose proof (Hlen (read_bytes (fa_data fap) (off st) (sizeof_tlv F))) as Hl.
      unfold tlv_at. lia. }
    pose proof (Hlen (read_bytes (fa_data fap) (off st) (sizeof_tlv F))) as Hl.
    unfold tlv_at in Hadv.
    apply IH; try assumption; lia.
Qed.

(** *** The invariant, turn by turn *)

Lemma tlv_iteration_inv : forall st t o t',
  scan_inv K fap hash st t ->
  iteration st t = (o, t') ->
  trace_ok K t' /\
  (forall st', o = Val st' -> scan_inv K fap hash st' t') /\
  (forall rc, o = Return rc -> rc <> 0) /\
  o <> Fuel.
Proof.
  intros st t o t' Hinv Hrun. rewrite tlv_iteration_eq in Hrun. cbv zeta in Hrun.
  destruct (fa_status fap (off st) (sizeof_tlv F) =? 0) eqn:Est.
  - assert (Hinv1 : scan_inv K fap hash st
              (t ++ [FlashRead TlvHeader (off st) (sizeof_tlv F)
                       (fa_status fap (off st) (sizeof_tlv F))]))
      by (apply scan_inv_read; [exact Hinv|discriminate]).
    destruct (record st (tlv_at F fap (off st)) _) as [o1 t1] eqn:Erec.
    destruct (tlv_record_inv _ _ _ _ _ Hinv1 Erec) as [Htr [Hval [Hret Hfuel]]].
    destruct o1 as [st1|rc|]; inversion Hrun; subst; clear Hrun.
    + split; [exact Htr|]. split; [|split; [discriminate|discriminate]].
      intros st' Heq. inversion Heq; subst.
      apply scan_inv_set_off. apply Hval. reflexivity.
    + split; [exact Htr|]. split; [discriminate|]. split; [|discriminate].
      intros rc' Heq. inversion Heq; subst. apply Hret. reflexivity.
    + congruence.
  - inversion Hrun; subst; clear Hrun. split; [|split; [|split]].
    + apply trace_ok_quiet; [apply Hinv|reflexivity].
    + discriminate.
    + intros rc Heq. inversion Heq; subst. apply Z.eqb_neq. exact Est.
    + discriminate.
Qed.

Lemma tlv_loop_inv : forall fuel end_ st t o t',
  scan_inv K fap hash st t ->
  loop fuel end_ st t = (o, t') ->
  trace_ok K t' /\
  (forall st', o = Val st' -> scan_inv K fap hash st' t' /\ end_ <= off st') /\
  (forall rc, o = Return rc -> rc <> 0).
Proof.
  induction fuel as [|fuel IH]; intros end_ st t o t' Hinv Hrun.
  - inversion Hrun; subst. split; [apply Hinv|]. split; discriminate.
  - rewrite tlv_loop_eq in Hrun. destruct (off st <? end_) eqn:Elt.
    + destruct (iteration st t) as [o1 t1] eqn:Eit.
      destruct (tlv_iteration_inv _ _ _ _ Hinv Eit) as [Htr [Hval [Hret Hfuel]]].
      destruct o1 as [st1|rc|].
      * apply (IH end_ st1 t1); [apply Hval; reflexivity|exact Hrun].
      * inversion Hrun; subst. split; [exact Htr|]. split; [discriminate|].
        intros rc' Heq. inversion Heq; subst. apply Hret. reflexivity.
      * congruence.
    + inversion Hrun; subst. apply Z.ltb_ge in Elt.
      split; [apply Hinv|]. split; [|discriminate].
      intros st' Heq. inversion Heq; subst. split; assumption.
Qed.

(** Before the loop no record has been looked at. *)
Lemma scan_inv_init : forall t o,
  forallb is_prologue t = true ->
  scan_inv K fap hash
    {| off := o; sha256_valid := 0; valid_signature := 0; key_id := -1 |} t.
Proof.
  intros t o Hpro.
  assert (Hall : forall c, In c t -> is_prologue c = true)
    by (apply forallb_forall; exact Hpro).
  assert (Hcons : forall p, consume_keys t p = Some p).
  { clear Hpro. induction t as [|c t IH]; intros p; [reflexivity|].
    assert (Hc : is_prologue c = true) by (apply Hall; left; reflexivity).
    simpl. destruct c as [s ? ? ?| | | | |]; try discriminate Hc;
      apply IH; intros c' Hin; apply Hall; right; exact Hin. }
  split; simpl.
  - apply Forall_forall. intros c Hin. apply Hall in Hin.
    destruct c as [s ? ? ?| | | | |]; try exact I. destruct s; try exact I.
    discriminate.
  - left. split; [reflexivity|]. apply not_true_is_false. intros He.
    apply existsb_exists in He. destruct He as [c [Hin Hc]]. apply Hall in Hin.
    destruct c as [s ? ? ?| | | | |]; try discriminate. destruct s; discriminate.
  - left. split; [reflexivity|]. apply not_true_is_false. intros He.
    apply existsb_exists in He. destruct He as [c [Hin Hc]]. apply Hall in Hin.
    destruct c; discriminate.
  - left. reflexivity.
  - split.
    + rewrite Hcons. discriminate.
    + apply Forall_forall. intros c Hin. apply Hall in Hin.
      destruct c; try exact I. discriminate.
Qed.

End ValidateProofs.

(** The digest computation makes prologue calls only. *)
Lemma img_hash_loop_prologue :
  forall K sram fuel hdr fap tmp_buf_sz size off ctx t o t',
  forallb is_prologue t = true ->
  img_hash_loop K sram fuel hdr fap tmp_buf_sz size off ctx t = (o, t') ->
  forallb is_prologue t' = true.
Proof.
  intros K sram fuel hdr fap tmp_buf_sz size.
  induction fuel as [|fuel IH]; intros off ctx t o t' Hpro Hrun.
  - inversion Hrun; subst. exact Hpro.
  - simpl in Hrun. destruct (off <? size); [|inversion Hrun; subst; exact Hpro].
    unfold bind at 1 in Hrun.
    assert (Hc : forall c, block_reads [c] = 1%nat -> is_prologue c = true).
    { intros c. destruct c as [s ? ? ?| | | | |]; try discriminate; try reflexivity.
      destruct s; try discriminate; reflexivity. }
    match type of Hrun with context [read_block ?m ?h ?p ?o ?b ?t] =>
      destruct (read_block_cases m h p o b t)
        as [[c [Hrd [_ [Hc1 _]]]] | [fa [c [_ [_ [Hrd Hc1]]]]]]; rewrite Hrd in Hrun
    end.
    + unfold bootutil_sha256_update, bind, emit, ret in Hrun.
      apply IH in Hrun; [exact Hrun|].
      rewrite !forallb_app, Hpro. simpl. rewrite (Hc c Hc1). reflexivity.
    + inversion Hrun; subst. rewrite forallb_app, Hpro. simpl.
      rewrite (Hc c Hc1). reflexivity.
Qed.

Lemma bootutil_img_hash_prologue :
  forall K sram fuel hdr fap tmp_buf_sz hash_result seed seed_len t o t',
  forallb is_prologue t = true ->
  bootutil_img_hash K sram fuel hdr fap tmp_buf_sz hash_result seed seed_len t
    = (o, t') ->
  forallb is_prologue t' = true /\
  (forall rc, o <> Return rc) /\
  (forall rc h, o = Val (rc, h) -> rc = 0 \/ rc = -1).
Proof.
  intros K sram fuel hdr fap tmp_buf_sz hash_result seed seed_len t o t' Hpro Hrun.
  rewrite bootutil_img_hash_eq in Hrun.
  destruct (img_hash_loop _ _ _ _ _ _ _ _ _ _) as [o1 t1] eqn:Eloop.
  assert (Hpro1 : forallb is_prologue t1 = true).
  { eapply img_hash_loop_prologue; [|exact Eloop].
    rewrite forallb_app, Hpro. unfold seed_calls.
    destruct seed as [s|]; [destruct (seed_len >? 0)|]; reflexivity. }
  destruct o1 as [ctx|rc|]; inversion Hrun; subst; clear Hrun;
    (split; [exact Hpro1|split; [discriminate|]]); try discriminate.
  - intros rc h Heq. inversion Heq. left. reflexivity.
  - intros rc' h Heq. inversion Heq; subst. right.
    eapply img_hash_loop_return. exact Eloop.
Qed.

(** *** The whole function *)

Lemma prologue_trace_ok : forall K t,
  forallb is_prologue t = true -> trace_ok K t.
Proof.
  intros K t Hpro.
  apply (inv_trace K {| fa_data := fun _ => 0; fa_status := fun _ _ => 0 |} []
           {| off := 0; sha256_valid := 0; valid_signature := 0; key_id := -1 |}).
  apply scan_inv_init. exact Hpro.
Qed.

(** The function up to the end of the loop, step by step. *)
Lemma img_validate_scan_eq :
  forall F K SIGN sram fuel hdr fap tmp_buf_sz seed seed_len out_hash t,
  img_validate_scan F K SIGN sram fuel hdr fap tmp_buf_sz seed seed_len out_hash t =
  match bootutil_img_hash K sram fuel hdr (Some fap) tmp_buf_sz (repeat 0 32)
          seed seed_len t with
  | (Val (rc, hash), th) =>
      if rc =? 0 then
        let t1 := if out_hash then th ++ [OutHash hash] else th in
        let off0 := wrap32 (ih_img_size hdr + ih_hdr_size hdr) in
        let rc_info := fa_status fap off0 (sizeof_info F) in
        let t2 := t1 ++ [FlashRead TlvInfo off0 (sizeof_info F) rc_info] in
        let info := load_info F (read_bytes (fa_data fap) off0 (sizeof_info F)) in
        if rc_info =? 0 then
          if it_magic info =? IMAGE_TLV_INFO_MAGIC F then
            match tlv_loop F K SIGN fuel hash fap (wrap32 (off0 + it_tlv_tot info))
                    {| off := wrap32 (off0 + sizeof_info F); sha256_valid := 0;
                       valid_signature := 0; key_id := -1 |} t2 with
            | (Val st, t') => (Val (hash, st), t')
            | (Return rc', t') => (Return rc', t')
            | (Fuel, t') => (Fuel, t')
            end
          else (Return (-1), t2)
        else (Return rc_info, t2)
      else (Return rc, th)
  | (Return rc, th) => (Return rc, th)
  | (Fuel, th) => (Fuel, th)
  end.
Proof.
  intros. unfold img_validate_scan. unfold bind at 1.
  destruct (bootutil_img_hash _ _ _ _ _ _ _ _ _ _) as [[[rc hash]|rc|] th];
    try reflexivity.
  destruct (rc =? 0); [|reflexivity]. cbv beta iota delta [negb].
  unfold flash_area_read, bind, emit, ret, c_return.
  destruct out_hash; cbv beta iota zeta;
    (destruct (fa_status fap _ (sizeof_info F) =? 0); [|reflexivity]);
    (destruct (it_magic _ =? IMAGE_TLV_INFO_MAGIC F); reflexivity).
Qed.

(** The function up to the end of the loop: the invariant holds when the
    traversal completes, and an early [return] carries a non-zero value. *)
Lemma img_validate_scan_inv :
  forall F K SIGN sram fuel hdr fap tmp_buf_sz seed seed_len out_hash o t,
  img_validate_scan F K SIGN sram fuel hdr fap tmp_buf_sz seed seed_len out_hash []
    = (o, t) ->
  trace_ok K t /\
  (forall hash st, o = Val (hash, st) ->
     scan_inv K fap hash st t /\
     exists t0,
       bootutil_img_hash K sram fuel hdr (Some fap) tmp_buf_sz (repeat 0 32)
         seed seed_len [] = (Val (0, hash), t0)) /\
  (forall rc, o = Return rc -> rc <> 0).
Proof.
  intros F K SIGN sram fuel hdr fap tmp_buf_sz seed seed_len out_hash o t Hrun.
  unfold img_validate_scan in Hrun. unfold bind at 1 in Hrun.
  destruct (bootutil_img_hash K sram fuel hdr (Some fap) tmp_buf_sz
              (repeat 0 32) seed seed_len []) as [oh th] eqn:Eh.
  destruct (bootutil_img_hash_prologue K sram fuel hdr (Some fap) tmp_buf_sz
              (repeat 0 32) seed seed_len [] oh th eq_refl Eh)
    as [Hpro [Hnoret Hrc]].
  destruct oh as [[rc hash]|rc|]; [| exfalso; apply (Hnoret rc); reflexivity |].
  - cbv beta iota in Hrun.
    destruct (rc =? 0) eqn:Erc; cbv beta iota delta [negb] in Hrun.
    + apply Z.eqb_eq in Erc. subst rc.
      set (t1 := if out_hash then th ++ [OutHash hash] else th).
      assert (Hpro1 : forallb is_prologue t1 = true).
      { unfold t1. destruct out_hash; [|exact Hpro].
        rewrite forallb_app, Hpro. reflexivity. }
      assert (Hout : (if out_hash then emit (OutHash hash) else ret tt) th
                     = (Val tt, t1)) by (unfold t1; destruct out_hash; reflexivity).
      cbv beta iota delta [negb] in Hrun.
      unfold bind at 1 in Hrun. rewrite Hout in Hrun.
      unfold flash_area_read, bind, emit, ret, c_return in Hrun.
      cbv beta iota zeta in Hrun.
      set (off0 := wrap32 (ih_img_size hdr + ih_hdr_size hdr)) in *.
      set (t2 := t1 ++ [FlashRead TlvInfo off0 (sizeof_info F)
                          (fa_status fap off0 (sizeof_info F))]) in *.
      assert (Hpro2 : forallb is_prologue t2 = true).
      { unfold t2. rewrite forallb_app, Hpro1. reflexivity. }
      destruct (fa_status fap off0 (sizeof_info F) =? 0) eqn:Einfo;
        cbv beta iota in Hrun.
      * destruct (it_magic _ =? IMAGE_TLV_INFO_MAGIC F); cbv beta iota in Hrun.
        -- match type of Hrun with
           | context [tlv_loop ?F ?K ?S ?f ?h ?p ?e ?s ?t] =>
               destruct (tlv_loop F K S f h p e s t) as [ol tl] eqn:Eloop;
               pose proof (tlv_loop_inv F K S h p f e s t ol tl
                             (scan_inv_init K h p t _ Hpro2) Eloop)
                 as [Htr [Hval Hret]]
           end.
           destruct ol as [st|rc|]; inversion Hrun; subst; clear Hrun.
           ++ split; [exact Htr|]. split; [|discriminate].
              intros h st' Heq. inversion Heq; subst.
              split; [apply Hval; reflexivity|]. exists th. reflexivity.
           ++ split; [exact Htr|]. split; [discriminate|].
              intros rc' Heq. inversion Heq; subst. apply Hret. reflexivity.
           ++ split; [exact Htr|]. split; discriminate.
        -- inversion Hrun; subst. split; [apply prologue_trace_ok; exact Hpro2|].
           split; [discriminate|]. intros rc Heq. inversion Heq; subst. lia.
      * inversion Hrun; subst. split; [apply prologue_trace_ok; exact Hpro2|].
        split; [discriminate|]. intros rc Heq. inversion Heq; subst.
        apply Z.eqb_neq in Einfo. exact Einfo.
    + inversion Hrun; subst. split; [apply prologue_trace_ok; exact Hpro|].
      split; [discriminate|]. intros rc' Heq. inversion Heq; subst.
      apply Z.eqb_neq. exact Erc.
  - inversion Hrun; subst. split; [apply prologue_trace_ok; exact Hpro|].
    split; discriminate.
Qed.

(** The verdict after the loop. *)
Lemma bootutil_img_validate_eq :
  forall F K SIGN sram fuel hdr fap tmp_buf_sz seed seed_len out_hash t,
  bootutil_img_validate F K SIGN sram fuel hdr fap tmp_buf_sz seed seed_len out_hash t =
  match img_validate_scan F K SIGN sram fuel hdr fap tmp_buf_sz seed seed_len
          out_hash t with
  | (Val (_, st), t') =>
      if sha256_valid st =? 0 then (Return (-1), t')
      else if SIGN && (valid_signature st =? 0) then (Return (-1), t')
      else (Return 0, t')
  | (Return rc, t') => (Return rc, t')
  | (Fuel, t') => (Fuel, t')
  end.
Proof.
  intros. unfold bootutil_img_validate, bind, c_return.
  destruct (img_validate_scan _ _ _ _ _ _ _ _ _ _ _ _) as [[[h st]|rc|] t'];
    try reflexivity.
  destruct (sha256_valid st =? 0); [reflexivity|].
  destruct (SIGN && (valid_signature st =? 0)); reflexivity.
Qed.

(** At the end of a completed traversal the two flags say what the calls
    say. *)
Lemma scan_inv_flags : forall K fap hash st t,
  scan_inv K fap hash st t ->
  ((sha256_valid st =? 0) = false <-> digest_confirmed fap hash t) /\
  ((valid_signature st =? 0) = false <-> signature_confirmed K t).
Proof.
  intros K fap hash st t [H1 H2 H3 H4 H5]. split; split.
  - intros Hv. destruct H2 as [[Hz _]|[_ He]]; [rewrite Hz in Hv; discriminate|].
    apply existsb_exists in He. destruct He as [c [Hin Hc]].
    pose proof (proj1 (Forall_forall _ _) H1 c Hin) as Hm.
    destruct c as [s o l rc| | | | |]; try discriminate.
    destruct s; try discriminate. simpl in Hm. destruct Hm as [Hl [Hrc Hm]].
    subst l rc. exists o. split; assumption.
  - intros [o [Hin _]]. destruct H2 as [[_ He]|[Hv _]]; [|rewrite Hv; reflexivity].
    exfalso. apply not_true_iff_false in He. apply He.
    apply existsb_exists. eexists. split; [exact Hin|reflexivity].
  - intros Hv. destruct H3 as [[Hz _]|[_ Hc]]; [rewrite Hz in Hv; discriminate|].
    exact Hc.
  - intros Hc. destruct H3 as [[_ He]|[Hv _]]; [|rewrite Hv; reflexivity].
    rewrite (signature_confirmed_verified K t Hc) in He. discriminate.
Qed.

(** Under the conditions of [tlv_loop_terminates], and with a buffer of one
    byte or more, the function returns. *)
Lemma bootutil_img_validate_returns :
  forall F K SIGN sram fuel hdr fap tmp_buf_sz seed seed_len out_hash,
  let size := wrap32 (ih_img_size hdr + ih_hdr_size hdr) in
  let info := load_info F (read_bytes (fa_data fap) size (sizeof_info F)) in
  let end_ := wrap32 (size + it_tlv_tot info) in
  1 <= tmp_buf_sz ->
  0 < sizeof_tlv F ->
  (forall bytes, 0 <= it_len (load_tlv F bytes) < 2 ^ 16) ->
  end_ + sizeof_tlv F + 2 ^ 16 <= 2 ^ 32 ->
  ceil_div size tmp_buf_sz < Z.of_nat fuel ->
  end_ < Z.of_nat fuel ->
  exists rc t,
    bootutil_img_validate F K SIGN sram fuel hdr fap tmp_buf_sz seed seed_len
      out_hash [] = (Return rc, t).
Proof.
  intros F K SIGN sram fuel hdr fap tmp_buf_sz seed seed_len out_hash
         size info end_ Hcap Hsz Hlen Hend Hfuel1 Hfuel2.
  rewrite bootutil_img_validate_eq, img_validate_scan_eq.
  assert (Hfuel : (Z.to_nat (ceil_div size tmp_buf_sz) < fuel)%nat).
  { pose proof (wrap32_range (size + it_tlv_tot info)) as Hr. fold end_ in Hr. lia. }
  destruct (bootutil_img_hash_returns K sram hdr (Some fap) tmp_buf_sz
              (repeat 0 32) seed seed_len fuel [] Hcap Hfuel)
    as [[rc hash] [th [Hhash _]]].
  rewrite Hhash. destruct (rc =? 0); [|eexists; eexists; reflexivity].
  cbv zeta. fold size. fold info. fold end_.
  destruct (fa_status fap size (sizeof_info F) =? 0);
    [|eexists; eexists; reflexivity].
  destruct (it_magic info =? IMAGE_TLV_INFO_MAGIC F);
    [|eexists; eexists; reflexivity].
  destruct fuel as [|fuel]; [simpl in Hfuel2; unfold end_ in Hfuel2;
    pose proof (wrap32_range (size + it_tlv_tot info)); lia|].
  match goal with
  | |- context [tlv_loop F K SIGN (S fuel) hash fap end_ ?s ?t] =>
      destruct (tlv_loop_terminates F K SIGN hash fap fuel end_ s t Hsz Hlen Hend)
        as [o [t' [Hloop Hne]]]
  end.
  - simpl off. apply wrap32_range.
  - simpl off. pose proof (wrap32_range (size + sizeof_info F)). lia.
  - rewrite Hloop. destruct o as [st|rc'|]; [| |congruence].
    + destruct (sha256_valid st =? 0); [eexists; eexists; reflexivity|].
      destruct (SIGN && (valid_signature st =? 0)); eexists; eexists; reflexivity.
    + eexists; eexists; reflexivity.
Qed.

(** The verdict in terms of the calls made: 0 exactly when the traversal
    completed, a digest payload equal to the digest was read and, when a
    signature algorithm is configured, a signature check answered 0 with a
    key a lookup had found. *)
Lemma bootutil_img_validate_accepts :
  forall F K SIGN sram fuel hdr fap tmp_buf_sz seed seed_len out_hash,
  let result :=
    fst (bootutil_img_validate F K SIGN sram fuel hdr fap tmp_buf_sz seed
           seed_len out_hash []) in
  let size := wrap32 (ih_img_size hdr + ih_hdr_size hdr) in
  let info := load_info F (read_bytes (fa_data fap) size (sizeof_info F)) in
  let end_ := wrap32 (size + it_tlv_tot info) in
  (result = Return 0 <->
   accepts F K SIGN sram fuel hdr fap tmp_buf_sz seed seed_len out_hash) /\
  (forall rc, result = Return rc ->
     ~ accepts F K SIGN sram fuel hdr fap tmp_buf_sz seed seed_len out_hash ->
     rc <> 0) /\
  (forall v, result <> Val v) /\
  (1 <= tmp_buf_sz ->
   0 < sizeof_tlv F ->
   (forall bytes, 0 <= it_len (load_tlv F bytes) < 2 ^ 16) ->
   end_ + sizeof_tlv F + 2 ^ 16 <= 2 ^ 32 ->
   ceil_div size tmp_buf_sz < Z.of_nat fuel ->
   end_ < Z.of_nat fuel ->
   exists rc, result = Return rc).
Proof.
  intros F K SIGN sram fuel hdr fap tmp_buf_sz seed seed_len out_hash
         result size info end_.
  assert (Hiff : result = Return 0 <->
            accepts F K SIGN sram fuel hdr fap tmp_buf_sz seed seed_len out_hash).
  { unfold result, accepts. rewrite bootutil_img_validate_eq.
    destruct (img_validate_scan F K SIGN sram fuel hdr fap tmp_buf_sz seed
                seed_len out_hash []) as [o t] eqn:Escan.
    destruct (img_validate_scan_inv _ _ _ _ _ _ _ _ _ _ _ _ _ Escan)
      as [_ [Hval Hret]].
    destruct o as [[hash st]|rc|].
    - destruct (Hval hash st eq_refl) as [Hinv [t0 Hhash]].
      destruct (scan_inv_flags K fap hash st t Hinv) as [Hsha Hsig].
      split.
      + intros Hres.
        destruct (sha256_valid st =? 0) eqn:E1; [discriminate|].
        exists hash, st, t, t0. split; [exact Hhash|]. split; [reflexivity|].
        split; [apply Hsha; reflexivity|]. intros HS. subst SIGN.
        destruct (valid_signature st =? 0) eqn:E2; [discriminate|].
        apply Hsig. reflexivity.
      + intros [hash' [st' [t' [t0' [_ [Heq [Hd Hs]]]]]]].
        inversion Heq; subst hash' st' t'.
        rewrite (proj2 Hsha Hd).
        destruct SIGN; [|reflexivity].
        rewrite (proj2 Hsig (Hs eq_refl)). reflexivity.
    - split.
      + intros Hres. simpl in Hres. inversion Hres. subst rc.
        exfalso. apply (Hret 0); reflexivity.
      + intros [hash' [st' [t' [t0' [_ [Heq _]]]]]]. discriminate.
    - split; [discriminate|].
      intros [hash' [st' [t' [t0' [_ [Heq _]]]]]]. discriminate. }
  split; [exact Hiff|]. split; [|split].
  - intros rc Hres Hno Hz. subst rc. apply Hno. apply Hiff. exact Hres.
  - intros v. unfold result. rewrite bootutil_img_validate_eq.
    destruct (img_validate_scan _ _ _ _ _ _ _ _ _ _ _ _) as [[[h st]|rc|] t];
      try discriminate.
    destruct (sha256_valid st =? 0); [discriminate|].
    destruct (SIGN && (valid_signature st =? 0)); discriminate.
  - intros Hcap Hsz Hlen Hend Hfuel1 Hfuel2.
    destruct (bootutil_img_validate_returns F K SIGN sram fuel hdr fap tmp_buf_sz
                seed seed_len out_hash Hcap Hsz Hlen Hend Hfuel1 Hfuel2)
      as [rc [t Hrun]].
    exists rc. unfold result. rewrite Hrun. reflexivity.
Qed.

(** ** The three kinds of record *)

Section Records.

Variable F : image_format.
Variable K : crypto.
Variable MCUBOOT_SIGN_RSA : bool.
Variable hash : list Z.
Variable fap : flash_area.

Local Abbreviation record := (tlv_record F K MCUBOOT_SIGN_RSA hash fap).
Local Abbreviation iteration := (tlv_iteration F K MCUBOOT_SIGN_RSA hash fap).
Local Abbreviation loop fuel := (tlv_loop F K MCUBOOT_SIGN_RSA fuel hash fap).

Ltac unfold_record :=
  unfold tlv_record, flash_area_read, bootutil_find_key, bootutil_verify_sig,
    payload_off, bind, emit, ret, c_return;
  cbv beta iota zeta.

(** A digest record. *)
Lemma tlv_record_digest : forall st tlv t,
  it_type tlv = IMAGE_TLV_SHA256 F ->
  record st tlv t =
  if it_len tlv =? 32 then
    let o := payload_off F (off st) in
    let rc := fa_status fap o 32 in
    let t1 := t ++ [FlashRead DigestPayload o 32 rc] in
    if rc =? 0 then
      if memcmp hash (read_bytes (fa_data fap) o 32) 32 =? 0
      then (Val (set_sha256_valid st 1), t1)
      else (Return (-1), t1)
    else (Return rc, t1)
  else (Return (-1), t).
Proof.
  intros st tlv t Hty. unfold_record. rewrite Hty, Z.eqb_refl.
  destruct (it_len tlv =? 32); [|reflexivity]. simpl negb. cbv iota.
  destruct (fa_status fap _ 32 =? 0); [|reflexivity]. simpl negb. cbv iota.
  destruct (memcmp _ _ _ =? 0); reflexivity.
Qed.

(** A key-identifier record. *)
Lemma tlv_record_keyhash : forall st tlv t,
  MCUBOOT_SIGN_RSA = true ->
  it_type tlv <> IMAGE_TLV_SHA256 F ->
  it_type tlv = IMAGE_TLV_KEYHASH F ->
  record st tlv t =
  if it_len tlv >? 32 then (Return (-1), t) else
    let o := payload_off F (off st) in
    let rc := fa_status fap o (it_len tlv) in
    let buf := read_bytes (fa_data fap) o (it_len tlv) in
    let t1 := t ++ [FlashRead KeyHashPayload o (it_len tlv) rc] in
    if rc =? 0 then
      let k := find_key_from K (bootutil_keys K) 0 buf (wrap8 (it_len tlv)) in
      (Val (set_key_id st k), t1 ++ [FindKey buf (wrap8 (it_len tlv)) k])
    else (Return rc, t1).
Proof.
  intros st tlv t HS Hns Hty. unfold_record.
  apply Z.eqb_neq in Hns. rewrite Hns, HS, Hty, Z.eqb_refl.
  destruct (it_len tlv >? 32); [reflexivity|].
  destruct (fa_status fap _ (it_len tlv) =? 0); reflexivity.
Qed.

(** A signature record. *)
Lemma tlv_record_sig : forall st tlv t,
  MCUBOOT_SIGN_RSA = true ->
  it_type tlv <> IMAGE_TLV_SHA256 F ->
  it_type tlv <> IMAGE_TLV_KEYHASH F ->
  it_type tlv = EXPECTED_SIG_TLV F ->
  record st tlv t =
  if (key_id st <? 0) || (key_id st >=? bootutil_key_cnt K)
  then (Val (set_key_id st (-1)), t)
  else if negb (it_len tlv =? 256) || (it_len tlv >? 256) then (Return (-1), t)
  else
    let o := payload_off F (off st) in
    let rc := fa_status fap o (it_len tlv) in
    let buf := read_bytes (fa_data fap) o (it_len tlv) in
    let t1 := t ++ [FlashRead SigPayload o (it_len tlv) rc] in
    if rc =? 0 then
      let v := verify_sig K hash 32 buf (it_len tlv) (key_id st) in
      (Val (set_key_id (if v =? 0 then set_valid_signature st 1 else st) (-1)),
       t1 ++ [VerifySig hash 32 buf (it_len tlv) (key_id st) v])
    else (Return (-1), t1).
Proof.
  intros st tlv t HS Hns Hnk Hty. unfold_record.
  apply Z.eqb_neq in Hns, Hnk. rewrite Hns, HS, Hnk, Hty, Z.eqb_refl.
  destruct ((key_id st <? 0) || (key_id st >=? bootutil_key_cnt K)); [reflexivity|].
  unfold EXPECTED_SIG_LEN.
  destruct (negb (it_len tlv =? 256) || (it_len tlv >? 256)); [reflexivity|].
  destruct (fa_status fap _ (it_len tlv) =? 0); [|reflexivity]. simpl negb. cbv iota.
  destruct (verify_sig K hash 32 _ (it_len tlv) (key_id st) =? 0); reflexivity.
Qed.

(** Any other record is passed over. *)
Lemma tlv_record_other : forall st tlv t,
  it_type tlv <> IMAGE_TLV_SHA256 F ->
  MCUBOOT_SIGN_RSA = false \/
  (it_type tlv <> IMAGE_TLV_KEYHASH F /\ it_type tlv <> EXPECTED_SIG_TLV F) ->
  record st tlv t = (Val st, t).
Proof.
  intros st tlv t Hns Hother. unfold_record.
  apply Z.eqb_neq in Hns. rewrite Hns.
  destruct Hother as [HS|[Hnk Hnsig]].
  - rewrite HS. reflexivity.
  - apply Z.eqb_neq in Hnk, Hnsig. rewrite Hnk, Hnsig.
    destruct MCUBOOT_SIGN_RSA; reflexivity.
Qed.

(** A turn of the loop whose header read succeeds. *)
Lemma tlv_loop_turn : forall fuel end_ st t,
  off st < end_ ->
  fa_status fap (off st) (sizeof_tlv F) = 0 ->
  loop (S fuel) end_ st t =
  match record st (tlv_at F fap (off st))
          (t ++ [FlashRead TlvHeader (off st) (sizeof_tlv F) 0]) with
  | (Val st', t') => loop fuel end_ (set_off st' (next_off F fap (off st))) t'
  | (Return rc, t') => (Return rc, t')
  | (Fuel, t') => (Fuel, t')
  end.
Proof.
  intros fuel end_ st t Hlt Hst. rewrite tlv_loop_eq, tlv_iteration_eq.
  apply Z.ltb_lt in Hlt. rewrite Hlt. cbv zeta. rewrite Hst. simpl Z.eqb. cbv iota.
  destruct (record st _ _) as [[st'|rc|] t']; reflexivity.
Qed.

(** Once set, the two flags stay set. *)
Lemma tlv_record_flags : forall st tlv t st' t',
  record st tlv t = (Val st', t') ->
  (sha256_valid st = 1 -> sha256_valid st' = 1) /\
  (valid_signature st = 1 -> valid_signature st' = 1).
Proof.
  intros st tlv t st' t' Hrun.
  unfold tlv_record, flash_area_read, bootutil_find_key, bootutil_verify_sig,
    bind, emit, ret, c_return in Hrun.
  cbv beta iota zeta in Hrun.
  repeat match type of Hrun with
         | context [if ?c then _ else _] =>
             destruct c; cbv beta iota zeta in Hrun
         end;
    inversion Hrun; subst; simpl; auto.
Qed.

Lemma tlv_loop_flags : forall fuel end_ st t st' t',
  loop fuel end_ st t = (Val st', t') ->
  (sha256_valid st = 1 -> sha256_valid st' = 1) /\
  (valid_signature st = 1 -> valid_signature st' = 1).
Proof.
  induction fuel as [|fuel IH]; intros end_ st t st' t' Hrun; [discriminate|].
  rewrite tlv_loop_eq, tlv_iteration_eq in Hrun. cbv zeta in Hrun.
  destruct (off st <? end_); [|inversion Hrun; subst; auto].
  destruct (fa_status fap (off st) (sizeof_tlv F) =? 0); [|discriminate].
  destruct (record st (tlv_at F fap (off st)) _) as [[st1|rc|] t1] eqn:Erec;
    try discriminate.
  destruct (tlv_record_flags _ _ _ _ _ Erec) as [H1 H2].
  apply IH in Hrun. simpl in Hrun. destruct Hrun as [H3 H4]. auto.
Qed.

End Records.

Lemma find_key_from_none : forall K keys i keyhash len,
  Forall (fun key => memcmp (sha256 K key) keyhash (Z.to_nat len) <> 0) keys ->
  find_key_from K keys i keyhash len = -1.
Proof.
  intros K keys. induction keys as [|key keys IH]; intros i keyhash len Hall.
  - reflexivity.
  - inversion Hall as [|? ? Hkey Hrest]; subst. simpl.
    apply Z.eqb_neq in Hkey. unfold sha256 in Hkey. rewrite Hkey.
    apply IH. exact Hrest.
Qed.

(** What holds of the calls of a run of the whole function, however it ends. *)
Lemma bootutil_img_validate_trace_ok :
  forall F K SIGN sram fuel hdr fap tmp_buf_sz seed seed_len out_hash,
  trace_ok K (snd (bootutil_img_validate F K SIGN sram fuel hdr fap tmp_buf_sz
                     seed seed_len out_hash [])).
Proof.
  intros. rewrite bootutil_img_validate_eq.
  destruct (img_validate_scan F K SIGN sram fuel hdr fap tmp_buf_sz seed
              seed_len out_hash []) as [o t] eqn:Escan.
  destruct (img_validate_scan_inv _ _ _ _ _ _ _ _ _ _ _ _ _ Escan) as [Htr _].
  destruct o as [[h st]|rc|]; try exact Htr.
  destruct (sha256_valid st =? 0); [exact Htr|].
  destruct (SIGN && (valid_signature st =? 0)); exact Htr.
Qed.

(** ** What the flags stand for *)

(** The search from index [i] answers [-1] when no key matches, else the
    index of the first key that does. *)
Lemma find_key_from_first : forall K keys i keyhash len,
  let r := find_key_from K keys i keyhash len in
  (r = -1 /\
   Forall (fun key => memcmp (sha256 K key) keyhash (Z.to_nat len) <> 0) keys) \/
  (exists n,
     r = i + Z.of_nat n /\ (n < length keys)%nat /\
     memcmp (sha256 K (nth n keys [])) keyhash (Z.to_nat len) = 0 /\
     forall m, (m < n)%nat ->
       memcmp (sha256 K (nth m keys [])) keyhash (Z.to_nat len) <> 0).
Proof.
  intros K keys. induction keys as [|key keys IH]; intros i keyhash len; simpl.
  - left. split; [reflexivity|constructor].
  - fold (sha256 K key).
    destruct (memcmp (sha256 K key) keyhash (Z.to_nat len) =? 0) eqn:E.
    + right. exists 0%nat. apply Z.eqb_eq in E.
      repeat split; [lia|lia|exact E|]. intros m Hm. lia.
    + apply Z.eqb_neq in E.
      destruct (IH (i + 1) keyhash len) as [[Hr Hall]|[n [Hr [Hn [Hmatch Hfirst]]]]].
      * left. split; [exact Hr|]. constructor; assumption.
      * right. exists (S n). repeat split.
        -- rewrite Hr. lia.
        -- lia.
        -- exact Hmatch.
        -- intros [|m] Hm; [exact E|]. apply Hfirst. lia.
Qed.

Section Faithful.

Variable F : image_format.
Variable K : crypto.
Variable MCUBOOT_SIGN_RSA : bool.
Variable hash : list Z.
Variable fap : flash_area.

Local Abbreviation record := (tlv_record F K MCUBOOT_SIGN_RSA hash fap).
Local Abbreviation iteration := (tlv_iteration F K MCUBOOT_SIGN_RSA hash fap).
Local Abbreviation loop fuel := (tlv_loop F K MCUBOOT_SIGN_RSA fuel hash fap).
Local Abbreviation faithful := (scan_faithful F K fap hash).

(** What was seen stays seen. *)
Lemma digest_record_seen_app : forall t new,
  digest_record_seen F fap hash t -> digest_record_seen F fap hash (t ++ new).
Proof.
  intros t new [o [t1 [t2 [Ht H]]]]. exists o, t1, (t2 ++ new).
  split; [|exact H]. rewrite Ht, <- !app_assoc. reflexivity.
Qed.

Lemma signature_verified_app : forall t new,
  signature_verified F K fap hash t -> signature_verified F K fap hash (t ++ new).
Proof.
  intros t new [ok [os [k [t1 [t2 [Ht H]]]]]]. exists ok, os, k, t1, (t2 ++ new).
  split; [|exact H]. rewrite Ht, <- !app_assoc. reflexivity.
Qed.

(** A matched key stays pending while no key is looked up and no signature
    is checked. *)
Lemma key_matched_app : forall o k t new,
  key_matched F K fap o k t ->
  existsb is_key_call new = false ->
  key_matched F K fap o k (t ++ new).
Proof.
  intros o k t new [Hns [Hty [Hlen [Hfirst [t1 [t2 [Ht Hq]]]]]]] Hnew.
  split; [exact Hns|]. split; [exact Hty|]. split; [exact Hlen|].
  split; [exact Hfirst|].
  exists t1, (t2 ++ new). split.
  - rewrite Ht, <- !app_assoc. reflexivity.
  - rewrite existsb_app, Hq, Hnew. reflexivity.
Qed.

Lemma scan_faithful_app : forall st t new,
  faithful st t -> existsb is_key_call new = false -> faithful st (t ++ new).
Proof.
  intros st t new [Hd Hs Hk] Hnew. split.
  - destruct Hd as [Hd|Hd]; [left; exact Hd|right].
    apply digest_record_seen_app. exact Hd.
  - destruct Hs as [Hs|Hs]; [left; exact Hs|right].
    apply signature_verified_app. exact Hs.
  - destruct Hk as [Hk|[o Hk]]; [left; exact Hk|right].
    exists o. apply key_matched_app; assumption.
Qed.

(** The answer of the lookup is [-1] or the first match. *)
Lemma find_key_from_answer : forall keyhash len,
  let k := find_key_from K (bootutil_keys K) 0 keyhash len in
  k = -1 \/ first_match K keyhash len k.
Proof.
  intros keyhash len k.
  destruct (find_key_from_first K (bootutil_keys K) 0 keyhash len)
    as [[Hr _]|[n [Hr [Hn [Hmatch Hfirst]]]]].
  - left. exact Hr.
  - right. unfold k. rewrite Hr. unfold first_match, bootutil_key_cnt.
    split; [lia|]. split.
    + replace (Z.to_nat (0 + Z.of_nat n)) with n by lia. exact Hmatch.
    + intros j Hj. apply Hfirst. lia.
Qed.

(** One record: the flags and the pending key keep their meaning. *)
Lemma tlv_record_faithful : forall st t st' t',
  faithful st t ->
  record st (tlv_at F fap (off st)) (t ++ [header_read F (off st)]) = (Val st', t') ->
  faithful st' t'.
Proof.
  intros st t st' t' Hinv Hrun.
  assert (Hhdr : faithful st (t ++ [header_read F (off st)]))
    by (apply scan_faithful_app; [exact Hinv|reflexivity]).
  set (tlv := tlv_at F fap (off st)) in *.
  destruct (Z.eq_dec (it_type tlv) (IMAGE_TLV_SHA256 F)) as [Hd|Hnd].
  { (* a digest record *)
    rewrite (tlv_record_digest F K MCUBOOT_SIGN_RSA hash fap st tlv _ Hd) in Hrun.
    destruct (it_len tlv =? 32) eqn:Elen; [|discriminate].
    apply Z.eqb_eq in Elen. cbv zeta in Hrun.
    destruct (fa_status fap (payload_off F (off st)) 32 =? 0) eqn:Est;
      [|discriminate].
    apply Z.eqb_eq in Est. rewrite Est in Hrun.
    destruct (memcmp hash _ 32 =? 0) eqn:Ecmp; [|discriminate].
    apply Z.eqb_eq in Ecmp. inversion Hrun; subst st' t'. clear Hrun.
    assert (Hrest : faithful st
              ((t ++ [header_read F (off st)]) ++
               [FlashRead DigestPayload (payload_off F (off st)) 32 0]))
      by (apply scan_faithful_app; [exact Hhdr|reflexivity]).
    destruct Hrest as [_ Hs Hk]. split; [right|exact Hs|exact Hk].
    exists (off st), t, []. fold tlv. rewrite app_nil_r, <- app_assoc.
    split; [reflexivity|]. split; [exact Hd|]. split; [exact Elen|].
    unfold payload_at. fold tlv. rewrite Elen.
    apply (proj1 (memcmp_zero_iff 32 hash _)). exact Ecmp. }
  destruct MCUBOOT_SIGN_RSA eqn:HS.
  2:{ rewrite (tlv_record_other F K false hash fap st tlv _ Hnd (or_introl eq_refl))
        in Hrun.
      inversion Hrun; subst st' t'. exact Hhdr. }
  destruct (Z.eq_dec (it_type tlv) (IMAGE_TLV_KEYHASH F)) as [Hk|Hnk].
  { (* a key-identifier record *)
    rewrite (tlv_record_keyhash F K true hash fap st tlv _ eq_refl Hnd Hk) in Hrun.
    destruct (it_len tlv >? 32) eqn:Elen; [discriminate|]. cbv zeta in Hrun.
    destruct (fa_status fap (payload_off F (off st)) (it_len tlv) =? 0) eqn:Est;
      [|discriminate].
    apply Z.eqb_eq in Est. rewrite Est in Hrun.
    inversion Hrun; subst st' t'. clear Hrun.
    destruct Hinv as [Hdg Hsg _]. split.
    - destruct Hdg as [Hdg|Hdg]; [left; exact Hdg|right].
      rewrite <- !app_assoc. apply digest_record_seen_app. exact Hdg.
    - destruct Hsg as [Hsg|Hsg]; [left; exact Hsg|right].
      rewrite <- !app_assoc. apply signature_verified_app. exact Hsg.
    - simpl key_id.
      destruct (find_key_from_answer
                  (read_bytes (fa_data fap) (payload_off F (off st)) (it_len tlv))
                  (wrap8 (it_len tlv))) as [Hnone|Hfirst];
        [left; exact Hnone|right].
      exists (off st). unfold key_matched, payload_at. fold tlv.
      split; [exact Hnd|]. split; [exact Hk|]. split; [|split; [exact Hfirst|]].
      + rewrite Z.gtb_ltb in Elen. apply Z.ltb_ge in Elen. exact Elen.
      + exists t, []. split; [|reflexivity].
        unfold keyhash_calls, payload_at. fold tlv.
        rewrite app_nil_r, <- !app_assoc. reflexivity. }
  destruct (Z.eq_dec (it_type tlv) (EXPECTED_SIG_TLV F)) as [Hsig|Hnsig].
  2:{ rewrite (tlv_record_other F K true hash fap st tlv _ Hnd
                 (or_intror (conj Hnk Hnsig))) in Hrun.
      inversion Hrun; subst st' t'. exact Hhdr. }
  (* a signature record *)
  rewrite (tlv_record_sig F K true hash fap st tlv _ eq_refl Hnd Hnk Hsig) in Hrun.
  destruct ((key_id st <? 0) || (key_id st >=? bootutil_key_cnt K)) eqn:Erange.
  { inversion Hrun; subst st' t'. destruct Hhdr as [Hdg Hsg _].
    split; [exact Hdg|exact Hsg|left; reflexivity]. }
  apply orb_false_iff in Erange. destruct Erange as [Hlo Hhi].
  apply Z.ltb_ge in Hlo.
  destruct (negb (it_len tlv =? 256) || (it_len tlv >? 256)) eqn:Elen;
    [discriminate|].
  apply orb_false_iff in Elen. destruct Elen as [Elen _].
  apply negb_false_iff in Elen. apply Z.eqb_eq in Elen.
  cbv zeta in Hrun. rewrite Elen in Hrun.
  destruct (fa_status fap (payload_off F (off st)) 256 =? 0) eqn:Est;
    [|discriminate].
  apply Z.eqb_eq in Est. rewrite Est in Hrun.
  inversion Hrun; subst st' t'. clear Hrun.
  destruct Hinv as [Hdg Hsg Hkey]. split.
  - assert (Hsame : forall s, sha256_valid (set_key_id s (-1)) = sha256_valid s)
      by reflexivity.
    rewrite Hsame.
    replace (sha256_valid (if _ =? 0 then set_valid_signature st 1 else st))
      with (sha256_valid st) by (destruct (_ =? 0); reflexivity).
    destruct Hdg as [Hdg|Hdg]; [left; exact Hdg|right].
    rewrite <- !app_assoc. apply digest_record_seen_app. exact Hdg.
  - destruct (verify_sig K hash 32 _ 256 (key_id st) =? 0) eqn:Ev.
    + right. apply Z.eqb_eq in Ev. rewrite Ev.
      destruct Hkey as [Hkey|[o Hkey]]; [lia|].
      exists o, (off st), (key_id st), t, []. fold tlv.
      split; [|split; [exact Hkey|]].
      * unfold sig_calls, payload_at. fold tlv. rewrite Elen.
        rewrite app_nil_r, <- !app_assoc. reflexivity.
      * split; [exact Hnd|]. split; [exact Hnk|]. split; [exact Hsig|].
        split; [exact Elen|].
        unfold payload_at. fold tlv. rewrite Elen. exact Ev.
    + simpl valid_signature.
      destruct Hsg as [Hsg|Hsg]; [left; exact Hsg|right].
      rewrite <- !app_assoc. apply signature_verified_app. exact Hsg.
  - left. reflexivity.
Qed.

Lemma tlv_loop_faithful : forall fuel end_ st t st' t',
  faithful st t ->
  loop fuel end_ st t = (Val st', t') ->
  faithful st' t'.
Proof.
  induction fuel as [|fuel IH]; intros end_ st t st' t' Hinv Hrun;
    [discriminate|].
  rewrite tlv_loop_eq, tlv_iteration_eq in Hrun. cbv zeta in Hrun.
  destruct (off st <? end_); [|inversion Hrun; subst; exact Hinv].
  destruct (fa_status fap (off st) (sizeof_tlv F) =? 0) eqn:Est; [|discriminate].
  apply Z.eqb_eq in Est. rewrite Est in Hrun.
  destruct (record st (tlv_at F fap (off st)) _) as [[st1|rc|] t1] eqn:Erec;
    try discriminate.
  apply (IH _ _ _ _ _) in Hrun; [exact Hrun|].
  pose proof (tlv_record_faithful st t st1 t1 Hinv Erec) as [Hd Hs Hk].
  split; assumption.
Qed.

End Faithful.

(** At the end of a traversal that completed, the flags say what was seen. *)
Lemma img_validate_scan_faithful :
  forall F K SIGN sram fuel hdr fap tmp_buf_sz seed seed_len out_hash hash st t,
  img_validate_scan F K SIGN sram fuel hdr fap tmp_buf_sz seed seed_len out_hash []
    = (Val (hash, st), t) ->
  scan_faithful F K fap hash st t.
Proof.
  intros F K SIGN sram fuel hdr fap tmp_buf_sz seed seed_len out_hash hash st t
         Hrun.
  rewrite img_validate_scan_eq in Hrun.
  destruct (bootutil_img_hash K sram fuel hdr (Some fap) tmp_buf_sz (repeat 0 32)
              seed seed_len []) as [[[rc h]|rc|] th]; try discriminate.
  destruct (rc =? 0); [|discriminate]. cbv zeta in Hrun.
  destruct (fa_status fap _ (sizeof_info F) =? 0); [|discriminate].
  destruct (it_magic _ =? IMAGE_TLV_INFO_MAGIC F); [|discriminate].
  destruct (tlv_loop F K SIGN fuel h fap _ _ _) as [[st1|rc1|] t1] eqn:Eloop;
    try discriminate.
  inversion Hrun; subst h st1 t1.
  refine (tlv_loop_faithful F K SIGN hash fap _ _ _ _ _ _ _ Eloop).
  split; left; reflexivity.
Qed.

(** The conditions of acceptance show in the calls. *)
Lemma accepted_accepts :
  forall F K SIGN sram fuel hdr fap tmp_buf_sz seed seed_len out_hash,
  accepted F K SIGN sram fuel hdr fap tmp_buf_sz seed seed_len out_hash ->
  accepts F K SIGN sram fuel hdr fap tmp_buf_sz seed seed_len out_hash.
Proof.
  intros F K SIGN sram fuel hdr fap tmp_buf_sz seed seed_len out_hash
         [hash [st [t [t0 [Hhash [Hscan [Hd Hs]]]]]]].
  exists hash, st, t, t0. split; [exact Hhash|]. split; [exact Hscan|]. split.
  - destruct Hd as [o [t1 [t2 [Ht [_ [Hlen Heq]]]]]].
    exists (payload_off F o). split.
    + rewrite Ht. apply in_or_app. right. right. left. reflexivity.
    + unfold payload_at in Heq. rewrite Hlen in Heq. exact Heq.
  - intros HS. destruct (Hs HS) as [ok [os [k [t1 [t2 [Ht [Hkey _]]]]]]].
    destruct Hkey as [_ [_ [_ [[Hrange _] [t3 [t4 [Ht1 _]]]]]]].
    exists (t1 ++ [header_read F os; FlashRead SigPayload (payload_off F os) 256 0]),
           t2, hash, 32, (payload_at F fap os), 256, k,
           (payload_at F fap ok), (wrap8 (it_len (tlv_at F fap ok))).
    split; [|split; [|exact Hrange]].
    + rewrite Ht. unfold sig_calls. rewrite <- app_assoc. reflexivity.
    + rewrite Ht1. apply in_or_app. left. apply in_or_app. right.
      apply in_or_app. left. right. right. left. reflexivity.
Qed.

(** ** Runs that do not end *)

(** One turn of the block loop. *)
Lemma img_hash_loop_step : forall K sram hdr fa fuel tmp_buf_sz size o ctx t,
  img_hash_loop K sram (S fuel) hdr fa tmp_buf_sz size o ctx t =
  if o <? size then
    let blk := if wrap32 (size - o) >? tmp_buf_sz then tmp_buf_sz
               else wrap32 (size - o) in
    match read_block sram hdr fa o blk t with
    | (Val buf, t1) =>
        img_hash_loop K sram fuel hdr fa tmp_buf_sz size (wrap32 (o + blk))
          (sha256_update K ctx buf) (t1 ++ [Sha256Update buf])
    | (Return rc, t1) => (Return rc, t1)
    | (Fuel, t1) => (Fuel, t1)
    end
  else (Val ctx, t).
Proof.
  intros. cbn [img_hash_loop]. destruct (o <? size); [|reflexivity].
  cbv zeta. unfold bind at 1.
  destruct (read_block _ _ _ _ _ _) as [[buf|rc|] t1]; reflexivity.
Qed.

(** On a flash area whose reads all succeed the digest computation does not
    fail. *)
Lemma img_hash_loop_healthy :
  forall K sram hdr fa tmp_buf_sz size,
  (forall o l, fa_status fa o l = 0) ->
  forall fuel o ctx t rc t',
  img_hash_loop K sram fuel hdr (Some fa) tmp_buf_sz size o ctx t
    <> (Return rc, t').
Proof.
  intros K sram hdr fa tmp_buf_sz size Hst.
  induction fuel as [|fuel IH]; intros o ctx t rc t'; [discriminate|].
  rewrite img_hash_loop_step. destruct (o <? size); [|discriminate].
  cbv zeta. rewrite read_block_eq, Hst. simpl Z.eqb. cbv iota. apply IH.
Qed.

Lemma bootutil_img_hash_healthy :
  forall K sram fuel hdr fa tmp_buf_sz hash_result seed seed_len rc hash t,
  (forall o l, fa_status fa o l = 0) ->
  bootutil_img_hash K sram fuel hdr (Some fa) tmp_buf_sz hash_result seed
    seed_len [] = (Val (rc, hash), t) ->
  rc = 0.
Proof.
  intros K sram fuel hdr fa tmp_buf_sz hash_result seed seed_len rc hash t Hst Hrun.
  rewrite bootutil_img_hash_eq in Hrun.
  destruct (img_hash_loop K sram fuel hdr (Some fa) _ _ _ _ _)
    as [[ctx|rc'|] t'] eqn:Eloop.
  - inversion Hrun. reflexivity.
  - exfalso. exact (img_hash_loop_healthy K sram hdr fa _ _ Hst _ _ _ _ _ _ Eloop).
  - discriminate.
Qed.

(** The records of the cycling flash area at the offsets that are 4 modulo
    8. *)
Lemma cycling_record : forall o,
  0 <= o < 2 ^ 32 -> o mod 8 = 4 ->
  tlv_at Sample.format Sample.cycling_flash o = {| it_type := 0; it_len := 4 |}.
Proof.
  intros o Ho Hmod.
  assert (H32 : 2 ^ 32 = 4294967296) by reflexivity.
  assert (H2 : (o + 2) mod 8 = 6)
    by (rewrite <- Z.add_mod_idemp_l, Hmod by lia; reflexivity).
  assert (H3 : (o + 3) mod 8 = 7)
    by (rewrite <- Z.add_mod_idemp_l, Hmod by lia; reflexivity).
  assert (Hne : o <> 4294967288 /\ o <> 4294967289 /\ o <> 4294967290 /\
                o + 2 <> 4294967288 /\ o + 2 <> 4294967289 /\
                o + 2 <> 4294967290 /\
                o + 3 <> 4294967288 /\ o + 3 <> 4294967289 /\
                o + 3 <> 4294967290).
  { pose proof (Z.div_mod o 8 ltac:(lia)) as Hdiv. rewrite Hmod in Hdiv.
    repeat split; intros Heq; lia. }
  destruct Hne as [A1 [A2 [A3 [B1 [B2 [B3 [C1 [C2 C3]]]]]]]].
  apply Z.eqb_neq in A1, A2, A3, B1, B2, B3, C1, C2, C3.
  unfold tlv_at, read_bytes. simpl map. simpl load_tlv. unfold Sample.le16.
  simpl fa_data. rewrite Z.add_0_r.
  rewrite A1, A2, A3, B1, B2, B3, C1, C2, C3, Hmod, H2, H3. reflexivity.
Qed.

(** The walk over them never reaches the end of the trailer at
    [2^32 - 1]. *)
Lemma cycling_loop : forall SIGN hash fuel st t,
  0 <= off st < 2 ^ 32 -> off st mod 8 = 4 ->
  fst (tlv_loop Sample.format Sample.primitives SIGN fuel hash
         Sample.cycling_flash (2 ^ 32 - 1) st t) = Fuel.
Proof.
  intros SIGN hash. induction fuel as [|fuel IH]; intros st t Hoff Hmod;
    [reflexivity|].
  assert (H32 : 2 ^ 32 = 4294967296) by reflexivity.
  assert (Hlt : off st < 2 ^ 32 - 1).
  { destruct (Z.eq_dec (off st) (2 ^ 32 - 1)) as [Heq|Hne]; [|lia].
    rewrite Heq in Hmod. vm_compute in Hmod. discriminate. }
  rewrite (tlv_loop_turn Sample.format Sample.primitives SIGN hash
             Sample.cycling_flash fuel _ st t Hlt eq_refl).
  unfold next_off. rewrite (cycling_record (off st) Hoff Hmod).
  rewrite tlv_record_other;
    [|simpl; discriminate|right; split; simpl; discriminate].
  apply IH; simpl off.
  - apply wrap32_range.
  - unfold wrap32. simpl it_len. simpl sizeof_tlv.
    match goal with
    | |- (?x mod ?m) mod 8 = 4 =>
        pose proof (Z.div_mod x m ltac:(lia)) as Hx;
        pose proof (Z.mod_pos_bound x m ltac:(lia)) as Hxb;
        set (y := x mod m) in *
    end.
    pose proof (Z.div_mod y 8 ltac:(lia)) as Hy.
    pose proof (Z.mod_pos_bound y 8 ltac:(lia)) as Hyb.
    pose proof (Z.div_mod (off st) 8 ltac:(lia)) as Ho.
    rewrite Hmod in Ho. rewrite ?H32 in *. lia.
Qed.

(** ** The claims about the trailer walk *)

(** Closes [lhs = ?x] with the value of [lhs]. *)
Ltac run_lhs :=
  lazymatch goal with
  | |- ?lhs = _ =>
      let v := eval vm_compute in lhs in
      transitivity v; [vm_compute; reflexivity | reflexivity]
  end.

Ltac by_computation :=
  vm_compute;
  first [ reflexivity | discriminate | (intro; discriminate) | congruence ].

(** The length field of the sample layout is a 16 bit number. *)
Lemma sample_len_range : forall bytes,
  0 <= it_len (load_tlv Sample.format bytes) < 2 ^ 16.
Proof.
  intros bytes. simpl. unfold Sample.le16.
  pose proof (Z.mod_pos_bound (nth 2 bytes 0) 256 ltac:(lia)).
  pose proof (Z.mod_pos_bound (nth 3 bytes 0) 256 ltac:(lia)).
  assert (2 ^ 16 = 65536) by reflexivity. lia.
Qed.

(** C1, as the code has it.  [bootutil_img_validate] returns 0 exactly when
    the traversal of the trailer completed without error, a digest record of
    32 bytes equal to the computed SHA-256 digest was seen and, when a
    signature algorithm is configured, a signature record of 256 bytes was
    accepted by the signature primitive, for the computed digest, with the
    key that the key-identifier record before it had matched (the first key
    of the table whose digest starts with the record's payload).  It never
    ends without a [return].  When the block buffer holds one byte or more
    and the offsets of the trailer stay below 2^32 it does return, with a
    non-zero value in every case other than the above. *)
Theorem bootutil_img_validate_verdict :
  forall F K SIGN sram fuel hdr fap tmp_buf_sz seed seed_len out_hash,
  let result :=
    fst (bootutil_img_validate F K SIGN sram fuel hdr fap tmp_buf_sz seed
           seed_len out_hash []) in
  let size := wrap32 (ih_img_size hdr + ih_hdr_size hdr) in
  let info := load_info F (read_bytes (fa_data fap) size (sizeof_info F)) in
  let end_ := wrap32 (size + it_tlv_tot info) in
  (result = Return 0 <->
   accepted F K SIGN sram fuel hdr fap tmp_buf_sz seed seed_len out_hash) /\
  (forall v, result <> Val v) /\
  (1 <= tmp_buf_sz ->
   0 < sizeof_tlv F ->
   (forall bytes, 0 <= it_len (load_tlv F bytes) < 2 ^ 16) ->
   end_ + sizeof_tlv F + 2 ^ 16 <= 2 ^ 32 ->
   ceil_div size tmp_buf_sz < Z.of_nat fuel ->
   end_ < Z.of_nat fuel ->
   exists rc,
     result = Return rc /\
     (rc <> 0 <->
      ~ accepted F K SIGN sram fuel hdr fap tmp_buf_sz seed seed_len out_hash)).
Proof.
  intros F K SIGN sram fuel hdr fap tmp_buf_sz seed seed_len out_hash
         result size info end_.
  destruct (bootutil_img_validate_accepts F K SIGN sram fuel hdr fap tmp_buf_sz
              seed seed_len out_hash) as [Hiff [_ [Hnoval _]]].
  fold result in Hiff, Hnoval.
  assert (Hstrong : result = Return 0 <->
            accepted F K SIGN sram fuel hdr fap tmp_buf_sz seed seed_len out_hash).
  { split.
    - intros Hres.
      destruct (proj1 Hiff Hres) as [hash [st [t [t0 [Hhash [Hscan _]]]]]].
      pose proof (img_validate_scan_faithful _ _ _ _ _ _ _ _ _ _ _ _ _ _ Hscan)
        as [Hd Hs _].
      unfold result in Hres. rewrite bootutil_img_validate_eq, Hscan in Hres.
      destruct (sha256_valid st =? 0) eqn:E1; [discriminate|].
      apply Z.eqb_neq in E1.
      exists hash, st, t, t0. split; [exact Hhash|]. split; [exact Hscan|].
      split; [destruct Hd as [Hd|Hd]; [contradiction|exact Hd]|].
      intros HS. subst SIGN. simpl andb in Hres.
      destruct (valid_signature st =? 0) eqn:E2; [discriminate|].
      apply Z.eqb_neq in E2.
      destruct Hs as [Hs|Hs]; [contradiction|exact Hs].
    - intros Hacc. apply Hiff. apply accepted_accepts. exact Hacc. }
  split; [exact Hstrong|]. split; [exact Hnoval|].
  intros Hcap Hsz Hlen Hend Hfuel1 Hfuel2.
  destruct (bootutil_img_validate_returns F K SIGN sram fuel hdr fap tmp_buf_sz
              seed seed_len out_hash Hcap Hsz Hlen Hend Hfuel1 Hfuel2)
    as [rc [t Hrun]].
  assert (Hres : result = Return rc) by (unfold result; rewrite Hrun; reflexivity).
  exists rc. split; [exact Hres|]. split.
  - intros Hrc Hacc. apply Hstrong in Hacc. rewrite Hres in Hacc.
    inversion Hacc. contradiction.
  - intros Hno Hrc. subst rc. apply Hno. apply Hstrong. exact Hres.
Qed.

Lemma bootutil_img_validate_verdict_witness :
  let fap := Sample.flash_of Sample.signed_image Sample.healthy in
  accepted Sample.format Sample.primitives true Sample.sram 400 Sample.hdr fap 3
    None 0 false /\
  exists rc,
    fst (bootutil_img_validate Sample.format Sample.primitives true Sample.sram
           400 Sample.hdr fap 3 None 0 false []) = Return rc /\
    (rc <> 0 <->
     ~ accepted Sample.format Sample.primitives true Sample.sram 400 Sample.hdr
         fap 3 None 0 false).
Proof.
  intros fap.
  pose proof (bootutil_img_validate_verdict Sample.format Sample.primitives true
                Sample.sram 400 Sample.hdr fap 3 None 0 false) as H.
  cbv zeta in H. destruct H as [Hiff [_ Hreturns]].
  split.
  - apply Hiff. vm_compute. reflexivity.
  - apply Hreturns.
    + lia.
    + simpl. lia.
    + exact sample_len_range.
    + apply Z.leb_le. vm_compute. reflexivity.
    + apply Z.ltb_lt. vm_compute. reflexivity.
    + apply Z.ltb_lt. vm_compute. reflexivity.
Defined.

(** C1 as stated fails where the function does not return.  With a block
    buffer of size 0 the sample image, which is accepted with a buffer of
    three bytes, is neither accepted nor rejected: no budget makes
    [bootutil_img_validate] return.  Nor does it return, with a buffer of
    three bytes, on a trailer that ends at [2^32 - 1] and whose records are
    eight bytes apart: the offset wraps around and never reaches the end. *)
Lemma bootutil_img_validate_never_returns :
  (~ exists fuel rc,
       fst (bootutil_img_validate Sample.format Sample.primitives true
              Sample.sram fuel Sample.hdr
              (Sample.flash_of Sample.signed_image Sample.healthy) 0
              None 0 false []) = Return rc) /\
  (~ exists fuel rc,
       fst (bootutil_img_validate Sample.format Sample.primitives true
              Sample.sram fuel Sample.cycling_hdr Sample.cycling_flash 3
              None 0 false []) = Return rc).
Proof.
  split; intros [fuel [rc Hrun]];
    rewrite bootutil_img_validate_eq, img_validate_scan_eq in Hrun.
  - rewrite bootutil_img_hash_stuck in Hrun.
    + discriminate.
    + vm_compute. reflexivity.
    + intros fa Hfa. inversion Hfa. reflexivity.
  - destruct (bootutil_img_hash Sample.primitives Sample.sram fuel
                Sample.cycling_hdr (Some Sample.cycling_flash) 3 (repeat 0 32)
                None 0 []) as [[[rc' h]|rc'|] th] eqn:Eh.
    + assert (Hrc : rc' = 0)
        by (apply (bootutil_img_hash_healthy _ _ _ _ Sample.cycling_flash
                     _ _ _ _ _ _ _ (fun _ _ => eq_refl) Eh)).
      subst rc'. simpl Z.eqb in Hrun. cbv iota zeta in Hrun.
      match type of Hrun with
      | context [tlv_loop ?F ?K ?S ?f ?ha ?fa ?e ?s ?t] =>
          assert (Hl : fst (tlv_loop F K S f ha fa e s t) = Fuel)
            by (apply (cycling_loop S ha f s t);
                [apply wrap32_range | vm_compute; reflexivity]);
          destruct (tlv_loop F K S f ha fa e s t) as [[s1|r1|] t1]
      end; simpl in Hl; discriminate.
    + destruct (bootutil_img_hash_prologue _ _ _ _ _ _ _ _ _ [] _ _ eq_refl Eh)
        as [_ [Hnoret _]].
      exact (Hnoret rc' eq_refl).
    + discriminate.
Qed.

(** C3.  The read of a signature payload that fails with the driver's [-5]
    makes [bootutil_img_validate] return [-1], the value of a format failure,
    where the same failure on the digest payload is returned as [-5]. *)
Theorem signature_read_failure_is_minus_one :
  let run fap :=
    bootutil_img_validate Sample.format Sample.primitives true Sample.sram 400
      Sample.hdr fap 3 None 0 false [] in
  let digest_fails := Sample.flash_of Sample.signed_image (Sample.fails_at 16) in
  let sig_fails := Sample.flash_of Sample.signed_image (Sample.fails_at 88) in
  (fst (run digest_fails) = Return (-5) /\
   last (snd (run digest_fails)) (OutHash []) = FlashRead DigestPayload 16 32 (-5)) /\
  (fst (run sig_fails) = Return (-1) /\
   last (snd (run sig_fails)) (OutHash []) = FlashRead SigPayload 88 256 (-5)).
Proof. vm_compute. repeat split. Qed.

Lemma no_header_read_below : forall end_ tail,
  existsb is_header_read tail = false -> Forall (header_below end_) tail.
Proof.
  intros end_ tail H. apply Forall_forall. intros c Hin.
  destruct c as [s ? ? ?| | | | |]; try exact I. destruct s; try exact I.
  exfalso. apply not_true_iff_false in H. apply H.
  apply existsb_exists. eexists. split; [exact Hin|reflexivity].
Qed.

(** Header reads of the loop are below [end_]. *)
Lemma tlv_loop_headers : forall F K SIGN hash fap end_ fuel st t o t',
  tlv_loop F K SIGN fuel hash fap end_ st t = (o, t') ->
  exists new, t' = t ++ new /\ Forall (header_below end_) new.
Proof.
  intros F K SIGN hash fap end_.
  induction fuel as [|fuel IH]; intros st t o t' Hrun.
  - inversion Hrun; subst. exists []. rewrite app_nil_r. split; constructor.
  - rewrite tlv_loop_eq in Hrun. destruct (off st <? end_) eqn:Elt.
    + apply Z.ltb_lt in Elt.
      destruct (tlv_iteration F K SIGN hash fap st t) as [o1 t1] eqn:Eit.
      destruct (tlv_iteration_next _ _ _ _ _ _ _ _ _ Eit)
        as [_ [_ [tail [Ht Htail]]]].
      assert (Hnew : Forall (header_below end_)
                (FlashRead TlvHeader (off st) (sizeof_tlv F)
                   (fa_status fap (off st) (sizeof_tlv F)) :: tail)).
      { constructor; [exact Elt|]. apply no_header_read_below. exact Htail. }
      destruct o1 as [st1|rc|].
      * apply IH in Hrun. destruct Hrun as [new [Ht' Hall]].
        eexists. split; [rewrite Ht', Ht, <- app_assoc; reflexivity|].
        apply Forall_app. split; assumption.
      * inversion Hrun; subst. eexists. split; [reflexivity|exact Hnew].
      * inversion Hrun; subst. eexists. split; [reflexivity|exact Hnew].
    + inversion Hrun; subst. exists []. rewrite app_nil_r. split; constructor.
Qed.

(** C4, as the code has it.  A record that ends exactly at [end_] (trailer
    start plus total length) is read and handled, and is the last one; the
    record that would start at or after [end_] is not read, neither its
    header nor its payload: the loop ends there, also when the record before
    it ends beyond [end_], as long as that end is below 2^32, where the
    [uint32_t] offset wraps around.  Every header read is at an offset below
    [end_]. *)
Theorem tlv_scan_boundary :
  forall F K SIGN hash fap end_ st t,
  (forall fuel, end_ <= off st ->
     tlv_loop F K SIGN (S fuel) hash fap end_ st t = (Val st, t)) /\
  (forall fuel,
     0 <= off st < end_ ->
     end_ <= off st + sizeof_tlv F + it_len (tlv_at F fap (off st)) < 2 ^ 32 ->
     tlv_loop F K SIGN (S (S fuel)) hash fap end_ st t
       = tlv_iteration F K SIGN hash fap st t /\
     exists tail,
       snd (tlv_iteration F K SIGN hash fap st t)
         = t ++ FlashRead TlvHeader (off st) (sizeof_tlv F)
                  (fa_status fap (off st) (sizeof_tlv F)) :: tail /\
       existsb is_header_read tail = false) /\
  (forall fuel o t',
     tlv_loop F K SIGN fuel hash fap end_ st t = (o, t') ->
     exists new, t' = t ++ new /\ Forall (header_below end_) new).
Proof.
  intros F K SIGN hash fap end_ st t. split; [|split].
  - intros fuel Hge. rewrite tlv_loop_eq.
    apply Z.ltb_ge in Hge. rewrite Hge. reflexivity.
  - intros fuel Hoff Hend.
    destruct (tlv_iteration F K SIGN hash fap st t) as [o1 t1] eqn:Eit.
    destruct (tlv_iteration_next _ _ _ _ _ _ _ _ _ Eit)
      as [Hne [Hnext [tail [Ht Htail]]]].
    split; [|exists tail; split; assumption].
    rewrite tlv_loop_eq, Eit.
    destruct (off st <? end_) eqn:Elt; [|apply Z.ltb_ge in Elt; lia].
    destruct o1 as [st1|rc|]; [|reflexivity|congruence].
    destruct (Hnext st1 eq_refl) as [Hoff1 _].
    rewrite tlv_loop_eq.
    assert (Hlast : off st1 = off st + sizeof_tlv F + it_len (tlv_at F fap (off st))).
    { rewrite Hoff1. unfold next_off. rewrite Z.add_assoc.
      apply wrap32_small. lia. }
    destruct (off st1 <? end_) eqn:Elt1; [apply Z.ltb_lt in Elt1; lia|].
    reflexivity.
  - intros fuel o t' Hrun. exact (tlv_loop_headers _ _ _ _ _ _ _ _ _ _ _ Hrun).
Qed.

Lemma tlv_scan_boundary_witness :
  let fap := Sample.flash_of Sample.signed_image Sample.healthy in
  let hash := Sample.digest in
  let last_record :=
    {| off := 84; sha256_valid := 1; valid_signature := 0; key_id := 0 |} in
  let after :=
    {| off := 344; sha256_valid := 1; valid_signature := 1; key_id := -1 |} in
  tlv_loop Sample.format Sample.primitives true 1 hash fap 344 after []
    = (Val after, []) /\
  fst (tlv_loop Sample.format Sample.primitives true 2 hash fap 344 last_record [])
    = Val after /\
  fst (tlv_loop Sample.format Sample.primitives true 2 hash fap 343 last_record [])
    = Val after.
Proof.
  intros fap hash last_record after.
  destruct (tlv_scan_boundary Sample.format Sample.primitives true hash fap 344
              after []) as [Hstop _].
  destruct (tlv_scan_boundary Sample.format Sample.primitives true hash fap 344
              last_record []) as [_ [Hexact _]].
  destruct (tlv_scan_boundary Sample.format Sample.primitives true hash fap 343
              last_record []) as [_ [Hpast _]].
  split; [|split].
  - apply (Hstop 0%nat). simpl. lia.
  - destruct (Hexact 0%nat) as [Hrun _].
    + simpl. lia.
    + split; [apply Z.leb_le|apply Z.ltb_lt]; vm_compute; reflexivity.
    + rewrite Hrun. vm_compute. reflexivity.
  - destruct (Hpast 0%nat) as [Hrun _].
    + simpl. lia.
    + split; [apply Z.leb_le|apply Z.ltb_lt]; vm_compute; reflexivity.
    + rewrite Hrun. vm_compute. reflexivity.
Defined.

(** C4 as stated fails when the end of a record is 2^32 or more: the record
    at [2^32 - 8] with a payload of 100 bytes ends beyond the end of the
    trailer at [2^32 - 3], the offset wraps around to 96, and the loop goes
    on and reads a header there. *)
Lemma tlv_scan_wraps_around :
  let fap := Sample.wrapping_flash in
  let st := {| off := 2 ^ 32 - 8; sha256_valid := 0; valid_signature := 0;
               key_id := -1 |} in
  let end_ := 2 ^ 32 - 3 in
  off st < end_ /\
  end_ < off st + sizeof_tlv Sample.format
         + it_len (tlv_at Sample.format fap (off st)) /\
  forall fuel,
    In (FlashRead TlvHeader 96 4 0)
       (snd (tlv_loop Sample.format Sample.primitives true (S (S fuel))
               Sample.digest fap end_ st [])).
Proof.
  intros fap st end_.
  split; [reflexivity|]. split; [reflexivity|]. intros fuel.
  rewrite (tlv_loop_turn Sample.format Sample.primitives true Sample.digest fap
             (S fuel) end_ st []) by reflexivity.
  rewrite (tlv_record_other Sample.format Sample.primitives true Sample.digest
             fap st)
    by (try right; try split; by_computation).
  rewrite (tlv_loop_turn Sample.format Sample.primitives true Sample.digest fap
             fuel end_) by reflexivity.
  rewrite (tlv_record_other Sample.format Sample.primitives true Sample.digest
             fap)
    by (try right; try split; by_computation).
  match goal with
  | |- In _ (snd (tlv_loop ?F ?K ?S ?f ?h ?fa ?e ?s ?t)) =>
      destruct (tlv_loop F K S f h fa e s t) as [o t'] eqn:Erun;
      destruct (tlv_loop_headers _ _ _ _ _ _ _ _ _ _ _ Erun) as [new [Ht _]]
  end.
  simpl snd. rewrite Ht. apply in_or_app. left. right. left. reflexivity.
Qed.

(** C5.  A digest record whose length is not 32, or whose payload differs
    from the computed digest in some byte, ends the validation at once with
    the result [-1]; a payload equal to the digest byte for byte sets
    [sha256_valid] and the traversal goes on. *)
Theorem digest_record_checked :
  forall F K SIGN hash fap fuel end_ st t,
  off st < end_ ->
  digest_record_at F fap (off st) ->
  let tlv := tlv_at F fap (off st) in
  let o := payload_off F (off st) in
  let payload := read_bytes (fa_data fap) o 32 in
  let t1 := t ++ [header_read F (off st)] in
  let t2 := t1 ++ [FlashRead DigestPayload o 32 0] in
  (it_len tlv <> 32 ->
   tlv_loop F K SIGN (S fuel) hash fap end_ st t = (Return (-1), t1)) /\
  (it_len tlv = 32 -> fa_status fap o 32 = 0 ->
   (exists i, (i < 32)%nat /\ nth i hash 0 <> nth i payload 0) ->
   tlv_loop F K SIGN (S fuel) hash fap end_ st t = (Return (-1), t2)) /\
  (it_len tlv = 32 -> fa_status fap o 32 = 0 ->
   (forall i, (i < 32)%nat -> nth i hash 0 = nth i payload 0) ->
   tlv_loop F K SIGN (S fuel) hash fap end_ st t =
   tlv_loop F K SIGN fuel hash fap end_
     (set_off (set_sha256_valid st 1) (next_off F fap (off st))) t2).
Proof.
  intros F K SIGN hash fap fuel end_ st t Hlt [Hst Hty] tlv o payload t1 t2.
  rewrite (tlv_loop_turn F K SIGN hash fap fuel end_ st t Hlt Hst).
  rewrite (tlv_record_digest F K SIGN hash fap st _ _ Hty).
  fold tlv. cbv zeta. fold o. fold payload. unfold header_read in t1. fold t1.
  split; [|split].
  - intros Hlen. apply Z.eqb_neq in Hlen. rewrite Hlen. reflexivity.
  - intros Hlen Hread [i [Hi Hdiff]].
    rewrite Hlen, Hread. simpl Z.eqb. cbv iota.
    destruct (memcmp hash payload 32 =? 0) eqn:Ecmp; [|reflexivity].
    exfalso. apply Hdiff. apply Z.eqb_eq in Ecmp.
    apply (proj1 (memcmp_zero_iff 32 hash payload) Ecmp). exact Hi.
  - intros Hlen Hread Hsame.
    rewrite Hlen, Hread. simpl Z.eqb. cbv iota.
    rewrite (proj2 (memcmp_zero_iff 32 hash payload) Hsame). reflexivity.
Qed.

Lemma digest_record_checked_witness :
  let fap := Sample.flash_of Sample.signed_image Sample.healthy in
  let st := {| off := 12; sha256_valid := 0; valid_signature := 0; key_id := -1 |} in
  fst (tlv_loop Sample.format Sample.primitives true 1 (repeat 0 32) fap 344 st [])
    = Return (-1) /\
  tlv_loop Sample.format Sample.primitives true 5 Sample.digest fap 344 st [] =
  tlv_loop Sample.format Sample.primitives true 4 Sample.digest fap 344
    {| off := 48; sha256_valid := 1; valid_signature := 0; key_id := -1 |}
    [FlashRead TlvHeader 12 4 0; FlashRead DigestPayload 16 32 0].
Proof.
  intros fap st.
  assert (Hrec : digest_record_at Sample.format fap (off st))
    by (split; by_computation).
  assert (Hlt : off st < 344) by (simpl; lia).
  assert (Hlen : it_len (tlv_at Sample.format fap (off st)) = 32) by by_computation.
  assert (Hread : fa_status fap (payload_off Sample.format (off st)) 32 = 0)
    by by_computation.
  split.
  - destruct (digest_record_checked Sample.format Sample.primitives true
                (repeat 0 32) fap 0 344 st [] Hlt Hrec) as [_ [Hdiff _]].
    rewrite (Hdiff Hlen Hread); [reflexivity|].
    exists 0%nat. split; [lia|by_computation].
  - destruct (digest_record_checked Sample.format Sample.primitives true
                Sample.digest fap 4 344 st [] Hlt Hrec) as [_ [_ Hsame]].
    rewrite (Hsame Hlen Hread); [reflexivity|].
    intros i Hi.
    do 32 (destruct i as [|i]; [vm_compute; reflexivity|]). lia.
Defined.

(** C6.  A signature record met with a pending key, whose length is not the
    256 bytes of RSA-2048 or exceeds the 256 byte buffer, is rejected with
    [-1]; after its header nothing is read and the signature primitive is not
    called. *)
Theorem malformed_signature_rejected :
  forall F K hash fap fuel end_ st t,
  off st < end_ ->
  sig_record_at F fap (off st) ->
  0 <= key_id st < bootutil_key_cnt K ->
  it_len (tlv_at F fap (off st)) <> 256 \/ it_len (tlv_at F fap (off st)) > 256 ->
  tlv_loop F K true (S fuel) hash fap end_ st t
    = (Return (-1), t ++ [header_read F (off st)]) /\
  existsb is_verify [header_read F (off st)] = false.
Proof.
  intros F K hash fap fuel end_ st t Hlt [Hst [Hns [Hnk Hty]]] Hkey Hlen.
  split; [|reflexivity].
  rewrite (tlv_loop_turn F K true hash fap fuel end_ st t Hlt Hst).
  rewrite (tlv_record_sig F K true hash fap st _ _ eq_refl Hns Hnk Hty).
  assert (Hin : (key_id st <? 0) || (key_id st >=? bootutil_key_cnt K) = false).
  { apply orb_false_iff. split; [apply Z.ltb_ge; lia|].
    rewrite Z.geb_leb. apply Z.leb_gt. lia. }
  rewrite Hin.
  assert (Hbad : negb (it_len (tlv_at F fap (off st)) =? 256)
                 || (it_len (tlv_at F fap (off st)) >? 256) = true).
  { apply orb_true_iff. destruct Hlen as [Hne|Hgt].
    - left. apply negb_true_iff, Z.eqb_neq. exact Hne.
    - right. apply Z.gtb_lt. lia. }
  rewrite Hbad. reflexivity.
Qed.

Lemma malformed_signature_rejected_witness :
  let fap := Sample.flash_of Sample.short_sig_image Sample.healthy in
  let st := {| off := 84; sha256_valid := 1; valid_signature := 0; key_id := 0 |} in
  tlv_loop Sample.format Sample.primitives true 1 Sample.digest fap 343 st []
    = (Return (-1), [FlashRead TlvHeader 84 4 0]).
Proof.
  intros fap st.
  destruct (malformed_signature_rejected Sample.format Sample.primitives
              Sample.digest fap 0 343 st []) as [Hrun _].
  - simpl. lia.
  - repeat split; by_computation.
  - split; by_computation.
  - left. by_computation.
  - exact Hrun.
Defined.

(** A key-identifier record with its lookup, as two calls and a new pending
    key. *)
Lemma tlv_loop_keyhash : forall F K hash fap fuel end_ st t,
  off st < end_ ->
  keyhash_record_at F fap (off st) ->
  let o := off st in
  let len := it_len (tlv_at F fap o) in
  let k := find_key_from K (bootutil_keys K) 0 (payload_at F fap o) (wrap8 len) in
  tlv_loop F K true (S fuel) hash fap end_ st t =
  tlv_loop F K true fuel hash fap end_
    {| off := next_off F fap o; sha256_valid := sha256_valid st;
       valid_signature := valid_signature st; key_id := k |}
    (t ++ [header_read F o; FlashRead KeyHashPayload (payload_off F o) len 0;
           FindKey (payload_at F fap o) (wrap8 len) k]).
Proof.
  intros F K hash fap fuel end_ st t Hlt [Hst [Hns [Hty [Hlen Hread]]]] o len k.
  rewrite (tlv_loop_turn F K true hash fap fuel end_ st t Hlt Hst).
  rewrite (tlv_record_keyhash F K true hash fap st _ _ eq_refl Hns Hty).
  fold o. fold len.
  assert (Hle : (len >? 32) = false)
    by (rewrite Z.gtb_ltb; apply Z.ltb_ge; exact Hlen).
  rewrite Hle. cbv zeta. fold o in Hread. fold len in Hread. rewrite Hread.
  simpl Z.eqb. cbv iota. unfold header_read. rewrite <- !app_assoc. reflexivity.
Qed.

(** C7.  After a key-identifier record that matches no key of the table, the
    signature record that follows is passed over: nothing but its header is
    read, the signature primitive is not called, and the traversal goes on
    with the next record.  A later key-identifier record that matches,
    followed by a signature that verifies, sets [valid_signature]; the flag
    stays set to the end of the traversal, where the verdict is 0. *)
Theorem unmatched_key_skips_signature :
  forall F K hash fap end_,
  (forall fuel st t,
     let o1 := off st in
     let o2 := next_off F fap o1 in
     let len1 := it_len (tlv_at F fap o1) in
     o1 < end_ -> keyhash_record_at F fap o1 ->
     no_key_matches K (payload_at F fap o1) (wrap8 len1) ->
     o2 < end_ -> sig_record_at F fap o2 ->
     tlv_loop F K true (S (S fuel)) hash fap end_ st t =
     tlv_loop F K true fuel hash fap end_
       {| off := next_off F fap o2; sha256_valid := sha256_valid st;
          valid_signature := valid_signature st; key_id := -1 |}
       (t ++ [header_read F o1;
              FlashRead KeyHashPayload (payload_off F o1) len1 0;
              FindKey (payload_at F fap o1) (wrap8 len1) (-1);
              header_read F o2])) /\
  (forall fuel st t k,
     let o3 := off st in
     let o4 := next_off F fap o3 in
     let len3 := it_len (tlv_at F fap o3) in
     o3 < end_ -> keyhash_record_at F fap o3 ->
     find_key_from K (bootutil_keys K) 0 (payload_at F fap o3) (wrap8 len3) = k ->
     k <> -1 ->
     o4 < end_ -> sig_record_at F fap o4 ->
     it_len (tlv_at F fap o4) = 256 ->
     fa_status fap (payload_off F o4) 256 = 0 ->
     verify_sig K hash 32 (payload_at F fap o4) 256 k = 0 ->
     tlv_loop F K true (S (S fuel)) hash fap end_ st t =
     tlv_loop F K true fuel hash fap end_
       {| off := next_off F fap o4; sha256_valid := sha256_valid st;
          valid_signature := 1; key_id := -1 |}
       (t ++ [header_read F o3;
              FlashRead KeyHashPayload (payload_off F o3) len3 0;
              FindKey (payload_at F fap o3) (wrap8 len3) k;
              header_read F o4;
              FlashRead SigPayload (payload_off F o4) 256 0;
              VerifySig hash 32 (payload_at F fap o4) 256 k 0])) /\
  (forall fuel st t st' t',
     tlv_loop F K true fuel hash fap end_ st t = (Val st', t') ->
     (sha256_valid st = 1 -> sha256_valid st' = 1) /\
     (valid_signature st = 1 -> valid_signature st' = 1)) /\
  (forall sram fuel hdr tmp_buf_sz seed seed_len out_hash h st t,
     img_validate_scan F K true sram fuel hdr fap tmp_buf_sz seed seed_len
       out_hash [] = (Val (h, st), t) ->
     sha256_valid st = 1 -> valid_signature st = 1 ->
     bootutil_img_validate F K true sram fuel hdr fap tmp_buf_sz seed seed_len
       out_hash [] = (Return 0, t)).
Proof.
  intros F K hash fap end_. split; [|split; [|split]].
  - intros fuel st t o1 o2 len1 Hlt1 Hrec1 Hnone Hlt2 [Hst2 [Hns2 [Hnk2 Hty2]]].
    rewrite (tlv_loop_keyhash F K hash fap (S fuel) end_ st t Hlt1 Hrec1).
    fold o1. fold len1.
    rewrite (find_key_from_none K (bootutil_keys K) 0 _ _ Hnone).
    rewrite tlv_loop_turn by (simpl off; assumption). simpl off. fold o2.
    rewrite (tlv_record_sig F K true hash fap _ _ _ eq_refl Hns2 Hnk2 Hty2).
    simpl key_id. simpl orb. cbv iota.
    unfold header_read, set_off, set_key_id. simpl.
    rewrite <- !app_assoc. reflexivity.
  - intros fuel st t k o3 o4 len3 Hlt3 Hrec3 Hk Hkne Hlt4
           [Hst4 [Hns4 [Hnk4 Hty4]]] Hlen4 Hread4 Hver.
    rewrite (tlv_loop_keyhash F K hash fap (S fuel) end_ st t Hlt3 Hrec3).
    fold o3. fold len3. rewrite Hk.
    rewrite tlv_loop_turn by (simpl off; assumption). simpl off. fold o4.
    rewrite (tlv_record_sig F K true hash fap _ _ _ eq_refl Hns4 Hnk4 Hty4).
    simpl key_id.
    assert (Hin : (k <? 0) || (k >=? bootutil_key_cnt K) = false).
    { destruct (find_key_from_range K (bootutil_keys K) 0 (payload_at F fap o3)
                  (wrap8 len3)) as [Hr|Hr]; rewrite Hk in Hr; [contradiction|].
      apply orb_false_iff. split; [apply Z.ltb_ge; lia|].
      rewrite Z.geb_leb. apply Z.leb_gt. unfold bootutil_key_cnt. lia. }
    rewrite Hin, Hlen4. simpl negb. simpl orb. cbv iota zeta. simpl off.
    rewrite Hread4. simpl Z.eqb. cbv iota.
    unfold payload_at in Hver. rewrite Hlen4 in Hver. rewrite Hver.
    simpl Z.eqb. cbv iota.
    unfold header_read, payload_at, set_off, set_key_id, set_valid_signature.
    simpl. rewrite Hlen4. rewrite <- !app_assoc. reflexivity.
  - intros fuel st t st' t' Hrun.
    exact (tlv_loop_flags F K true hash fap fuel end_ st t st' t' Hrun).
  - intros sram fuel hdr tmp_buf_sz seed seed_len out_hash h st t Hscan Hsha Hsig.
    rewrite bootutil_img_validate_eq, Hscan, Hsha, Hsig. reflexivity.
Qed.

Lemma unmatched_key_skips_signature_witness :
  let fap := Sample.flash_of Sample.two_signers_image Sample.healthy in
  let st := {| off := 48; sha256_valid := 1; valid_signature := 0; key_id := -1 |} in
  (exists t,
     tlv_loop Sample.format Sample.primitives true 5 Sample.digest fap 640 st []
     = (Val {| off := 640; sha256_valid := 1; valid_signature := 1; key_id := -1 |}, t)
     /\ map is_verify t
        = [false; false; false; false; false; false; false; false; false; true]) /\
  exists t,
    bootutil_img_validate Sample.format Sample.primitives true Sample.sram 400
      Sample.hdr fap 3 None 0 false [] = (Return 0, t).
Proof.
  intros fap st.
  destruct (unmatched_key_skips_signature Sample.format Sample.primitives
              Sample.digest fap 640) as [Hskip [Hmatch [_ Haccept]]].
  split.
  - eexists. split.
    + rewrite (Hskip 3%nat st []).
      * rewrite (Hmatch 1%nat _ _ 1).
        -- run_lhs.
        -- by_computation.
        -- repeat split; by_computation.
        -- by_computation.
        -- discriminate.
        -- by_computation.
        -- repeat split; by_computation.
        -- by_computation.
        -- by_computation.
        -- by_computation.
      * by_computation.
      * repeat split; by_computation.
      * repeat constructor; by_computation.
      * by_computation.
      * repeat split; by_computation.
    + vm_compute. reflexivity.
  - eexists. eapply Haccept.
    + run_lhs.
    + reflexivity.
    + reflexivity.
Defined.

(** C8.  Every signature record that is handled, whether its signature is
    accepted, refused or passed over, leaves [key_id] at [-1]; a
    key-identifier record leaves the answer of the lookup, [-1] when no key
    matches.  Hence in every run each call of the signature primitive uses
    the key left by a lookup made since the previous call: no lookup serves
    two signatures. *)
Theorem pending_key_consumed :
  forall F K,
  (forall hash fap st tlv t st' t',
     it_type tlv <> IMAGE_TLV_SHA256 F ->
     it_type tlv <> IMAGE_TLV_KEYHASH F ->
     it_type tlv = EXPECTED_SIG_TLV F ->
     tlv_record F K true hash fap st tlv t = (Val st', t') ->
     key_id st' = -1) /\
  (forall hash fap st tlv t st' t',
     it_type tlv <> IMAGE_TLV_SHA256 F ->
     it_type tlv = IMAGE_TLV_KEYHASH F ->
     tlv_record F K true hash fap st tlv t = (Val st', t') ->
     let buf := read_bytes (fa_data fap) (payload_off F (off st)) (it_len tlv) in
     key_id st' = find_key_from K (bootutil_keys K) 0 buf (wrap8 (it_len tlv)) /\
     (no_key_matches K buf (wrap8 (it_len tlv)) -> key_id st' = -1)) /\
  (forall SIGN sram fuel hdr fap tmp_buf_sz seed seed_len out_hash,
     consume_keys
       (snd (bootutil_img_validate F K SIGN sram fuel hdr fap tmp_buf_sz seed
               seed_len out_hash [])) None <> None).
Proof.
  intros F K. split; [|split].
  - intros hash fap st tlv t st' t' Hns Hnk Hty Hrun.
    rewrite (tlv_record_sig F K true hash fap st tlv t eq_refl Hns Hnk Hty) in Hrun.
    destruct ((key_id st <? 0) || (key_id st >=? bootutil_key_cnt K));
      [inversion Hrun; reflexivity|].
    destruct (negb (it_len tlv =? 256) || (it_len tlv >? 256)); [discriminate|].
    cbv zeta in Hrun.
    destruct (fa_status fap (payload_off F (off st)) (it_len tlv) =? 0);
      [|discriminate].
    inversion Hrun. reflexivity.
  - intros hash fap st tlv t st' t' Hns Hty Hrun buf.
    rewrite (tlv_record_keyhash F K true hash fap st tlv t eq_refl Hns Hty) in Hrun.
    destruct (it_len tlv >? 32); [discriminate|]. cbv zeta in Hrun.
    destruct (fa_status fap (payload_off F (off st)) (it_len tlv) =? 0);
      [|discriminate].
    inversion Hrun. simpl key_id. fold buf. split; [reflexivity|].
    intros Hnone. apply find_key_from_none. exact Hnone.
  - intros SIGN sram fuel hdr fap tmp_buf_sz seed seed_len out_hash.
    apply (bootutil_img_validate_trace_ok F K SIGN sram fuel hdr fap tmp_buf_sz
             seed seed_len out_hash).
Qed.

Lemma pending_key_consumed_witness :
  let fap := Sample.flash_of Sample.two_signers_image Sample.healthy in
  let record := tlv_record Sample.format Sample.primitives true Sample.digest fap in
  let at_ o k := {| off := o; sha256_valid := 1; valid_signature := 0; key_id := k |} in
  (exists st' t',
     record (at_ 380 1) (tlv_at Sample.format fap 380) [] = (Val st', t') /\
     existsb is_verified t' = true /\ key_id st' = -1) /\
  (exists st' t',
     record (at_ 84 (-1)) (tlv_at Sample.format fap 84) [] = (Val st', t') /\
     t' = [] /\ key_id st' = -1) /\
  (exists st' t',
     record (at_ 48 1) (tlv_at Sample.format fap 48) [] = (Val st', t') /\
     key_id st' = -1).
Proof.
  intros fap record at_. subst record at_. cbv beta.
  destruct (pending_key_consumed Sample.format Sample.primitives)
    as [Hsig [Hkey _]].
  split; [|split].
  - eexists. eexists.
    assert (Hrun : tlv_record Sample.format Sample.primitives true Sample.digest fap
              {| off := 380; sha256_valid := 1; valid_signature := 0; key_id := 1 |}
              (tlv_at Sample.format fap 380) [] = _) by run_lhs.
    split; [exact Hrun|]. split; [vm_compute; reflexivity|].
    apply (Hsig Sample.digest fap _ (tlv_at Sample.format fap 380) []
             _ _ ltac:(by_computation) ltac:(by_computation)
             ltac:(by_computation) Hrun).
  - eexists. eexists.
    assert (Hrun : tlv_record Sample.format Sample.primitives true Sample.digest fap
              {| off := 84; sha256_valid := 1; valid_signature := 0; key_id := -1 |}
              (tlv_at Sample.format fap 84) [] = _) by run_lhs.
    split; [exact Hrun|]. split; [reflexivity|].
    apply (Hsig Sample.digest fap _ (tlv_at Sample.format fap 84) []
             _ _ ltac:(by_computation) ltac:(by_computation)
             ltac:(by_computation) Hrun).
  - eexists. eexists.
    assert (Hrun : tlv_record Sample.format Sample.primitives true Sample.digest fap
              {| off := 48; sha256_valid := 1; valid_signature := 0; key_id := 1 |}
              (tlv_at Sample.format fap 48) [] = _) by run_lhs.
    split; [exact Hrun|].
    apply (Hkey Sample.digest fap _ (tlv_at Sample.format fap 48) []
             _ _ ltac:(by_computation) ltac:(by_computation) Hrun).
    repeat constructor; by_computation.
Defined.

(** C10.  In every run of [bootutil_img_validate] each call of
    [bootutil_verify_sig] is made with a key index [0 <= key_id <
    bootutil_key_cnt]; a signature record met with an index outside this
    range is passed over, without a read and without a call. *)
Theorem verify_sig_key_index_valid :
  forall F K,
  (forall SIGN sram fuel hdr fap tmp_buf_sz seed seed_len out_hash,
     Forall (verify_in_range K)
       (snd (bootutil_img_validate F K SIGN sram fuel hdr fap tmp_buf_sz seed
               seed_len out_hash []))) /\
  (forall hash fap st tlv t,
     it_type tlv <> IMAGE_TLV_SHA256 F ->
     it_type tlv <> IMAGE_TLV_KEYHASH F ->
     it_type tlv = EXPECTED_SIG_TLV F ->
     key_id st < 0 \/ bootutil_key_cnt K <= key_id st ->
     tlv_record F K true hash fap st tlv t = (Val (set_key_id st (-1)), t)).
Proof.
  intros F K. split.
  - intros SIGN sram fuel hdr fap tmp_buf_sz seed seed_len out_hash.
    apply (bootutil_img_validate_trace_ok F K SIGN sram fuel hdr fap tmp_buf_sz
             seed seed_len out_hash).
  - intros hash fap st tlv t Hns Hnk Hty Hout.
    rewrite (tlv_record_sig F K true hash fap st tlv t eq_refl Hns Hnk Hty).
    assert (Hskip : (key_id st <? 0) || (key_id st >=? bootutil_key_cnt K) = true).
    { apply orb_true_iff. destruct Hout as [Hneg|Hbig].
      - left. apply Z.ltb_lt. exact Hneg.
      - right. rewrite Z.geb_leb. apply Z.leb_le. exact Hbig. }
    rewrite Hskip. reflexivity.
Qed.

Lemma verify_sig_key_index_valid_witness :
  let fap := Sample.flash_of Sample.signed_image Sample.healthy in
  let st := {| off := 84; sha256_valid := 1; valid_signature := 0; key_id := 2 |} in
  tlv_record Sample.format Sample.primitives true Sample.digest fap st
    (tlv_at Sample.format fap 84) []
  = (Val {| off := 84; sha256_valid := 1; valid_signature := 0; key_id := -1 |}, []).
Proof.
  intros fap st.
  destruct (verify_sig_key_index_valid Sample.format Sample.primitives)
    as [_ Hskip].
  apply (Hskip Sample.digest fap st (tlv_at Sample.format fap 84) []).
  - by_computation.
  - by_computation.
  - by_computation.
  - right. by_computation.
Defined.

(** * Further properties of the code *)

(** ** bootutil_find_key *)

(** X1.  Called with a length of at most 32, as its assertion demands,
    [bootutil_find_key] answers the index of the first key of the table
    whose SHA-256 digest starts with the [keyhash_len] bytes given, and [-1]
    when the digest of no key does; the index is below [bootutil_key_cnt]. *)
Theorem bootutil_find_key_first_match :
  forall K keyhash keyhash_len t,
  let len := wrap8 keyhash_len in
  let matches j :=
    memcmp (sha256 K (nth (Z.to_nat j) (bootutil_keys K) [])) keyhash
           (Z.to_nat len) = 0 in
  len <= 32 ->
  exists i,
    bootutil_find_key K keyhash keyhash_len t
      = (Val i, t ++ [FindKey keyhash len i]) /\
    ((i = -1 /\ no_key_matches K keyhash len) \/
     (0 <= i < bootutil_key_cnt K /\ matches i /\
      forall j, 0 <= j < i -> ~ matches j)).
Proof.
  intros K keyhash keyhash_len t len matches _.
  exists (find_key_from K (bootutil_keys K) 0 keyhash len).
  split; [reflexivity|].
  destruct (find_key_from_first K (bootutil_keys K) 0 keyhash len)
    as [[Hr Hall]|[n [Hr [Hn [Hmatch Hfirst]]]]].
  - left. split; assumption.
  - right. rewrite Hr. unfold bootutil_key_cnt, matches.
    split; [lia|]. split.
    + replace (Z.to_nat (0 + Z.of_nat n)) with n by lia. exact Hmatch.
    + intros j Hj. replace j with (Z.of_nat (Z.to_nat j)) in Hj by lia.
      apply Hfirst. lia.
Qed.

Lemma bootutil_find_key_first_match_witness :
  exists i,
    fst (bootutil_find_key Sample.primitives (Sample.checksum Sample.key1) 32 [])
      = Val i /\
    -1 <= i < 2.
Proof.
  destruct (bootutil_find_key_first_match Sample.primitives
              (Sample.checksum Sample.key1) 32 [])
    as [i [Hrun Hi]]; [apply Z.leb_le; reflexivity|].
  exists i. rewrite Hrun. split; [reflexivity|].
  destruct Hi as [[Hi _]|[Hi _]]; [lia|].
  unfold bootutil_key_cnt in Hi. simpl in Hi. lia.
Defined.

(** X2.  A key-identifier record with an empty payload selects key 0 of a
    non-empty table: the lookup compares zero bytes, which agree with the
    digest of the first key. *)
Theorem empty_keyhash_selects_first_key :
  forall F K hash fap st tlv t,
  it_type tlv <> IMAGE_TLV_SHA256 F ->
  it_type tlv = IMAGE_TLV_KEYHASH F ->
  it_len tlv = 0 ->
  fa_status fap (payload_off F (off st)) 0 = 0 ->
  bootutil_keys K <> [] ->
  tlv_record F K true hash fap st tlv t
  = (Val (set_key_id st 0),
     t ++ [FlashRead KeyHashPayload (payload_off F (off st)) 0 0;
           FindKey [] 0 0]).
Proof.
  intros F K hash fap st tlv t Hns Hty Hlen Hread Hkeys.
  rewrite (tlv_record_keyhash F K true hash fap st tlv t eq_refl Hns Hty).
  rewrite Hlen. simpl Z.gtb. cbv iota zeta. rewrite Hread. simpl Z.eqb. cbv iota.
  assert (Hnil : read_bytes (fa_data fap) (payload_off F (off st)) 0 = [])
    by reflexivity.
  rewrite Hnil. change (wrap8 0) with 0.
  destruct (bootutil_keys K) as [|key keys]; [congruence|].
  simpl find_key_from. rewrite <- app_assoc. reflexivity.
Qed.

Lemma empty_keyhash_selects_first_key_witness :
  let fap := Sample.flash_of Sample.empty_keyhash_image Sample.healthy in
  let st := {| off := 48; sha256_valid := 1; valid_signature := 0; key_id := -1 |} in
  tlv_record Sample.format Sample.primitives true Sample.digest fap st
    (tlv_at Sample.format fap 48) []
  = (Val {| off := 48; sha256_valid := 1; valid_signature := 0; key_id := 0 |},
     [FlashRead KeyHashPayload 52 0 0; FindKey [] 0 0]) /\
  fst (bootutil_img_validate Sample.format Sample.primitives true Sample.sram 400
         Sample.hdr fap 3 None 0 false []) = Return 0.
Proof.
  intros fap st. split.
  - apply (empty_keyhash_selects_first_key Sample.format Sample.primitives
             Sample.digest fap st (tlv_at Sample.format fap 48) []);
      by_computation.
  - vm_compute. reflexivity.
Defined.

(** ** bootutil_img_hash *)

Lemma read_bytes_ext_in : forall f g off len,
  (forall o, off <= o < off + len -> f o = g o) ->
  read_bytes f off len = read_bytes g off len.
Proof.
  intros f g off len H. unfold read_bytes. apply map_ext_in.
  intros i Hi. apply in_seq in Hi. apply H. lia.
Qed.

(** An early [return] of the block loop comes right after a flash read that
    failed. *)
Lemma img_hash_loop_failed_read :
  forall K sram fuel hdr fap tmp_buf_sz size off ctx t rc t',
  img_hash_loop K sram fuel hdr fap tmp_buf_sz size off ctx t = (Return rc, t') ->
  exists fa pre o l,
    fap = Some fa /\ fa_status fa o l <> 0 /\
    t' = t ++ pre ++ [FlashRead ImageBlock o l (fa_status fa o l)].
Proof.
  intros K sram fuel hdr fap tmp_buf_sz size.
  induction fuel as [|fuel IH]; intros off ctx t rc t' Hrun; [discriminate|].
  simpl in Hrun. destruct (off <? size); [|discriminate].
  unfold bind at 1 in Hrun. rewrite read_block_eq in Hrun.
  destruct fap as [fa|] eqn:Efap.
  - destruct (fa_status fa off _ =? 0) eqn:Est.
    + unfold bootutil_sha256_update, bind, emit, ret in Hrun.
      apply IH in Hrun. destruct Hrun as [fa' [pre [o [l [Hfa [Hst Ht]]]]]].
      match type of Ht with
      | _ = ((_ ++ [?a]) ++ [?b]) ++ _ => exists fa', (a :: b :: pre), o, l
      end.
      split; [exact Hfa|]. split; [exact Hst|].
      rewrite Ht. rewrite <- !app_assoc. reflexivity.
    + inversion Hrun; subst. apply Z.eqb_neq in Est.
      exists fa, [], off. eexists. split; [reflexivity|]. split; [exact Est|].
      reflexivity.
  - unfold bootutil_sha256_update, bind, emit, ret in Hrun.
    apply IH in Hrun. destruct Hrun as [fa' [pre [o [l [Hfa _]]]]]. discriminate.
Qed.

(** The loop on a list of blocks whose reads succeed up to a block whose read
    fails. *)
Lemma img_hash_loop_fails_at :
  forall K sram hdr fa tmp_buf_sz size b post pre off ctx t fuel,
  blocks tmp_buf_sz size off (pre ++ b :: post) ->
  0 <= off -> size < 2 ^ 32 ->
  Forall (fun p => fa_status fa (fst p) (snd p) = 0) pre ->
  fa_status fa (fst b) (snd b) <> 0 ->
  (length pre < fuel)%nat ->
  img_hash_loop K sram fuel hdr (Some fa) tmp_buf_sz size off ctx t
  = (Return (-1),
     t ++ flat_map (block_calls sram hdr (Some fa)) pre
       ++ [FlashRead ImageBlock (fst b) (snd b) (fa_status fa (fst b) (snd b))]).
Proof.
  intros K sram hdr fa tmp_buf_sz size b post.
  induction pre as [|p pre IH]; intros off ctx t fuel Hbl Hoff Hsz Hpre Hb Hfuel;
    (destruct fuel as [|fuel]; [simpl in Hfuel; lia|]);
    inversion Hbl as [|off' bl' Hlt Hpos Hrest]; subst;
    cbn [img_hash_loop];
    (destruct (off <? size) eqn:Elt; [|apply Z.ltb_ge in Elt; lia]);
    rewrite blk_sz_eq by lia; unfold bind at 1; rewrite read_block_eq.
  - simpl in Hb. apply Z.eqb_neq in Hb. rewrite Hb. reflexivity.
  - inversion Hpre as [|? ? Hp Hpre']; subst. simpl in Hp. rewrite Hp.
    simpl Z.eqb. cbv iota.
    unfold bootutil_sha256_update, bind, emit, ret. cbv beta iota.
    rewrite wrap32_small by lia.
    rewrite (IH _ _ _ fuel Hrest); try assumption; try lia;
      [|simpl in Hfuel; lia].
    simpl flat_map. unfold block_calls at 2. simpl fst. simpl snd.
    rewrite <- !app_assoc. reflexivity.
Qed.

(** X3.  When a block read fails, [bootutil_img_hash] returns [-1] whatever
    the driver's code, leaves [hash_result] as it was and stops there: the
    failed read is its last call.  It returns a non-zero value in no other
    case. *)
Theorem bootutil_img_hash_read_failure :
  forall K sram hdr fap tmp_buf_sz hash_result seed seed_len,
  (forall fuel rc hash t,
     bootutil_img_hash K sram fuel hdr fap tmp_buf_sz hash_result seed seed_len []
       = (Val (rc, hash), t) ->
     rc <> 0 ->
     rc = -1 /\ hash = hash_result /\
     exists fa pre o l,
       fap = Some fa /\ fa_status fa o l <> 0 /\
       t = pre ++ [FlashRead ImageBlock o l (fa_status fa o l)]) /\
  (forall fa pre b post fuel,
     fap = Some fa ->
     blocks tmp_buf_sz (wrap32 (ih_img_size hdr + ih_hdr_size hdr)) 0
            (pre ++ b :: post) ->
     Forall (fun p => fa_status fa (fst p) (snd p) = 0) pre ->
     fa_status fa (fst b) (snd b) <> 0 ->
     (length pre < fuel)%nat ->
     bootutil_img_hash K sram fuel hdr fap tmp_buf_sz hash_result seed seed_len []
     = (Val (-1, hash_result),
        seed_calls seed seed_len ++ flat_map (block_calls sram hdr fap) pre
        ++ [FlashRead ImageBlock (fst b) (snd b) (fa_status fa (fst b) (snd b))])).
Proof.
  intros K sram hdr fap tmp_buf_sz hash_result seed seed_len. split.
  - intros fuel rc hash t Hrun Hrc. rewrite bootutil_img_hash_eq in Hrun.
    destruct (img_hash_loop _ _ _ _ _ _ _ _ _ _) as [[ctx|rc'|] t'] eqn:Eloop;
      inversion Hrun; subst; clear Hrun; [congruence|].
    split; [eapply img_hash_loop_return; exact Eloop|]. split; [reflexivity|].
    destruct (img_hash_loop_failed_read _ _ _ _ _ _ _ _ _ _ _ _ Eloop)
      as [fa [pre [o [l [Hfa [Hst Ht]]]]]].
    exists fa, (seed_calls seed seed_len ++ pre), o, l.
    split; [exact Hfa|]. split; [exact Hst|].
    rewrite Ht. simpl. rewrite <- app_assoc. reflexivity.
  - intros fa pre b post fuel Hfa Hbl Hpre Hb Hfuel. subst fap.
    rewrite bootutil_img_hash_eq.
    pose proof (wrap32_range (ih_img_size hdr + ih_hdr_size hdr)) as Hsz.
    rewrite (img_hash_loop_fails_at K sram hdr fa tmp_buf_sz _ b post pre 0 _ _
               fuel Hbl ltac:(lia) ltac:(lia) Hpre Hb Hfuel).
    reflexivity.
Qed.

Lemma bootutil_img_hash_read_failure_witness :
  let fap := Some (Sample.flash_of Sample.signed_image (Sample.fails_at 3)) in
  bootutil_img_hash Sample.primitives Sample.sram 4 Sample.hdr fap 3
    (repeat 0 32) None 0 []
  = (Val (-1, repeat 0 32),
     [FlashRead ImageBlock 0 3 0; Sha256Update [1; 2; 3];
      FlashRead ImageBlock 3 3 (-5)]).
Proof.
  intros fap.
  destruct (bootutil_img_hash_read_failure Sample.primitives Sample.sram
              Sample.hdr fap 3 (repeat 0 32) None 0) as [_ Hfails].
  apply (Hfails (Sample.flash_of Sample.signed_image (Sample.fails_at 3))
           [(0, 3)] (3, 3) [(6, 2)] 4%nat eq_refl).
  - change (wrap32 (ih_img_size Sample.hdr + ih_hdr_size Sample.hdr)) with 8.
    apply (blocks_step 3 8 0 [(3, 3); (6, 2)]); [lia|lia|].
    apply (blocks_step 3 8 3 [(6, 2)]); [lia|lia|].
    apply (blocks_step 3 8 6 []); [lia|lia|].
    apply blocks_done. lia.
  - repeat constructor.
  - by_computation.
  - simpl. lia.
Defined.

(** X4.  With a NULL [fap] (an image in SRAM) [bootutil_img_hash] cannot
    fail: whenever it returns, it returns 0, having read no flash; and with a
    buffer of one byte or more it does return. *)
Theorem bootutil_img_hash_sram_succeeds :
  forall K sram hdr tmp_buf_sz hash_result seed seed_len,
  (forall fuel rc hash t,
     bootutil_img_hash K sram fuel hdr None tmp_buf_sz hash_result seed seed_len []
       = (Val (rc, hash), t) ->
     rc = 0 /\ existsb is_flash_read t = false) /\
  (1 <= tmp_buf_sz ->
   forall fuel,
     (Z.to_nat (ceil_div (wrap32 (ih_img_size hdr + ih_hdr_size hdr)) tmp_buf_sz)
      < fuel)%nat ->
     exists hash t,
       bootutil_img_hash K sram fuel hdr None tmp_buf_sz hash_result seed
         seed_len [] = (Val (0, hash), t)).
Proof.
  intros K sram hdr tmp_buf_sz hash_result seed seed_len.
  assert (Hany : forall fuel rc hash t,
     bootutil_img_hash K sram fuel hdr None tmp_buf_sz hash_result seed seed_len []
       = (Val (rc, hash), t) ->
     rc = 0 /\ existsb is_flash_read t = false).
  { intros fuel rc hash t Hrun.
    assert (Hrc : rc = 0).
    { destruct (Z.eq_dec rc 0) as [Hz|Hnz]; [exact Hz|].
      rewrite bootutil_img_hash_eq in Hrun.
      destruct (img_hash_loop _ _ _ _ _ _ _ _ _ _) as [[ctx|rc'|] t'] eqn:Eloop;
        inversion Hrun; subst; [congruence|].
      destruct (img_hash_loop_failed_read _ _ _ _ _ _ _ _ _ _ _ _ Eloop)
        as [fa [pre [o [l [Hfa _]]]]]. discriminate. }
    split; [exact Hrc|]. subst rc.
    rewrite bootutil_img_hash_eq in Hrun.
    destruct (img_hash_loop _ _ _ _ _ _ _ _ _ _) as [[ctx|rc'|] t'] eqn:Eloop;
      inversion Hrun; subst; clear Hrun;
      [|apply img_hash_loop_return in Eloop; discriminate].
    (* the calls are those of the seed and of SRAM blocks *)
    assert (Hgen : forall fuel off c t0 c' t0',
      img_hash_loop K sram fuel hdr None tmp_buf_sz
        (wrap32 (ih_img_size hdr + ih_hdr_size hdr)) off c t0 = (Val c', t0') ->
      existsb is_flash_read t0 = false -> existsb is_flash_read t0' = false).
    { clear. induction fuel as [|fuel IH]; intros off c t0 c' t0' Hrun Ht0;
        [discriminate|].
      cbn [img_hash_loop] in Hrun.
      destruct (off <? _); [|inversion Hrun; subst; exact Ht0].
      unfold bind at 1 in Hrun. rewrite read_block_eq in Hrun.
      unfold bootutil_sha256_update, bind, emit, ret in Hrun.
      apply IH in Hrun; [exact Hrun|].
      rewrite !existsb_app, Ht0. reflexivity. }
    apply (Hgen _ _ _ _ _ _ Eloop). simpl.
    unfold seed_calls. destruct seed as [s|]; [destruct (seed_len >? 0)|];
      reflexivity. }
  split; [exact Hany|].
  intros Hcap fuel Hfuel.
  destruct (bootutil_img_hash_returns K sram hdr None tmp_buf_sz hash_result seed
              seed_len fuel [] Hcap Hfuel) as [[rc hash] [t [Hrun _]]].
  destruct (Hany fuel rc hash _ Hrun) as [Hrc _]. subst rc.
  exists hash. eexists. exact Hrun.
Qed.

Lemma bootutil_img_hash_sram_succeeds_witness :
  exists hash t,
    bootutil_img_hash Sample.primitives Sample.sram 4 Sample.hdr None 3
      (repeat 0 32) None 0 [] = (Val (0, hash), t).
Proof.
  destruct (bootutil_img_hash_sram_succeeds Sample.primitives Sample.sram
              Sample.hdr 3 (repeat 0 32) None 0) as [_ Hreturns].
  apply (Hreturns ltac:(lia) 4%nat). vm_compute. lia.
Defined.

(** Two flash areas that agree on the extent give the block loop the same
    run. *)
Lemma img_hash_loop_extent_only :
  forall K sram hdr fa1 fa2 tmp_buf_sz size,
  size < 2 ^ 32 -> 0 <= tmp_buf_sz ->
  (forall o, 0 <= o < size -> fa_data fa1 o = fa_data fa2 o) ->
  (forall o l, 0 <= o -> o + l <= size -> fa_status fa1 o l = fa_status fa2 o l) ->
  forall fuel off ctx t,
  0 <= off ->
  img_hash_loop K sram fuel hdr (Some fa1) tmp_buf_sz size off ctx t
  = img_hash_loop K sram fuel hdr (Some fa2) tmp_buf_sz size off ctx t.
Proof.
  intros K sram hdr fa1 fa2 tmp_buf_sz size Hsz Hcap Hdata Hstatus.
  induction fuel as [|fuel IH]; intros off ctx t Hoff; [reflexivity|].
  cbn [img_hash_loop]. destruct (off <? size) eqn:Elt; [|reflexivity].
  apply Z.ltb_lt in Elt. rewrite blk_sz_eq by lia.
  set (blk := Z.min (size - off) tmp_buf_sz).
  assert (Hblk : 0 <= blk <= size - off) by (unfold blk; lia).
  unfold bind at 1 3. rewrite !read_block_eq.
  rewrite <- (Hstatus off blk) by lia.
  assert (Hbytes : read_bytes (image_byte sram hdr (Some fa1)) off blk
                   = read_bytes (image_byte sram hdr (Some fa2)) off blk).
  { apply read_bytes_ext_in. intros o Ho. simpl. apply Hdata. lia. }
  rewrite <- Hbytes.
  destruct (fa_status fa1 off blk =? 0); [|reflexivity].
  unfold bootutil_sha256_update, bind, emit, ret. cbv beta iota.
  apply IH. rewrite wrap32_small by lia. lia.
Qed.

(** X5.  The digest and the calls of [bootutil_img_hash] depend on the flash
    only through the first [ih_img_size + ih_hdr_size] bytes (a [uint32_t]
    sum) and the status of the reads inside them: bytes beyond the extent,
    the trailer among them, do not count. *)
Theorem bootutil_img_hash_extent_only :
  forall K sram fuel hdr fa1 fa2 tmp_buf_sz hash_result seed seed_len t,
  0 <= tmp_buf_sz ->
  (forall o, 0 <= o < wrap32 (ih_img_size hdr + ih_hdr_size hdr) ->
     fa_data fa1 o = fa_data fa2 o) ->
  (forall o l, 0 <= o ->
     o + l <= wrap32 (ih_img_size hdr + ih_hdr_size hdr) ->
     fa_status fa1 o l = fa_status fa2 o l) ->
  bootutil_img_hash K sram fuel hdr (Some fa1) tmp_buf_sz hash_result seed seed_len t
  = bootutil_img_hash K sram fuel hdr (Some fa2) tmp_buf_sz hash_result seed seed_len t.
Proof.
  intros K sram fuel hdr fa1 fa2 tmp_buf_sz hash_result seed seed_len t
         Hcap Hdata Hstatus.
  rewrite !bootutil_img_hash_eq.
  pose proof (wrap32_range (ih_img_size hdr + ih_hdr_size hdr)) as Hsz.
  rewrite (img_hash_loop_extent_only K sram hdr fa1 fa2 tmp_buf_sz
             (wrap32 (ih_img_size hdr + ih_hdr_size hdr))
             (proj2 Hsz) Hcap Hdata Hstatus fuel 0 _ _ (Z.le_refl 0)).
  reflexivity.
Qed.

Lemma bootutil_img_hash_extent_only_witness :
  bootutil_img_hash Sample.primitives Sample.sram 4 Sample.hdr
    (Some (Sample.flash_of Sample.signed_image Sample.healthy)) 3 (repeat 0 32)
    None 0 []
  = bootutil_img_hash Sample.primitives Sample.sram 4 Sample.hdr
      (Some (Sample.flash_of Sample.bad_magic_image Sample.healthy)) 3
      (repeat 0 32) None 0 [].
Proof.
  apply bootutil_img_hash_extent_only.
  - lia.
  - intros o Ho.
    change (wrap32 (ih_img_size Sample.hdr + ih_hdr_size Sample.hdr)) with 8 in Ho.
    simpl. assert (Hcases : o = 0 \/ o = 1 \/ o = 2 \/ o = 3 \/ o = 4 \/ o = 5
                            \/ o = 6 \/ o = 7) by lia.
    repeat (destruct Hcases as [Hc|Hcases]; [subst o; reflexivity|]).
    subst o. reflexivity.
  - intros o l Ho Hl.
    change (wrap32 (ih_img_size Sample.hdr + ih_hdr_size Sample.hdr)) with 8 in Hl.
    rewrite !sample_reads_ok; try reflexivity; try assumption.
    + change (Z.of_nat (length Sample.bad_magic_image)) with 48. lia.
    + change (Z.of_nat (length Sample.signed_image)) with 344. lia.
Defined.

(** ** bootutil_img_validate *)

Ltac split_record_in H :=
  unfold tlv_record, flash_area_read, bootutil_find_key, bootutil_verify_sig,
    bind, emit, ret, c_return in H;
  cbv beta iota zeta in H;
  repeat match type of H with
         | context [if ?c then _ else _] =>
             let E := fresh "E" in destruct c eqn:E; cbv beta iota zeta in H
         end;
  inversion H; subst; clear H.

(** The calls of a record are calls of the loop; without a signature
    configured they are reads of headers and of digest payloads. *)
Lemma tlv_record_calls : forall F K SIGN hash fap st tlv t o t',
  tlv_record F K SIGN hash fap st tlv t = (o, t') ->
  exists new,
    t' = t ++ new /\
    forallb is_record_call new = true /\
    (SIGN = false -> forallb is_digest_walk_call new = true).
Proof.
  intros F K SIGN hash fap st tlv t o t' Hrun.
  split_record_in Hrun;
    try (exists []; rewrite app_nil_r; repeat split; reflexivity);
    try (rewrite <- app_assoc); eexists; (split; [reflexivity|]);
    (split; [reflexivity|]); intros HS; try reflexivity; discriminate.
Qed.

Lemma tlv_loop_calls : forall F K SIGN hash fap end_ fuel st t o t',
  tlv_loop F K SIGN fuel hash fap end_ st t = (o, t') ->
  exists new,
    t' = t ++ new /\
    forallb is_record_call new = true /\
    (SIGN = false -> forallb is_digest_walk_call new = true).
Proof.
  intros F K SIGN hash fap end_.
  induction fuel as [|fuel IH]; intros st t o t' Hrun.
  - inversion Hrun; subst. exists []. rewrite app_nil_r. repeat split.
  - rewrite tlv_loop_eq, tlv_iteration_eq in Hrun. cbv zeta in Hrun.
    destruct (off st <? end_);
      [|inversion Hrun; subst; exists []; rewrite app_nil_r; repeat split].
    destruct (fa_status fap (off st) (sizeof_tlv F) =? 0).
    + destruct (tlv_record F K SIGN hash fap st _ _) as [o1 t1] eqn:Erec.
      destruct (tlv_record_calls _ _ _ _ _ _ _ _ _ _ Erec)
        as [new1 [Ht1 [Hall1 Hdig1]]].
      assert (Hstep : exists new,
                t1 = t ++ new /\ forallb is_record_call new = true /\
                (SIGN = false -> forallb is_digest_walk_call new = true)).
      { eexists. split; [rewrite Ht1, <- app_assoc; reflexivity|].
        simpl. split; [exact Hall1|exact Hdig1]. }
      destruct o1 as [st1|rc|]; [|inversion Hrun; subst; exact Hstep
                                 |inversion Hrun; subst; exact Hstep].
      apply IH in Hrun. destruct Hrun as [new2 [Ht2 [Hall2 Hdig2]]].
      destruct Hstep as [new [Ht [Hall Hdig]]].
      exists (new ++ new2). split; [rewrite Ht2, Ht, <- app_assoc; reflexivity|].
      rewrite !forallb_app, Hall, Hall2. split; [reflexivity|].
      intros HS. rewrite (Hdig HS), (Hdig2 HS). reflexivity.
    + inversion Hrun; subst. eexists. split; [reflexivity|]. repeat split.
Qed.

(** The whole function, by the outcome of the digest computation and of the
    read of the trailer info. *)
Lemma bootutil_img_validate_shape :
  forall F K SIGN sram fuel hdr fap tmp_buf_sz seed seed_len out_hash,
  let run := bootutil_img_validate F K SIGN sram fuel hdr fap tmp_buf_sz seed
               seed_len out_hash [] in
  match bootutil_img_hash K sram fuel hdr (Some fap) tmp_buf_sz (repeat 0 32)
          seed seed_len [] with
  | (Val (rc, hash), th) =>
      if rc =? 0 then
        exists new,
          snd run = prologue_calls F hdr fap out_hash hash th ++ new /\
          forallb is_record_call new = true /\
          (SIGN = false -> forallb is_digest_walk_call new = true) /\
          (fa_status fap (wrap32 (ih_img_size hdr + ih_hdr_size hdr))
                     (sizeof_info F) <> 0 \/
           it_magic (info_at F hdr fap) <> IMAGE_TLV_INFO_MAGIC F -> new = [])
      else run = (Return rc, th)
  | (_, th) => snd run = th
  end.
Proof.
  intros F K SIGN sram fuel hdr fap tmp_buf_sz seed seed_len out_hash run.
  unfold run. rewrite bootutil_img_validate_eq, img_validate_scan_eq.
  destruct (bootutil_img_hash _ _ _ _ _ _ _ _ _ _) as [[[rc hash]|rc|] th];
    try reflexivity.
  destruct (rc =? 0); [|reflexivity]. cbv zeta. unfold prologue_calls, info_at.
  set (off0 := wrap32 (ih_img_size hdr + ih_hdr_size hdr)).
  destruct (fa_status fap off0 (sizeof_info F) =? 0) eqn:Est.
  - destruct (it_magic _ =? IMAGE_TLV_INFO_MAGIC F) eqn:Emagic.
    + destruct (tlv_loop F K SIGN fuel hash fap _ _ _) as [o t] eqn:Eloop.
      destruct (tlv_loop_calls _ _ _ _ _ _ _ _ _ _ _ Eloop)
        as [new [Ht [Hall Hdig]]].
      exists new. apply Z.eqb_eq in Est, Emagic.
      assert (Hsnd : t = (if out_hash then th ++ [OutHash hash] else th)
                         ++ [FlashRead TlvInfo off0 (sizeof_info F)
                               (fa_status fap off0 (sizeof_info F))] ++ new).
      { rewrite Ht, <- app_assoc. reflexivity. }
      split.
      * destruct o as [st|rc'|]; simpl; try (rewrite Hsnd, app_assoc; reflexivity).
        destruct (sha256_valid st =? 0); [simpl; rewrite Hsnd, app_assoc; reflexivity|].
        destruct (SIGN && (valid_signature st =? 0)); simpl;
          rewrite Hsnd, app_assoc; reflexivity.
      * split; [exact Hall|]. split; [exact Hdig|].
        intros [Hbad|Hbad]; contradiction.
    + exists []. rewrite app_nil_r. repeat split.
  - exists []. rewrite app_nil_r. repeat split.
Qed.

Lemma prologue_not_record : forall t,
  forallb is_prologue t = true ->
  existsb is_record_call t = false /\ existsb is_key_call t = false.
Proof.
  induction t as [|c t IH]; intros H; [split; reflexivity|].
  simpl in H. apply andb_true_iff in H. destruct H as [Hc Ht].
  destruct (IH Ht) as [H1 H2]. simpl. rewrite H1, H2.
  destruct c as [s ? ? ?| | | | |]; try discriminate; try (split; reflexivity).
  destruct s; try discriminate; split; reflexivity.
Qed.

Lemma prologue_out_hash : forall K sram fuel hdr fap tmp_buf_sz hash_result seed
    seed_len o th,
  bootutil_img_hash K sram fuel hdr fap tmp_buf_sz hash_result seed seed_len []
    = (o, th) ->
  existsb is_out_hash th = false /\ forallb is_prologue th = true.
Proof.
  intros K sram fuel hdr fap tmp_buf_sz hash_result seed seed_len o th Hrun.
  rewrite bootutil_img_hash_eq in Hrun.
  destruct (img_hash_loop _ _ _ _ _ _ _ _ _ _) as [o1 t1] eqn:Eloop.
  assert (Hth : th = t1) by (destruct o1; inversion Hrun; reflexivity).
  subst t1. clear Hrun.
  assert (Hgen : forall fuel off c t0 o' t0',
    img_hash_loop K sram fuel hdr fap tmp_buf_sz
      (wrap32 (ih_img_size hdr + ih_hdr_size hdr)) off c t0 = (o', t0') ->
    existsb is_out_hash t0 = false /\ forallb is_prologue t0 = true ->
    existsb is_out_hash t0' = false /\ forallb is_prologue t0' = true).
  { clear. induction fuel as [|fuel IH]; intros off c t0 o' t0' Hrun Ht0;
      [inversion Hrun; subst; exact Ht0|].
    cbn [img_hash_loop] in Hrun.
    destruct (off <? _); [|inversion Hrun; subst; exact Ht0].
    unfold bind at 1 in Hrun. rewrite read_block_eq in Hrun.
    destruct Ht0 as [Ha Hb].
    destruct fap as [fa|].
    - destruct (fa_status fa off _ =? 0).
      + unfold bootutil_sha256_update, bind, emit, ret in Hrun.
        apply IH in Hrun; [exact Hrun|].
        rewrite !existsb_app, !forallb_app, Ha, Hb. split; reflexivity.
      + inversion Hrun; subst.
        rewrite existsb_app, forallb_app, Ha, Hb. split; reflexivity.
    - unfold bootutil_sha256_update, bind, emit, ret in Hrun.
      apply IH in Hrun; [exact Hrun|].
      rewrite !existsb_app, !forallb_app, Ha, Hb. split; reflexivity. }
  apply (Hgen _ _ _ _ _ _ Eloop). simpl. unfold seed_calls.
  destruct seed as [s|]; [destruct (seed_len >? 0)|]; split; reflexivity.
Qed.

Lemma record_call_not_out_hash : forall t,
  forallb is_record_call t = true -> existsb is_out_hash t = false.
Proof.
  induction t as [|c t IH]; intros H; [reflexivity|].
  simpl in H. apply andb_true_iff in H. destruct H as [Hc Ht].
  simpl. rewrite (IH Ht). destruct c; try discriminate; reflexivity.
Qed.

Lemma digest_walk_not_key : forall t,
  forallb is_digest_walk_call t = true -> existsb is_key_call t = false.
Proof.
  induction t as [|c t IH]; intros H; [reflexivity|].
  simpl in H. apply andb_true_iff in H. destruct H as [Hc Ht].
  simpl. rewrite (IH Ht). destruct c; try discriminate; reflexivity.
Qed.

(** X6.  A trailer whose magic is not [IMAGE_TLV_INFO_MAGIC] is rejected with
    [-1] right after the read of the trailer info: no record header is read,
    no key is looked up and no signature is checked. *)
Theorem bad_magic_rejected :
  forall F K SIGN sram fuel hdr fap tmp_buf_sz seed seed_len out_hash hash th,
  bootutil_img_hash K sram fuel hdr (Some fap) tmp_buf_sz (repeat 0 32)
    seed seed_len [] = (Val (0, hash), th) ->
  fa_status fap (wrap32 (ih_img_size hdr + ih_hdr_size hdr)) (sizeof_info F) = 0 ->
  it_magic (info_at F hdr fap) <> IMAGE_TLV_INFO_MAGIC F ->
  let run := bootutil_img_validate F K SIGN sram fuel hdr fap tmp_buf_sz seed
               seed_len out_hash [] in
  run = (Return (-1), prologue_calls F hdr fap out_hash hash th) /\
  existsb is_record_call (snd run) = false.
Proof.
  intros F K SIGN sram fuel hdr fap tmp_buf_sz seed seed_len out_hash hash th
         Hhash Hst Hmagic run.
  assert (Hrun : run = (Return (-1), prologue_calls F hdr fap out_hash hash th)).
  { unfold run. rewrite bootutil_img_validate_eq, img_validate_scan_eq, Hhash.
    simpl Z.eqb. cbv iota zeta. rewrite Hst. simpl Z.eqb. cbv iota.
    apply Z.eqb_neq in Hmagic. unfold info_at in Hmagic. rewrite Hmagic.
    unfold prologue_calls. rewrite Hst. reflexivity. }
  split; [exact Hrun|]. rewrite Hrun. simpl snd. unfold prologue_calls.
  destruct (prologue_out_hash _ _ _ _ _ _ _ _ _ _ _ Hhash) as [_ Hpro].
  destruct (prologue_not_record th Hpro) as [Hrec _].
  rewrite existsb_app.
  destruct out_hash; rewrite ?existsb_app, Hrec; reflexivity.
Qed.

Lemma bad_magic_rejected_witness :
  bootutil_img_validate Sample.format Sample.primitives true Sample.sram 400
    Sample.hdr (Sample.flash_of Sample.bad_magic_image Sample.healthy) 3 None 0
    true []
  = (Return (-1),
     [FlashRead ImageBlock 0 3 0; Sha256Update [1; 2; 3];
      FlashRead ImageBlock 3 3 0; Sha256Update [4; 5; 6];
      FlashRead ImageBlock 6 2 0; Sha256Update [7; 8];
      OutHash Sample.digest; FlashRead TlvInfo 8 4 0]).
Proof.
  destruct (bad_magic_rejected Sample.format Sample.primitives true Sample.sram
              400 Sample.hdr (Sample.flash_of Sample.bad_magic_image Sample.healthy)
              3 None 0 true Sample.digest
              [FlashRead ImageBlock 0 3 0; Sha256Update [1; 2; 3];
               FlashRead ImageBlock 3 3 0; Sha256Update [4; 5; 6];
               FlashRead ImageBlock 6 2 0; Sha256Update [7; 8]])
    as [Hrun _].
  - vm_compute. reflexivity.
  - by_computation.
  - by_computation.
  - rewrite Hrun. vm_compute. reflexivity.
Defined.

(** X7.  The digest is handed to the caller, once and right after it is
    computed, whenever [out_hash] is given and the digest computation
    succeeded, whatever the verdict; it is not handed out when [out_hash] is
    NULL or when the digest computation failed, in which case the function
    returns the failure at once. *)
Theorem out_hash_written :
  forall F K SIGN sram fuel hdr fap tmp_buf_sz seed seed_len out_hash,
  let run := bootutil_img_validate F K SIGN sram fuel hdr fap tmp_buf_sz seed
               seed_len out_hash [] in
  (out_hash = false -> existsb is_out_hash (snd run) = false) /\
  (forall hash th,
     bootutil_img_hash K sram fuel hdr (Some fap) tmp_buf_sz (repeat 0 32)
       seed seed_len [] = (Val (0, hash), th) ->
     out_hash = true ->
     exists rest,
       snd run = th ++ OutHash hash :: rest /\
       existsb is_out_hash th = false /\ existsb is_out_hash rest = false) /\
  (forall rc hash th,
     bootutil_img_hash K sram fuel hdr (Some fap) tmp_buf_sz (repeat 0 32)
       seed seed_len [] = (Val (rc, hash), th) ->
     rc <> 0 ->
     run = (Return rc, th) /\ existsb is_out_hash th = false).
Proof.
  intros F K SIGN sram fuel hdr fap tmp_buf_sz seed seed_len out_hash run.
  pose proof (bootutil_img_validate_shape F K SIGN sram fuel hdr fap tmp_buf_sz
                seed seed_len out_hash) as Hshape.
  cbv zeta in Hshape. fold run in Hshape.
  destruct (bootutil_img_hash K sram fuel hdr (Some fap) tmp_buf_sz (repeat 0 32)
              seed seed_len []) as [oh th] eqn:Ehash.
  destruct (prologue_out_hash _ _ _ _ _ _ _ _ _ _ _ Ehash) as [Hno _].
  split; [|split].
  - intros Hout. subst out_hash.
    destruct oh as [[rc hash]|rc|]; try (rewrite Hshape; exact Hno).
    destruct (rc =? 0).
    + destruct Hshape as [new [Hsnd [Hall _]]]. rewrite Hsnd.
      unfold prologue_calls. rewrite !existsb_app, Hno.
      rewrite (record_call_not_out_hash new Hall). reflexivity.
    + rewrite Hshape. exact Hno.
  - intros hash th' Heq Hout. inversion Heq; subst oh th'. subst out_hash.
    simpl Z.eqb in Hshape. cbv iota in Hshape.
    destruct Hshape as [new [Hsnd [Hall _]]].
    eexists. split; [rewrite Hsnd; unfold prologue_calls;
                     rewrite <- !app_assoc; reflexivity|].
    split; [exact Hno|]. simpl.
    exact (record_call_not_out_hash new Hall).
  - intros rc hash th' Heq Hrc. inversion Heq; subst oh th'.
    apply Z.eqb_neq in Hrc. rewrite Hrc in Hshape. split; [exact Hshape|exact Hno].
Qed.

Lemma out_hash_written_witness :
  let rejected :=
    bootutil_img_validate Sample.format Sample.primitives true Sample.sram 400
      Sample.hdr (Sample.flash_of Sample.long_keyhash_image Sample.healthy) 8
      None 0 true [] in
  let failed :=
    bootutil_img_validate Sample.format Sample.primitives true Sample.sram 400
      Sample.hdr (Sample.flash_of Sample.signed_image (Sample.fails_at 0)) 8
      None 0 true [] in
  (fst rejected = Return (-1) /\
   exists rest,
     snd rejected = [FlashRead ImageBlock 0 8 0; Sha256Update Sample.image]
                    ++ OutHash Sample.digest :: rest) /\
  failed = (Return (-1), [FlashRead ImageBlock 0 8 (-5)]).
Proof.
  intros rejected failed. split.
  - split; [vm_compute; reflexivity|].
    destruct (out_hash_written Sample.format Sample.primitives true Sample.sram
                400 Sample.hdr
                (Sample.flash_of Sample.long_keyhash_image Sample.healthy) 8
                None 0 true) as [_ [Hgiven _]].
    destruct (Hgiven Sample.digest
                [FlashRead ImageBlock 0 8 0; Sha256Update Sample.image])
      as [rest [Hsnd _]].
    + vm_compute. reflexivity.
    + reflexivity.
    + exists rest. exact Hsnd.
  - destruct (out_hash_written Sample.format Sample.primitives true Sample.sram
                400 Sample.hdr
                (Sample.flash_of Sample.signed_image (Sample.fails_at 0)) 8
                None 0 true) as [_ [_ Hfailed]].
    destruct (Hfailed (-1) (repeat 0 32) [FlashRead ImageBlock 0 8 (-5)])
      as [Hrun _].
    + vm_compute. reflexivity.
    + discriminate.
    + exact Hrun.
Defined.

(** X8.  When no signature algorithm is configured ([MCUBOOT_SIGN_RSA] not
    defined) no run of [bootutil_img_validate] looks up a key, checks a
    signature or reads the payload of a key-identifier or signature record:
    such records are passed over like records of an unknown type. *)
Theorem unsigned_build_ignores_keys :
  forall F K sram fuel hdr fap tmp_buf_sz seed seed_len out_hash,
  let run := bootutil_img_validate F K false sram fuel hdr fap tmp_buf_sz seed
               seed_len out_hash [] in
  existsb is_key_call (snd run) = false /\
  (forall o l rc, ~ In (FlashRead KeyHashPayload o l rc) (snd run)) /\
  (forall o l rc, ~ In (FlashRead SigPayload o l rc) (snd run)) /\
  (forall hash st tlv t,
     it_type tlv <> IMAGE_TLV_SHA256 F ->
     tlv_record F K false hash fap st tlv t = (Val st, t)).
Proof.
  intros F K sram fuel hdr fap tmp_buf_sz seed seed_len out_hash run.
  assert (Hcalls : forall c, In c (snd run) ->
            is_prologue c = true \/ is_digest_walk_call c = true).
  { pose proof (bootutil_img_validate_shape F K false sram fuel hdr fap tmp_buf_sz
                  seed seed_len out_hash) as Hshape.
    cbv zeta in Hshape. fold run in Hshape.
    destruct (bootutil_img_hash K sram fuel hdr (Some fap) tmp_buf_sz
                (repeat 0 32) seed seed_len []) as [oh th] eqn:Ehash.
    destruct (prologue_out_hash _ _ _ _ _ _ _ _ _ _ _ Ehash) as [_ Hpro].
    assert (Hth : forall c, In c th -> is_prologue c = true)
      by (apply forallb_forall; exact Hpro).
    intros c Hin.
    destruct oh as [[rc hash]|rc|];
      try (rewrite Hshape in Hin; left; apply Hth; exact Hin).
    destruct (rc =? 0).
    - destruct Hshape as [new [Hsnd [_ [Hdig _]]]]. rewrite Hsnd in Hin.
      unfold prologue_calls in Hin.
      apply in_app_or in Hin. destruct Hin as [Hin|Hin].
      + left. apply in_app_or in Hin. destruct Hin as [Hin|[Hin|[]]].
        * destruct out_hash; [|apply Hth; exact Hin].
          apply in_app_or in Hin. destruct Hin as [Hin|[Hin|[]]];
            [apply Hth; exact Hin|subst c; reflexivity].
        * subst c. reflexivity.
      + right. apply (proj1 (forallb_forall _ _) (Hdig eq_refl)). exact Hin.
    - rewrite Hshape in Hin. left. apply Hth. exact Hin. }
  split; [|split; [|split]].
  - apply not_true_iff_false. intros He. apply existsb_exists in He.
    destruct He as [c [Hin Hc]]. destruct (Hcalls c Hin) as [H|H];
      destruct c as [s ? ? ?| | | | |]; discriminate.
  - intros o l rc Hin. destruct (Hcalls _ Hin); discriminate.
  - intros o l rc Hin. destruct (Hcalls _ Hin); discriminate.
  - intros hash st tlv t Hns. apply tlv_record_other; [exact Hns|left; reflexivity].
Qed.

Lemma unsigned_build_ignores_keys_witness :
  let fap := Sample.flash_of Sample.signed_image Sample.healthy in
  let st := {| off := 48; sha256_valid := 1; valid_signature := 0; key_id := -1 |} in
  tlv_record Sample.format Sample.primitives false Sample.digest fap st
    (tlv_at Sample.format fap 48) [] = (Val st, []) /\
  fst (bootutil_img_validate Sample.format Sample.primitives false Sample.sram
         400 Sample.hdr fap 3 None 0 false []) = Return 0.
Proof.
  intros fap st.
  destruct (unsigned_build_ignores_keys Sample.format Sample.primitives
              Sample.sram 400 Sample.hdr fap 3 None 0 false) as [_ [_ [_ Hskip]]].
  split.
  - apply Hskip. by_computation.
  - vm_compute. reflexivity.
Defined.

(** X9.  What a failed flash read makes the function return, site by site:
    the driver's code for the trailer info, a record header, a digest payload
    and a key-identifier payload; [-1] for a signature payload.  In each case
    the failed read is the last call made. *)
Theorem read_failure_by_site :
  forall F K hash fap fuel end_ st t,
  let o := off st in
  let p := payload_off F o in
  let len := it_len (tlv_at F fap o) in
  let t1 := t ++ [header_read F o] in
  (forall SIGN sram hdr tmp_buf_sz seed seed_len out_hash h th,
     bootutil_img_hash K sram fuel hdr (Some fap) tmp_buf_sz (repeat 0 32)
       seed seed_len [] = (Val (0, h), th) ->
     let rc := fa_status fap (wrap32 (ih_img_size hdr + ih_hdr_size hdr))
                 (sizeof_info F) in
     rc <> 0 ->
     bootutil_img_validate F K SIGN sram fuel hdr fap tmp_buf_sz seed seed_len
       out_hash [] = (Return rc, prologue_calls F hdr fap out_hash h th)) /\
  (forall SIGN,
     o < end_ -> fa_status fap o (sizeof_tlv F) <> 0 ->
     tlv_loop F K SIGN (S fuel) hash fap end_ st t
     = (Return (fa_status fap o (sizeof_tlv F)),
        t ++ [FlashRead TlvHeader o (sizeof_tlv F) (fa_status fap o (sizeof_tlv F))])) /\
  (forall SIGN,
     o < end_ -> digest_record_at F fap o -> len = 32 ->
     fa_status fap p 32 <> 0 ->
     tlv_loop F K SIGN (S fuel) hash fap end_ st t
     = (Return (fa_status fap p 32),
        t1 ++ [FlashRead DigestPayload p 32 (fa_status fap p 32)])) /\
  (o < end_ ->
   fa_status fap o (sizeof_tlv F) = 0 /\
   it_type (tlv_at F fap o) <> IMAGE_TLV_SHA256 F /\
   it_type (tlv_at F fap o) = IMAGE_TLV_KEYHASH F /\ len <= 32 ->
   fa_status fap p len <> 0 ->
   tlv_loop F K true (S fuel) hash fap end_ st t
   = (Return (fa_status fap p len),
      t1 ++ [FlashRead KeyHashPayload p len (fa_status fap p len)])) /\
  (o < end_ -> sig_record_at F fap o ->
   0 <= key_id st < bootutil_key_cnt K -> len = 256 ->
   fa_status fap p 256 <> 0 ->
   tlv_loop F K true (S fuel) hash fap end_ st t
   = (Return (-1), t1 ++ [FlashRead SigPayload p 256 (fa_status fap p 256)])).
Proof.
  intros F K hash fap fuel end_ st t o p len t1.
  split; [|split; [|split; [|split]]].
  - intros SIGN sram hdr tmp_buf_sz seed seed_len out_hash h th Hhash rc Hrc.
    rewrite bootutil_img_validate_eq, img_validate_scan_eq, Hhash.
    simpl Z.eqb. cbv iota zeta. fold rc. apply Z.eqb_neq in Hrc. rewrite Hrc.
    reflexivity.
  - intros SIGN Hlt Hst. rewrite tlv_loop_eq, tlv_iteration_eq.
    apply Z.ltb_lt in Hlt. fold o. rewrite Hlt. cbv zeta.
    apply Z.eqb_neq in Hst. rewrite Hst. reflexivity.
  - intros SIGN Hlt [Hst Hty] Hlen Hread.
    rewrite (tlv_loop_turn F K SIGN hash fap fuel end_ st t Hlt Hst).
    rewrite (tlv_record_digest F K SIGN hash fap st _ _ Hty).
    fold o. fold len. rewrite Hlen. simpl Z.eqb. cbv iota zeta. fold p.
    apply Z.eqb_neq in Hread. rewrite Hread. reflexivity.
  - intros Hlt [Hst [Hns [Hty Hlen]]] Hread.
    rewrite (tlv_loop_turn F K true hash fap fuel end_ st t Hlt Hst).
    rewrite (tlv_record_keyhash F K true hash fap st _ _ eq_refl Hns Hty).
    fold o. fold len.
    assert (Hle : (len >? 32) = false) by (rewrite Z.gtb_ltb; apply Z.ltb_ge; exact Hlen).
    rewrite Hle. cbv zeta. fold p. apply Z.eqb_neq in Hread. rewrite Hread.
    reflexivity.
  - intros Hlt [Hst [Hns [Hnk Hty]]] Hkey Hlen Hread.
    rewrite (tlv_loop_turn F K true hash fap fuel end_ st t Hlt Hst).
    rewrite (tlv_record_sig F K true hash fap st _ _ eq_refl Hns Hnk Hty).
    assert (Hin : (key_id st <? 0) || (key_id st >=? bootutil_key_cnt K) = false).
    { apply orb_false_iff. split; [apply Z.ltb_ge; lia|].
      rewrite Z.geb_leb. apply Z.leb_gt. lia. }
    rewrite Hin. fold o. fold len. rewrite Hlen. simpl negb. simpl orb.
    cbv iota zeta. fold p. apply Z.eqb_neq in Hread. rewrite Hread. reflexivity.
Qed.

Lemma read_failure_by_site_witness :
  let flash o := Sample.flash_of Sample.signed_image (Sample.fails_at o) in
  let loop fap o k :=
    fst (tlv_loop Sample.format Sample.primitives true 1 Sample.digest fap 344
           {| off := o; sha256_valid := 0; valid_signature := 0; key_id := k |} []) in
  fst (bootutil_img_validate Sample.format Sample.primitives true Sample.sram 400
         Sample.hdr (flash 8) 8 None 0 false []) = Return (-5) /\
  loop (flash 12) 12 (-1) = Return (-5) /\
  loop (flash 16) 12 (-1) = Return (-5) /\
  loop (flash 52) 48 (-1) = Return (-5) /\
  loop (flash 88) 84 0 = Return (-1).
Proof.
  intros flash loop. unfold loop.
  split; [|split; [|split; [|split]]].
  - destruct (read_failure_by_site Sample.format Sample.primitives Sample.digest
                (flash 8) 400 344
                {| off := 12; sha256_valid := 0; valid_signature := 0; key_id := -1 |}
                []) as [Hinfo _].
    rewrite (Hinfo true Sample.sram Sample.hdr 8 None 0 false Sample.digest
               [FlashRead ImageBlock 0 8 0; Sha256Update Sample.image]).
    + reflexivity.
    + vm_compute. reflexivity.
    + by_computation.
  - destruct (read_failure_by_site Sample.format Sample.primitives Sample.digest
                (flash 12) 0 344
                {| off := 12; sha256_valid := 0; valid_signature := 0; key_id := -1 |}
                []) as [_ [Hheader _]].
    rewrite (Hheader true); [reflexivity|simpl; lia|by_computation].
  - destruct (read_failure_by_site Sample.format Sample.primitives Sample.digest
                (flash 16) 0 344
                {| off := 12; sha256_valid := 0; valid_signature := 0; key_id := -1 |}
                []) as [_ [_ [Hdigest _]]].
    rewrite (Hdigest true);
      [reflexivity|simpl; lia|split; by_computation|by_computation|by_computation].
  - destruct (read_failure_by_site Sample.format Sample.primitives Sample.digest
                (flash 52) 0 344
                {| off := 48; sha256_valid := 0; valid_signature := 0; key_id := -1 |}
                []) as [_ [_ [_ [Hkeyhash _]]]].
    rewrite Hkeyhash;
      [reflexivity|simpl; lia|repeat split; by_computation|by_computation].
  - destruct (read_failure_by_site Sample.format Sample.primitives Sample.digest
                (flash 88) 0 344
                {| off := 84; sha256_valid := 0; valid_signature := 0; key_id := 0 |}
                []) as [_ [_ [_ [_ Hsig]]]].
    rewrite Hsig;
      [reflexivity|simpl; lia|repeat split; by_computation|split; by_computation
      |by_computation|by_computation].
Defined.

(** X10.  A key-identifier record longer than 32 bytes ends the validation
    with [-1]; its payload is not read and no key is looked up. *)
Theorem oversized_keyhash_rejected :
  forall F K hash fap fuel end_ st t,
  off st < end_ ->
  fa_status fap (off st) (sizeof_tlv F) = 0 ->
  it_type (tlv_at F fap (off st)) <> IMAGE_TLV_SHA256 F ->
  it_type (tlv_at F fap (off st)) = IMAGE_TLV_KEYHASH F ->
  32 < it_len (tlv_at F fap (off st)) ->
  tlv_loop F K true (S fuel) hash fap end_ st t
  = (Return (-1), t ++ [header_read F (off st)]).
Proof.
  intros F K hash fap fuel end_ st t Hlt Hst Hns Hty Hlen.
  rewrite (tlv_loop_turn F K true hash fap fuel end_ st t Hlt Hst).
  rewrite (tlv_record_keyhash F K true hash fap st _ _ eq_refl Hns Hty).
  assert (Hgt : (it_len (tlv_at F fap (off st)) >? 32) = true)
    by (apply Z.gtb_lt; exact Hlen).
  rewrite Hgt. reflexivity.
Qed.

Lemma oversized_keyhash_rejected_witness :
  tlv_loop Sample.format Sample.primitives true 1 Sample.digest
    (Sample.flash_of Sample.long_keyhash_image Sample.healthy) 85
    {| off := 48; sha256_valid := 1; valid_signature := 0; key_id := -1 |} []
  = (Return (-1), [FlashRead TlvHeader 48 4 0]).
Proof.
  apply (oversized_keyhash_rejected Sample.format Sample.primitives Sample.digest
           (Sample.flash_of Sample.long_keyhash_image Sample.healthy) 0 85
           {| off := 48; sha256_valid := 1; valid_signature := 0; key_id := -1 |} []).
  - simpl. lia.
  - by_computation.
  - by_computation.
  - by_computation.
  - apply Z.ltb_lt. vm_compute. reflexivity.
Defined.

(** X11.  A record whose type is none of digest, key identifier and
    signature is passed over: only its header is read, the locals keep their
    values and the loop goes on [sizeof(tlv) + it_len] bytes further
    (modulo 2^32), whatever the length says. *)
Theorem unknown_record_skipped :
  forall F K SIGN hash fap fuel end_ st t,
  off st < end_ ->
  fa_status fap (off st) (sizeof_tlv F) = 0 ->
  it_type (tlv_at F fap (off st)) <> IMAGE_TLV_SHA256 F ->
  it_type (tlv_at F fap (off st)) <> IMAGE_TLV_KEYHASH F ->
  it_type (tlv_at F fap (off st)) <> EXPECTED_SIG_TLV F ->
  tlv_loop F K SIGN (S fuel) hash fap end_ st t
  = tlv_loop F K SIGN fuel hash fap end_
      (set_off st (wrap32 (off st + (sizeof_tlv F + it_len (tlv_at F fap (off st))))))
      (t ++ [header_read F (off st)]).
Proof.
  intros F K SIGN hash fap fuel end_ st t Hlt Hst Hns Hnk Hnsig.
  rewrite (tlv_loop_turn F K SIGN hash fap fuel end_ st t Hlt Hst).
  rewrite (tlv_record_other F K SIGN hash fap st _ _ Hns (or_intror (conj Hnk Hnsig))).
  reflexivity.
Qed.

Lemma unknown_record_skipped_witness :
  let fap := Sample.flash_of Sample.unknown_record_image Sample.healthy in
  tlv_loop Sample.format Sample.primitives true 3 Sample.digest fap 55
    {| off := 12; sha256_valid := 0; valid_signature := 0; key_id := -1 |} []
  = (Val {| off := 55; sha256_valid := 1; valid_signature := 0; key_id := -1 |},
     [FlashRead TlvHeader 12 4 0; FlashRead TlvHeader 19 4 0;
      FlashRead DigestPayload 23 32 0]).
Proof.
  intros fap.
  rewrite (unknown_record_skipped Sample.format Sample.primitives true
             Sample.digest fap 2 55).
  - vm_compute. reflexivity.
  - simpl. lia.
  - by_computation.
  - by_computation.
  - by_computation.
  - by_computation.
Defined.

(** X12.  A trailer without a record (its total length puts the end at or
    below the first record offset) is rejected with [-1] for want of a digest
    record, and no record header is read. *)
Theorem empty_trailer_rejected :
  forall F K SIGN sram fuel hdr fap tmp_buf_sz seed seed_len out_hash hash th,
  bootutil_img_hash K sram (S fuel) hdr (Some fap) tmp_buf_sz (repeat 0 32)
    seed seed_len [] = (Val (0, hash), th) ->
  let off0 := wrap32 (ih_img_size hdr + ih_hdr_size hdr) in
  fa_status fap off0 (sizeof_info F) = 0 ->
  it_magic (info_at F hdr fap) = IMAGE_TLV_INFO_MAGIC F ->
  wrap32 (off0 + it_tlv_tot (info_at F hdr fap)) <= wrap32 (off0 + sizeof_info F) ->
  bootutil_img_validate F K SIGN sram (S fuel) hdr fap tmp_buf_sz seed seed_len
    out_hash []
  = (Return (-1), prologue_calls F hdr fap out_hash hash th).
Proof.
  intros F K SIGN sram fuel hdr fap tmp_buf_sz seed seed_len out_hash hash th
         Hhash off0 Hst Hmagic Hend.
  rewrite bootutil_img_validate_eq, img_validate_scan_eq, Hhash.
  simpl Z.eqb. cbv iota zeta. fold off0. rewrite Hst. simpl Z.eqb. cbv iota.
  unfold info_at in Hmagic, Hend. fold off0 in Hmagic, Hend.
  rewrite Hmagic, Z.eqb_refl. rewrite tlv_loop_eq. cbn [off].
  apply Z.ltb_ge in Hend. rewrite Hend. cbn [sha256_valid]. simpl Z.eqb. cbv iota.
  unfold prologue_calls. fold off0. rewrite Hst. reflexivity.
Qed.

Lemma empty_trailer_rejected_witness :
  bootutil_img_validate Sample.format Sample.primitives true Sample.sram 2
    Sample.hdr (Sample.flash_of Sample.empty_trailer_image Sample.healthy) 8
    None 0 false []
  = (Return (-1),
     [FlashRead ImageBlock 0 8 0; Sha256Update Sample.image;
      FlashRead TlvInfo 8 4 0]).
Proof.
  rewrite (empty_trailer_rejected Sample.format Sample.primitives true Sample.sram
             1 Sample.hdr
             (Sample.flash_of Sample.empty_trailer_image Sample.healthy) 8 None 0
             false Sample.digest
             [FlashRead ImageBlock 0 8 0; Sha256Update Sample.image]).
  - vm_compute. reflexivity.
  - vm_compute. reflexivity.
  - by_computation.
  - by_computation.
  - apply Z.leb_le. vm_compute. reflexivity.
Defined.

Lemma tlv_record_return : forall F K SIGN hash fap st tlv t rc t',
  tlv_record F K SIGN hash fap st tlv t = (Return rc, t') ->
  rc = -1 \/ returned_read_failure rc t'.
Proof.
  intros F K SIGN hash fap st tlv t rc t' Hrun.
  split_record_in Hrun; try (left; reflexivity); right;
    match goal with
    | H : negb (?x =? 0) = true |- returned_read_failure ?x (?pre ++ [FlashRead ?s ?o ?l ?x]) =>
        exists pre, s, o, l; split; [reflexivity|];
        split; [apply negb_true_iff, Z.eqb_neq in H; exact H|]; auto
    end.
Qed.

Lemma tlv_loop_return : forall F K SIGN hash fap end_ fuel st t rc t',
  tlv_loop F K SIGN fuel hash fap end_ st t = (Return rc, t') ->
  rc = -1 \/ returned_read_failure rc t'.
Proof.
  intros F K SIGN hash fap end_.
  induction fuel as [|fuel IH]; intros st t rc t' Hrun; [discriminate|].
  rewrite tlv_loop_eq, tlv_iteration_eq in Hrun. cbv zeta in Hrun.
  destruct (off st <? end_); [|discriminate].
  destruct (fa_status fap (off st) (sizeof_tlv F) =? 0) eqn:Est.
  - destruct (tlv_record F K SIGN hash fap st _ _) as [[st1|rc1|] t1] eqn:Erec.
    + apply IH in Hrun. exact Hrun.
    + inversion Hrun; subst. eapply tlv_record_return. exact Erec.
    + discriminate.
  - inversion Hrun; subst. right. apply Z.eqb_neq in Est.
    exists t, TlvHeader, (off st), (sizeof_tlv F). auto.
Qed.

(** X13.  [bootutil_img_validate] returns 0, or [-1], or the code of a flash
    read that failed; in the last case the read is one of the trailer info, a
    record header, a digest payload or a key-identifier payload, and it is
    the last call the function made. *)
Theorem bootutil_img_validate_return_values :
  forall F K SIGN sram fuel hdr fap tmp_buf_sz seed seed_len out_hash rc t,
  bootutil_img_validate F K SIGN sram fuel hdr fap tmp_buf_sz seed seed_len
    out_hash [] = (Return rc, t) ->
  rc = 0 \/ rc = -1 \/ returned_read_failure rc t.
Proof.
  intros F K SIGN sram fuel hdr fap tmp_buf_sz seed seed_len out_hash rc t Hrun.
  rewrite bootutil_img_validate_eq, img_validate_scan_eq in Hrun.
  destruct (bootutil_img_hash K sram fuel hdr (Some fap) tmp_buf_sz (repeat 0 32)
              seed seed_len []) as [oh th] eqn:Ehash.
  destruct (bootutil_img_hash_prologue K sram fuel hdr (Some fap) tmp_buf_sz
              (repeat 0 32) seed seed_len [] oh th eq_refl Ehash)
    as [_ [Hnoret Hrc]].
  destruct oh as [[rch hash]|rch|]; [|exfalso; apply (Hnoret rch); reflexivity
                                     |discriminate].
  destruct (rch =? 0) eqn:Erch.
  - cbv zeta in Hrun.
    destruct (fa_status fap _ (sizeof_info F) =? 0) eqn:Est.
    + destruct (it_magic _ =? IMAGE_TLV_INFO_MAGIC F);
        [|inversion Hrun; right; left; reflexivity].
      destruct (tlv_loop F K SIGN fuel hash fap _ _ _) as [[st|rcl|] tl] eqn:Eloop.
      * destruct (sha256_valid st =? 0); [inversion Hrun; auto|].
        destruct (SIGN && (valid_signature st =? 0)); inversion Hrun; auto.
      * inversion Hrun; subst. right. eapply tlv_loop_return. exact Eloop.
      * discriminate.
    + inversion Hrun; subst. right. right. apply Z.eqb_neq in Est.
      eexists. exists TlvInfo. eexists. eexists. split; [reflexivity|]. auto.
  - inversion Hrun; subst. destruct (Hrc rc hash eq_refl) as [Hz|Hm]; auto.
Qed.

Lemma bootutil_img_validate_return_values_witness :
  returned_read_failure (-5)
    (snd (bootutil_img_validate Sample.format Sample.primitives true Sample.sram
            400 Sample.hdr (Sample.flash_of Sample.signed_image (Sample.fails_at 52))
            8 None 0 false [])).
Proof.
  destruct (bootutil_img_validate_return_values Sample.format Sample.primitives
              true Sample.sram 400 Sample.hdr
              (Sample.flash_of Sample.signed_image (Sample.fails_at 52)) 8 None 0
              false (-5)
              [FlashRead ImageBlock 0 8 0; Sha256Update Sample.image;
               FlashRead TlvInfo 8 4 0; FlashRead TlvHeader 12 4 0;
               FlashRead DigestPayload 16 32 0; FlashRead TlvHeader 48 4 0;
               FlashRead KeyHashPayload 52 32 (-5)]) as [H|[H|H]].
  - vm_compute. reflexivity.
  - discriminate.
  - discriminate.
  - replace (snd _) with
      [FlashRead ImageBlock 0 8 0; Sha256Update Sample.image;
       FlashRead TlvInfo 8 4 0; FlashRead TlvHeader 12 4 0;
       FlashRead DigestPayload 16 32 0; FlashRead TlvHeader 48 4 0;
       FlashRead KeyHashPayload 52 32 (-5)] by (vm_compute; reflexivity).
    exact H.
Defined.

(** ** bootutil_check_hash_after_loading *)

Section RamProofs.

Variable F : image_format.
Variable sram : Z -> Z.
Variable hash : list Z.
Variable load end_ : Z.

Local Abbreviation ram_loop fuel := (loaded_tlv_loop F sram fuel hash load end_).
Local Abbreviation next := (loaded_next_off F sram load).
Local Abbreviation is_digest := (loaded_is_digest F sram load).
Local Abbreviation digest_ok := (loaded_digest_ok F sram hash load).

(** A record of the RAM walk. *)
Lemma loaded_tlv_record_eq : forall off v t,
  loaded_tlv_record F sram hash load off v (loaded_tlv_at F sram load off) t =
  if is_digest off then
    if digest_ok off then (Val 1, t) else (Return (-1), t)
  else (Val v, t).
Proof.
  intros off v t. unfold loaded_tlv_record, loaded_is_digest, loaded_digest_ok.
  unfold ret, c_return. cbv zeta.
  destruct (it_type _ =? IMAGE_TLV_SHA256 F); [|reflexivity].
  destruct (it_len _ =? 32); [|reflexivity]. simpl negb. cbv iota. simpl andb.
  destruct (memcmp _ _ _ =? 0); reflexivity.
Qed.

(** The RAM walk makes no call, leaves early with [-1] only, and reaches the
    end exactly when the records on its way can be counted within the budget
    and the digest records among them carry the digest. *)
Lemma loaded_tlv_loop_spec : forall fuel off v t,
  snd (ram_loop fuel off v t) = t /\
  (forall rc, fst (ram_loop fuel off v t) = Return rc -> rc = -1) /\
  (forall v',
     fst (ram_loop fuel off v t) = Val v' <->
     exists offs,
       record_offsets fuel next end_ off = Some offs /\
       (forall o, In o offs -> is_digest o = true -> digest_ok o = true) /\
       v' = if existsb is_digest offs then 1 else v).
Proof.
  induction fuel as [|fuel IH]; intros off v t.
  - simpl. split; [reflexivity|]. split; [discriminate|].
    intros v'. split; [discriminate|]. intros [offs [H _]]. discriminate.
  - cbn [loaded_tlv_loop record_offsets].
    destruct (off <? end_) eqn:Elt.
    + unfold bind. fold (loaded_tlv_at F sram load off).
      rewrite loaded_tlv_record_eq.
      fold (loaded_next_off F sram load off).
      destruct (is_digest off) eqn:Edig.
      * destruct (digest_ok off) eqn:Eok.
        -- destruct (IH (next off) 1 t) as [Hsnd [Hret Hval]].
           split; [exact Hsnd|]. split; [exact Hret|].
           intros v'. rewrite Hval. split.
           ++ intros [offs [Hoffs [Hall Hv]]]. exists (off :: offs).
              rewrite Hoffs. split; [reflexivity|]. split.
              ** intros o [Ho|Ho] Hd; [subst o; exact Eok|apply Hall; assumption].
              ** simpl. rewrite Edig. simpl. rewrite Hv.
                 destruct (existsb is_digest offs); reflexivity.
           ++ intros [offs' [Hoffs [Hall Hv]]].
              destruct (record_offsets fuel next end_ (next off)) as [offs|];
                [|discriminate].
              inversion Hoffs; subst offs'. exists offs.
              split; [reflexivity|]. split.
              ** intros o Ho Hd. apply Hall; [right; exact Ho|exact Hd].
              ** rewrite Hv. simpl. rewrite Edig. simpl.
                 destruct (existsb is_digest offs); reflexivity.
        -- simpl. split; [reflexivity|]. split.
           ++ intros rc Hrc. inversion Hrc. reflexivity.
           ++ intros v'. split; [discriminate|].
              intros [offs' [Hoffs [Hall _]]].
              destruct (record_offsets fuel next end_ (next off)) as [offs|];
                [|discriminate].
              inversion Hoffs; subst offs'.
              rewrite (Hall off (or_introl eq_refl) Edig) in Eok. discriminate.
      * destruct (IH (next off) v t) as [Hsnd [Hret Hval]].
        split; [exact Hsnd|]. split; [exact Hret|].
        intros v'. rewrite Hval. split.
        -- intros [offs [Hoffs [Hall Hv]]]. exists (off :: offs).
           rewrite Hoffs. split; [reflexivity|]. split.
           ++ intros o [Ho|Ho] Hd; [subst o; congruence|apply Hall; assumption].
           ++ simpl. rewrite Edig. exact Hv.
        -- intros [offs' [Hoffs [Hall Hv]]].
           destruct (record_offsets fuel next end_ (next off)) as [offs|];
             [|discriminate].
           inversion Hoffs; subst offs'. exists offs.
           split; [reflexivity|]. split.
           ++ intros o Ho Hd. apply Hall; [right; exact Ho|exact Hd].
           ++ rewrite Hv. simpl. rewrite Edig. reflexivity.
    + simpl. split; [reflexivity|]. split; [discriminate|].
      intros v'. split.
      * intros Hv. inversion Hv; subst. exists []. repeat split.
        intros o [].
      * intros [offs [Hoffs [_ Hv]]]. inversion Hoffs; subst offs.
        simpl in Hv. subst v'. reflexivity.
Qed.

End RamProofs.

(** The RAM check, step by step. *)
Lemma bootutil_check_hash_after_loading_eq :
  forall F K sram B fuel hdr t,
  bootutil_check_hash_after_loading F K sram B fuel hdr t =
  match bootutil_img_hash K sram fuel hdr None B (repeat 0 32) None 0 t with
  | (Val (rc, hash), th) =>
      if rc =? 0 then
        let load := wrap32 (ih_load_addr hdr) in
        let off0 := wrap32 (ih_img_size hdr + ih_hdr_size hdr) in
        let info := load_info F (sram_load sram (wrap32 (load + off0)) (sizeof_info F)) in
        if it_magic info =? IMAGE_TLV_INFO_MAGIC F then
          match loaded_tlv_loop F sram fuel hash load
                  (wrap32 (off0 + it_tlv_tot info))
                  (wrap32 (off0 + sizeof_info F)) 0 th with
          | (Val v, t') => if v =? 0 then (Return (-1), t') else (Return 0, t')
          | (Return rc', t') => (Return rc', t')
          | (Fuel, t') => (Fuel, t')
          end
        else (Return (-1), th)
      else (Return rc, th)
  | (Return rc, th) => (Return rc, th)
  | (Fuel, th) => (Fuel, th)
  end.
Proof.
  intros. unfold bootutil_check_hash_after_loading. unfold bind at 1.
  destruct (bootutil_img_hash _ _ _ _ _ _ _ _ _ _) as [[[rc hash]|rc|] th];
    try reflexivity.
  destruct (rc =? 0); [|reflexivity]. cbv beta iota zeta delta [negb].
  destruct (it_magic _ =? IMAGE_TLV_INFO_MAGIC F); [|reflexivity].
  unfold bind, c_return.
  destruct (loaded_tlv_loop _ _ _ _ _ _ _ _ _) as [[v|rc'|] t']; try reflexivity.
  destruct (v =? 0); reflexivity.
Qed.

(** The digest computation over SRAM makes no flash read, whatever its
    outcome. *)
Lemma bootutil_img_hash_sram_calls :
  forall K sram fuel hdr tmp_buf_sz hash_result seed seed_len o t,
  bootutil_img_hash K sram fuel hdr None tmp_buf_sz hash_result seed seed_len []
    = (o, t) ->
  existsb is_flash_read t = false /\ existsb is_key_call t = false.
Proof.
  intros K sram fuel hdr tmp_buf_sz hash_result seed seed_len o t Hrun.
  destruct (prologue_out_hash _ _ _ _ _ _ _ _ _ _ _ Hrun) as [_ Hpro].
  split; [|apply (prologue_not_record t Hpro)].
  rewrite bootutil_img_hash_eq in Hrun.
  destruct (img_hash_loop _ _ _ _ _ _ _ _ _ _) as [o1 t1] eqn:Eloop.
  assert (Ht : t = t1) by (destruct o1; inversion Hrun; reflexivity).
  subst t1. clear Hrun.
  assert (Hgen : forall fuel off c t0 o' t0',
    img_hash_loop K sram fuel hdr None tmp_buf_sz
      (wrap32 (ih_img_size hdr + ih_hdr_size hdr)) off c t0 = (o', t0') ->
    existsb is_flash_read t0 = false -> existsb is_flash_read t0' = false).
  { clear. induction fuel as [|fuel IH]; intros off c t0 o' t0' Hrun Ht0;
      [inversion Hrun; subst; exact Ht0|].
    cbn [img_hash_loop] in Hrun.
    destruct (off <? _); [|inversion Hrun; subst; exact Ht0].
    unfold bind at 1 in Hrun. rewrite read_block_eq in Hrun.
    unfold bootutil_sha256_update, bind, emit, ret in Hrun.
    apply IH in Hrun; [exact Hrun|].
    rewrite !existsb_app, Ht0. reflexivity. }
  apply (Hgen _ _ _ _ _ _ Eloop). simpl. unfold seed_calls.
  destruct seed as [s|]; [destruct (seed_len >? 0)|]; reflexivity.
Qed.

(** X14.  [bootutil_check_hash_after_loading] makes the calls of the digest
    computation over SRAM and no other: it reads no flash, looks up no key
    and checks no signature; it returns 0 or [-1]. *)
Theorem check_hash_after_loading_calls :
  forall F K sram B fuel hdr,
  let run := bootutil_check_hash_after_loading F K sram B fuel hdr [] in
  snd run = snd (bootutil_img_hash K sram fuel hdr None B (repeat 0 32) None 0 []) /\
  existsb is_flash_read (snd run) = false /\
  existsb is_key_call (snd run) = false /\
  (forall v, fst run <> Val v) /\
  (forall rc, fst run = Return rc -> rc = 0 \/ rc = -1).
Proof.
  intros F K sram B fuel hdr run. unfold run.
  rewrite bootutil_check_hash_after_loading_eq.
  destruct (bootutil_img_hash K sram fuel hdr None B (repeat 0 32) None 0 [])
    as [oh th] eqn:Ehash.
  destruct (bootutil_img_hash_sram_calls _ _ _ _ _ _ _ _ _ _ Ehash) as [Hfl Hkey].
  destruct (bootutil_img_hash_prologue K sram fuel hdr None B (repeat 0 32) None 0
              [] oh th eq_refl Ehash) as [_ [Hnoret Hrc]].
  simpl snd at 2.
  destruct oh as [[rc hash]|rc|];
    [|exfalso; apply (Hnoret rc); reflexivity
     |repeat split; try assumption; discriminate].
  destruct (rc =? 0) eqn:Erc.
  - cbv zeta. destruct (it_magic _ =? IMAGE_TLV_INFO_MAGIC F).
    + match goal with
      | |- context [loaded_tlv_loop ?F ?m ?f ?h ?l ?e ?o ?v ?t] =>
          destruct (loaded_tlv_loop_spec F m h l e f o v t) as [Hsnd [Hret _]];
          destruct (loaded_tlv_loop F m f h l e o v t) as [[v'|rc'|] t']
      end; simpl in Hsnd; subst t'.
      * destruct (v' =? 0); repeat split; try assumption; try discriminate;
          intros rc0 Heq; inversion Heq; auto.
      * repeat split; try assumption; try discriminate.
        intros rc0 Heq. inversion Heq; subst. right. apply Hret. reflexivity.
      * repeat split; try assumption; discriminate.
    + repeat split; try assumption; try discriminate.
      intros rc0 Heq. inversion Heq; auto.
  - repeat split; try assumption; try discriminate.
    intros rc0 Heq. inversion Heq; subst. apply (Hrc rc0 hash eq_refl).
Qed.

(** X15.  [bootutil_check_hash_after_loading] returns 0 exactly when the
    trailer in SRAM has the magic, the records from the first one on can be
    walked to the end of the trailer, every digest record on the way has 32
    bytes that are the computed digest, and there is at least one. *)
Theorem check_hash_after_loading_verdict :
  forall F K sram B fuel hdr hash th,
  bootutil_img_hash K sram fuel hdr None B (repeat 0 32) None 0 []
    = (Val (0, hash), th) ->
  let load := wrap32 (ih_load_addr hdr) in
  let off0 := wrap32 (ih_img_size hdr + ih_hdr_size hdr) in
  let info := load_info F (sram_load sram (wrap32 (load + off0)) (sizeof_info F)) in
  let end_ := wrap32 (off0 + it_tlv_tot info) in
  fst (bootutil_check_hash_after_loading F K sram B fuel hdr []) = Return 0 <->
  it_magic info = IMAGE_TLV_INFO_MAGIC F /\
  exists offs,
    record_offsets fuel (loaded_next_off F sram load) end_
      (wrap32 (off0 + sizeof_info F)) = Some offs /\
    (forall o, In o offs -> loaded_is_digest F sram load o = true ->
       loaded_digest_ok F sram hash load o = true) /\
    existsb (loaded_is_digest F sram load) offs = true.
Proof.
  intros F K sram B fuel hdr hash th Hhash load off0 info end_.
  rewrite bootutil_check_hash_after_loading_eq, Hhash.
  simpl Z.eqb. cbv iota zeta. fold load. fold off0. fold info. fold end_.
  destruct (it_magic info =? IMAGE_TLV_INFO_MAGIC F) eqn:Emagic.
  - apply Z.eqb_eq in Emagic.
    destruct (loaded_tlv_loop_spec F sram hash load end_ fuel
                (wrap32 (off0 + sizeof_info F)) 0 th) as [_ [Hret Hval]].
    destruct (loaded_tlv_loop F sram fuel hash load end_ _ 0 th)
      as [[v|rc|] t'] eqn:Eloop; simpl fst in *.
    + destruct (proj1 (Hval v) eq_refl) as [offs [Hoffs [Hall Hv]]].
      split.
      * intros Hres. split; [exact Emagic|]. exists offs.
        split; [exact Hoffs|]. split; [exact Hall|].
        destruct (existsb _ offs); [reflexivity|].
        subst v. simpl in Hres. discriminate.
      * intros [_ [offs' [Hoffs' [_ Hex]]]].
        rewrite Hoffs in Hoffs'. inversion Hoffs'; subst offs'.
        rewrite Hex in Hv. subst v. reflexivity.
    + split.
      * intros Hres. inversion Hres. subst rc.
        specialize (Hret 0 eq_refl). discriminate.
      * intros [_ [offs [Hoffs [Hall Hex]]]]. exfalso.
        assert (Hv : Return (A:=Z) rc = Val 1).
        { apply (proj2 (Hval 1)). exists offs. rewrite Hex. auto. }
        discriminate.
    + split; [discriminate|].
      intros [_ [offs [Hoffs [Hall Hex]]]]. exfalso.
      assert (Hv : Fuel (A:=Z) = Val 1).
      { apply (proj2 (Hval 1)). exists offs. rewrite Hex. auto. }
      discriminate.
  - apply Z.eqb_neq in Emagic. split; [discriminate|].
    intros [Hm _]. contradiction.
Qed.

Lemma check_hash_after_loading_verdict_witness :
  let sram := Sample.loaded Sample.short_sig_image in
  fst (bootutil_check_hash_after_loading Sample.format Sample.primitives sram 8
         5 Sample.loaded_hdr []) = Return 0 /\
  fst (bootutil_img_validate Sample.format Sample.primitives true sram 400
         Sample.hdr (Sample.flash_of Sample.short_sig_image Sample.healthy) 8
         None 0 false []) = Return (-1).
Proof.
  intros sram. split; [|vm_compute; reflexivity].
  apply (check_hash_after_loading_verdict Sample.format Sample.primitives sram 8
           5 Sample.loaded_hdr Sample.digest
           [MemCopy 256 8; Sha256Update Sample.image]).
  - vm_compute. reflexivity.
  - split; [by_computation|].
    exists [12; 48; 84]. split; [vm_compute; reflexivity|]. split.
    + intros o [Ho|[Ho|[Ho|[]]]] Hd; subst o;
        [vm_compute; reflexivity|vm_compute in Hd; discriminate ..].
    + vm_compute. reflexivity.
Defined.

(** ** The RAM check and the flash check *)

Section Mirror.

Variable F : image_format.
Variable K : crypto.
Variable sram : Z -> Z.
Variable hdr : image_header.
Variable fap : flash_area.

(** The flash area holds what the SRAM holds from the load address on, and
    its reads succeed. *)
Hypothesis reads_succeed : forall o l, fa_status fap o l = 0.
Hypothesis same_content :
  forall o, fa_data fap o = sram (wrap32 (ih_load_addr hdr + o)).

Lemma img_hash_loop_mirror : forall fuel tmp_buf_sz size o ctx t t',
  fst (img_hash_loop K sram fuel hdr (Some fap) tmp_buf_sz size o ctx t) =
  fst (img_hash_loop K sram fuel hdr None tmp_buf_sz size o ctx t').
Proof.
  induction fuel as [|fuel IH]; intros; [reflexivity|].
  rewrite !img_hash_loop_step. destruct (o <? size); [|reflexivity].
  cbv zeta. rewrite !read_block_eq, reads_succeed. simpl Z.eqb. cbv iota.
  rewrite (read_bytes_ext (image_byte sram hdr (Some fap))
             (image_byte sram hdr None)) by (intro x; apply same_content).
  apply IH.
Qed.

Lemma bootutil_img_hash_mirror : forall fuel tmp_buf_sz hash_result seed seed_len t t',
  fst (bootutil_img_hash K sram fuel hdr (Some fap) tmp_buf_sz hash_result
         seed seed_len t) =
  fst (bootutil_img_hash K sram fuel hdr None tmp_buf_sz hash_result
         seed seed_len t').
Proof.
  intros. rewrite !bootutil_img_hash_eq.
  pose proof (img_hash_loop_mirror fuel tmp_buf_sz
                (wrap32 (ih_img_size hdr + ih_hdr_size hdr)) 0
                (seeded K seed seed_len) (t ++ seed_calls seed seed_len)
                (t' ++ seed_calls seed seed_len)) as H.
  destruct (img_hash_loop K sram fuel hdr (Some fap) _ _ _ _ _) as [[c|rc|] t1];
  destruct (img_hash_loop K sram fuel hdr None _ _ _ _ _) as [[c'|rc'|] t1'];
    simpl in H; try discriminate; try reflexivity;
    inversion H; reflexivity.
Qed.

(** A flash read at [o] yields the bytes of SRAM at the load address plus
    [o]. *)
Lemma mirror_read : forall o o' len,
  wrap32 o' = wrap32 (ih_load_addr hdr + o) ->
  read_bytes (fa_data fap) o len = sram_load sram (wrap32 o') len.
Proof.
  intros o o' len Ho. unfold sram_load, read_bytes. apply map_ext.
  intros i. rewrite same_content. f_equal.
  rewrite Ho, wrap32_add_l. f_equal. lia.
Qed.

Lemma mirror_tlv_at : forall o,
  tlv_at F fap o = loaded_tlv_at F sram (wrap32 (ih_load_addr hdr)) o.
Proof.
  intros o. unfold tlv_at, loaded_tlv_at. f_equal.
  apply mirror_read. rewrite wrap32_add_l. reflexivity.
Qed.

Lemma tlv_loop_mirror : forall hash end_ fuel st t t',
  fst (loaded_tlv_loop F sram fuel hash (wrap32 (ih_load_addr hdr)) end_
         (off st) (sha256_valid st) t') =
  match fst (tlv_loop F K false fuel hash fap end_ st t) with
  | Val st' => Val (sha256_valid st')
  | Return rc => Return rc
  | Fuel => Fuel
  end.
Proof.
  intros hash end_. induction fuel as [|fuel IH]; intros st t t'; [reflexivity|].
  rewrite tlv_loop_eq. cbn [loaded_tlv_loop].
  destruct (off st <? end_); [|reflexivity].
  rewrite tlv_iteration_eq. cbv zeta. rewrite reads_succeed. simpl Z.eqb.
  cbv iota. unfold bind at 1.
  fold (loaded_tlv_at F sram (wrap32 (ih_load_addr hdr)) (off st)).
  rewrite loaded_tlv_record_eq. unfold loaded_is_digest, loaded_digest_ok.
  unfold next_off. rewrite mirror_tlv_at.
  set (tlv := loaded_tlv_at F sram (wrap32 (ih_load_addr hdr)) (off st)).
  destruct (it_type tlv =? IMAGE_TLV_SHA256 F) eqn:Etype.
  - apply Z.eqb_eq in Etype. rewrite (tlv_record_digest _ _ _ _ _ _ _ _ Etype).
    destruct (it_len tlv =? 32); [|reflexivity].
    cbv zeta. rewrite reads_succeed. simpl Z.eqb. cbv iota. simpl andb.
    unfold payload_off.
    rewrite (mirror_read (wrap32 (off st + sizeof_tlv F))
               (wrap32 (ih_load_addr hdr) + off st + sizeof_tlv F) 32).
    + destruct (memcmp _ _ _ =? 0); [|reflexivity].
      apply (IH (set_off (set_sha256_valid st 1) _)).
    + rewrite <- !Z.add_assoc, wrap32_add_l.
      unfold wrap32. rewrite Z.add_mod_idemp_r by lia. reflexivity.
  - apply Z.eqb_neq in Etype.
    rewrite (tlv_record_other _ _ _ _ _ _ _ _ Etype (or_introl eq_refl)).
    apply (IH (set_off st _)).
Qed.

(** X16.  On a flash area whose reads succeed and which holds what the SRAM
    holds from the load address on, [bootutil_img_validate] built without
    signature support returns what [bootutil_check_hash_after_loading]
    returns. *)
Theorem ram_check_agrees_with_flash_check :
  forall fuel tmp_buf_sz out_hash,
  fst (bootutil_img_validate F K false sram fuel hdr fap tmp_buf_sz None 0
         out_hash []) =
  fst (bootutil_check_hash_after_loading F K sram tmp_buf_sz fuel hdr []).
Proof.
  intros fuel tmp_buf_sz out_hash.
  rewrite bootutil_img_validate_eq, img_validate_scan_eq,
    bootutil_check_hash_after_loading_eq.
  pose proof (bootutil_img_hash_mirror fuel tmp_buf_sz (repeat 0 32) None 0 [] [])
    as Hh.
  destruct (bootutil_img_hash K sram fuel hdr (Some fap) _ _ _ _ _)
    as [[[rc hash]|rc|] th];
  destruct (bootutil_img_hash K sram fuel hdr None _ _ _ _ _)
    as [[[rc' hash']|rc'|] th'];
    simpl in Hh; try discriminate; try (inversion Hh; reflexivity).
  inversion Hh; subst rc' hash'. clear Hh.
  destruct (rc =? 0); [|reflexivity].
  cbv zeta. rewrite reads_succeed. simpl Z.eqb. cbv iota.
  rewrite (mirror_read (wrap32 (ih_img_size hdr + ih_hdr_size hdr))
             (wrap32 (ih_load_addr hdr)
              + wrap32 (ih_img_size hdr + ih_hdr_size hdr)) (sizeof_info F))
    by (rewrite wrap32_add_l; reflexivity).
  destruct (it_magic _ =? IMAGE_TLV_INFO_MAGIC F); [|reflexivity].
  match goal with
  | |- context [tlv_loop F K false fuel hash fap ?e ?st ?t] =>
      pose proof (tlv_loop_mirror hash e fuel st t th') as Hl;
      destruct (tlv_loop F K false fuel hash fap e st t) as [[st'|r|] t1]
  end; cbn [off sha256_valid fst] in Hl;
  destruct (loaded_tlv_loop _ _ _ _ _ _ _ _ _) as [[v|r'|] t1'];
    simpl in Hl; try discriminate; inversion Hl; subst; try reflexivity.
  simpl andb. destruct (sha256_valid st' =? 0); reflexivity.
Qed.

End Mirror.

Lemma ram_check_agrees_with_flash_check_witness :
  let sram := Sample.loaded Sample.signed_image in
  let fap := Sample.mirror sram 0x100 in
  fst (bootutil_img_validate Sample.format Sample.primitives false sram 5
         Sample.loaded_hdr fap 8 None 0 false []) = Return 0 /\
  fst (bootutil_check_hash_after_loading Sample.format Sample.primitives sram 8
         5 Sample.loaded_hdr []) = Return 0.
Proof.
  intros sram fap.
  assert (Hrun : fst (bootutil_check_hash_after_loading Sample.format
                        Sample.primitives sram 8 5 Sample.loaded_hdr [])
                 = Return 0) by (vm_compute; reflexivity).
  split; [|exact Hrun].
  rewrite <- Hrun.
  apply (ram_check_agrees_with_flash_check Sample.format Sample.primitives sram
           Sample.loaded_hdr fap).
  - intros o l. reflexivity.
  - intros o. reflexivity.
Defined.

(** When the record lengths are those of a 16 bit field and the trailer ends
    far enough below 2^32, the walk over the loaded records ends. *)
Lemma loaded_tlv_loop_terminates :
  forall F sram hash load end_ fuel o v t,
  0 < sizeof_tlv F ->
  (forall bytes, 0 <= it_len (load_tlv F bytes) < 2 ^ 16) ->
  end_ + sizeof_tlv F + 2 ^ 16 <= 2 ^ 32 ->
  0 <= o ->
  end_ - o <= Z.of_nat fuel ->
  fst (loaded_tlv_loop F sram (S fuel) hash load end_ o v t) <> Fuel.
Proof.
  intros F sram hash load end_.
  induction fuel as [|fuel IH]; intros o v t Hsz Hlen Hend Ho Hfuel;
    cbn [loaded_tlv_loop]; destruct (o <? end_) eqn:Elt;
    try (simpl; discriminate).
  - apply Z.ltb_lt in Elt. simpl in Hfuel. lia.
  - apply Z.ltb_lt in Elt. cbv zeta. unfold bind at 1.
    fold (loaded_tlv_at F sram load o). rewrite loaded_tlv_record_eq.
    pose proof (Hlen (sram_load sram (wrap32 (load + o)) (sizeof_tlv F))) as Hl.
    fold (loaded_tlv_at F sram load o) in Hl.
    assert (Hadv : wrap32 (o + (sizeof_tlv F + it_len (loaded_tlv_at F sram load o)))
                   = o + (sizeof_tlv F + it_len (loaded_tlv_at F sram load o)))
      by (apply wrap32_small; lia).
    rewrite Hadv.
    destruct (loaded_is_digest F sram load o);
      [destruct (loaded_digest_ok F sram hash load o); [|simpl; discriminate]|];
      apply IH; try assumption; lia.
Qed.

(** X17.  When the block buffer holds at least one byte, the record lengths
    are those of a 16 bit field and the trailer ends far enough below 2^32,
    [bootutil_check_hash_after_loading] returns, with 0 or [-1]. *)
Theorem check_hash_after_loading_returns :
  forall F K sram B fuel hdr,
  let size := wrap32 (ih_img_size hdr + ih_hdr_size hdr) in
  let load := wrap32 (ih_load_addr hdr) in
  let info := load_info F (sram_load sram (wrap32 (load + size)) (sizeof_info F)) in
  let end_ := wrap32 (size + it_tlv_tot info) in
  1 <= B ->
  0 < sizeof_tlv F ->
  (forall bytes, 0 <= it_len (load_tlv F bytes) < 2 ^ 16) ->
  end_ + sizeof_tlv F + 2 ^ 16 <= 2 ^ 32 ->
  ceil_div size B < Z.of_nat fuel ->
  end_ < Z.of_nat fuel ->
  exists rc,
    fst (bootutil_check_hash_after_loading F K sram B fuel hdr []) = Return rc /\
    (rc = 0 \/ rc = -1).
Proof.
  intros F K sram B fuel hdr size load info end_ Hcap Hsz Hlen Hend Hfuel1 Hfuel2.
  rewrite bootutil_check_hash_after_loading_eq.
  assert (Hfuel : (Z.to_nat (ceil_div size B) < fuel)%nat).
  { pose proof (wrap32_range (size + it_tlv_tot info)) as Hr. fold end_ in Hr. lia. }
  destruct (bootutil_img_hash_returns K sram hdr None B (repeat 0 32) None 0
              fuel [] Hcap Hfuel) as [[rc hash] [th [Hhash _]]].
  rewrite Hhash.
  destruct (bootutil_img_hash_prologue K sram fuel hdr None B (repeat 0 32) None 0
              [] _ _ eq_refl Hhash) as [_ [_ Hrc]].
  destruct (rc =? 0) eqn:Erc.
  2:{ exists rc. split; [reflexivity|]. apply (Hrc rc hash eq_refl). }
  cbv zeta. fold size. fold load. fold info. fold end_.
  destruct (it_magic info =? IMAGE_TLV_INFO_MAGIC F);
    [|exists (-1); split; [reflexivity|right; reflexivity]].
  destruct fuel as [|fuel];
    [simpl in Hfuel2; pose proof (wrap32_range (size + it_tlv_tot info)) as Hr;
     fold end_ in Hr; lia|].
  pose proof (loaded_tlv_loop_terminates F sram hash load end_ fuel
                (wrap32 (size + sizeof_info F)) 0
                (([] ++ seed_calls None 0) ++ th) Hsz Hlen Hend) as Hterm.
  destruct (loaded_tlv_loop_spec F sram hash load end_ (S fuel)
              (wrap32 (size + sizeof_info F)) 0
              (([] ++ seed_calls None 0) ++ th)) as [_ [Hret _]].
  pose proof (wrap32_range (size + sizeof_info F)) as Hr.
  specialize (Hterm ltac:(lia) ltac:(lia)).
  revert Hterm Hret. simpl app.
  destruct (loaded_tlv_loop F sram (S fuel) hash load end_ _ 0 _)
    as [[v|rc'|] t']; simpl fst; intros Hterm Hret.
  - destruct (v =? 0); eexists; (split; [reflexivity|auto]).
  - exists rc'. split; [reflexivity|]. right. apply Hret. reflexivity.
  - congruence.
Qed.

Lemma check_hash_after_loading_returns_witness :
  exists rc,
    fst (bootutil_check_hash_after_loading Sample.format Sample.primitives
           (Sample.loaded Sample.signed_image) 8 400 Sample.loaded_hdr [])
      = Return rc /\
    (rc = 0 \/ rc = -1).
Proof.
  apply (check_hash_after_loading_returns Sample.format Sample.primitives
           (Sample.loaded Sample.signed_image) 8 400 Sample.loaded_hdr).
  - lia.
  - simpl. lia.
  - exact sample_len_range.
  - apply Z.leb_le. vm_compute. reflexivity.
  - apply Z.ltb_lt. vm_compute. reflexivity.
  - apply Z.ltb_lt. vm_compute. reflexivity.
Defined.
